(** * Balance ledger cache of the SudoSOS back-end (BalanceService)

    A shallow embedding of [BalanceService]: the SQL statements issued by
    [updateBalances], [clearBalanceCache], [getBalances], [getBalance] and
    [getAllBalances] are read as list comprehensions over the tables they
    name, the [balance] table (primary key [user_id]) as a finite map and
    the [user] table (primary key [id]) as a finite set.

    Amounts follow the arithmetic of the database engine: a numeric value
    is a signed 64-bit integer or a REAL, a product or a sum of two
    integers that leaves the 64-bit range is carried on as a REAL, the
    aggregate [sum] fails with 'integer overflow' when an integer addition
    overflows, and an integer handed to the JavaScript side becomes the
    nearest double. Ids (of users, transactions and transfers) are
    JavaScript numbers in the interface of the service ([ids: number[]],
    [id: number]) and are taken as the integers they denote. *)

From stdpp Require Import gmap list sorting.
From Stdlib Require Import ZArith Lia.

Local Open Scope Z_scope.

(** ** Numbers *)

Definition int64_min : Z := -9223372036854775808.
Definition int64_max : Z := 9223372036854775807.

Definition in_int64 (z : Z) : Prop := int64_min ≤ z ≤ int64_max.

#[global] Instance in_int64_dec z : Decision (in_int64 z).
Proof. unfold in_int64. apply _. Defined.

(** A numeric value of the engine: a 64-bit integer, or a REAL. The model
    does not follow the digits of a REAL: [Real] stands for any value that
    went through floating-point arithmetic. *)
Inductive Num :=
  | Int (z : Z)
  | Real.

#[global] Instance Num_eq_dec : EqDecision Num.
Proof. solve_decision. Defined.

(** [a * b]: the product of two integers is an integer when it fits in 64
    bits; otherwise, and whenever an operand is a REAL, the result is a
    REAL. *)
Definition sql_mul (a b : Num) : Num :=
  match a, b with
  | Int x, Int y => if decide (in_int64 (x * y)) then Int (x * y) else Real
  | _, _ => Real
  end.

(** [a + b], with the same rule. *)
Definition sql_add (a b : Num) : Num :=
  match a, b with
  | Int x, Int y => if decide (in_int64 (x + y)) then Int (x + y) else Real
  | _, _ => Real
  end.

Arguments sql_mul : simpl never.
Arguments sql_add : simpl never.

(** Largest magnitude up to which every integer is a double. *)
Definition safe_integer : Z := 9007199254740992.

(** The double nearest to an integer, ties to the even mantissa: the value
    of a 64-bit integer once the driver has turned it into a JavaScript
    number. Only the 53 leading bits are kept. *)
Definition round53 (z : Z) : Z :=
  let a := Z.abs z in
  if decide (a ≤ safe_integer) then z
  else
    let e := Z.log2 a - 52 in
    let q := a / 2 ^ e in
    let r := a mod 2 ^ e in
    let half := 2 ^ (e - 1) in
    let q' := if decide (r < half) then q
              else if decide (half < r) then q + 1
              else if Z.even q then q else q + 1 in
    Z.sgn z * (q' * 2 ^ e).

Arguments round53 : simpl never.

(** A column value as the JavaScript side receives it. *)
Definition js_number (v : Num) : Num :=
  match v with
  | Int z => Int (round53 z)
  | Real => Real
  end.

(** ** Failures *)

Inductive error :=
  | TypeError          (* property read on undefined *)
  | NoBalanceReturned  (* new Error('No balance returned') *)
  | QueryFailedError   (* the engine rejects the statement: integer overflow *)
  | TypeORMError.      (* empty criteria are not allowed for delete *)

Inductive result (A : Type) :=
  | Ok (a : A)
  | Err (e : error).
Arguments Ok {A} a.
Arguments Err {A} e.

(** All the results, or the first failure. *)
Fixpoint collect {A : Type} (l : list (result A)) : result (list A) :=
  match l with
  | [] => Ok []
  | Ok a :: l' =>
      match collect l' with
      | Ok k => Ok (a :: k)
      | Err e => Err e
      end
  | Err e :: _ => Err e
  end.

(** ** Tables *)

(** Row of [transaction]: the columns the service reads. *)
Record Transaction := mkTransaction {
  t_id : Z;
  t_fromId : Z
}.

(** Row of [sub_transaction]. *)
Record SubTransaction := mkSubTransaction {
  st_id : Z;
  st_transactionId : Z;
  st_toId : Z
}.

(** Row of [sub_transaction_row]; [amount] is the quantity bought. *)
Record SubTransactionRow := mkSubTransactionRow {
  str_subTransactionId : Z;
  str_amount : Z;
  str_productRevision : Z;
  str_productProduct : Z
}.

(** Row of [product_revision]: the price locked for one revision. *)
Record ProductRevision := mkProductRevision {
  pr_productId : Z;
  pr_revision : Z;
  pr_priceInclVat : Z
}.

(** Row of [transfer]; either side may be NULL. *)
Record Transfer := mkTransfer {
  tr_id : Z;
  tr_fromId : option Z;
  tr_toId : option Z;
  tr_amount : Z
}.

(** Modelled from the spec: the entity declaration of [balance] is not
    among the sources. A snapshot has the subject as unique key, an amount
    and two checkpoint ids; the row is given here without its key
    [user_id], in the column order that [REPLACE INTO balance select id,
    sum(amount), .., ..] fills. The amount is whatever the [sum] of the
    refresh produced. *)
Record Balance := mkBalance {
  amount : Num;
  lastTransaction : Z;
  lastTransfer : Z
}.

(** The tables the service touches. [user] is keyed by [id] and [balance]
    by [user_id]; the ledger tables are bags of rows, listed in the order
    in which a scan of the table meets them. *)
Record DB := mkDB {
  user : gset Z;
  transaction : list Transaction;
  sub_transaction : list SubTransaction;
  sub_transaction_row : list SubTransactionRow;
  product_revision : list ProductRevision;
  transfer : list Transfer;
  balance : gmap Z Balance
}.

Definition with_balance (db : DB) (b : gmap Z Balance) : DB :=
  mkDB (user db) (transaction db) (sub_transaction db)
       (sub_transaction_row db) (product_revision db) (transfer db) b.

(** ** SQL building blocks *)

(** [l inner join r on c]: every pair of rows that satisfies [c]. *)
Definition inner_join {A B : Type} (on : A → B → Prop)
    `{∀ a b, Decision (on a b)} (l : list A) (r : list B) : list (A * B) :=
  a ← l; b ← filter (on a) r; [(a, b)].

(** [l left join balance b on key = b.user_id]: [user_id] is the primary
    key, so each row of [l] meets at most one balance row; a NULL key meets
    none. *)
Definition left_join_balance {A : Type} (key : A → option Z)
    (l : list A) (b : gmap Z Balance) : list (A * option Balance) :=
  (λ a, (a, key a ≫= (b !!.))) <$> l.

(** [max(col)]: NULL on no rows. *)
Definition sql_max (l : list Z) : option Z :=
  match l with
  | [] => None
  | x :: l' => Some (foldr Z.max x l')
  end.

(** The accumulator of [sum]: an integer total as long as every value is
    an integer and every addition fits in 64 bits. *)
Inductive SumState :=
  | SumInt (z : Z)
  | SumReal
  | SumOverflow.

(** One row more: an integer addition that overflows is remembered; from
    the first REAL on the total is kept in floating point. *)
Definition sum_step (st : SumState) (v : Num) : SumState :=
  match st, v with
  | SumInt a, Int x =>
      if decide (in_int64 (a + x)) then SumInt (a + x) else SumOverflow
  | SumInt _, Real => SumReal
  | SumReal, _ => SumReal
  | SumOverflow, _ => SumOverflow
  end.

(** The total of the rows of a group; the statement fails with 'integer
    overflow' when an addition overflowed. The statement does not fix the
    order in which the engine meets the rows of a group: the model takes
    the order of the list, which is the order of the selects of the
    statement and, within a select, of its joins. The order matters only
    where integers of both signs cancel near the bounds of the range. *)
Definition sum_values (l : list Num) : result Num :=
  match foldl sum_step (SumInt 0) l with
  | SumInt z => Ok (Int z)
  | SumReal => Ok Real
  | SumOverflow => Err QueryFailedError
  end.

(** [sum(col)]: NULL on no rows. *)
Definition sql_sum (l : list Num) : result (option Num) :=
  match l with
  | [] => Ok None
  | _ =>
      match sum_values l with
      | Ok v => Ok (Some v)
      | Err e => Err e
      end
  end.

Definition COALESCE {A : Type} (o : option A) (d : A) : A := default d o.

(** The groups of [group by id]: the distinct ids, in ascending order. *)
Definition group_keys (rows : list (Z * Num)) : list Z :=
  merge_sort Z.le (remove_dups (rows.*1)).

(** [select id, sum(amount) from rows group by id]: one row per distinct
    id, carrying the sum over its group (a group has at least one row);
    an overflow in any group fails the statement. *)
Definition group_by_sum (rows : list (Z * Num)) : result (list (Z * Num)) :=
  collect
    ((λ i, match sum_values ((filter (λ r, r.1 = i) rows).*2) with
           | Ok v => Ok (i, v)
           | Err e => Err e
           end) <$> group_keys rows).

(** ** The joins of the transaction ledger *)

Definition on_t_st (t : Transaction) (st : SubTransaction) : Prop :=
  t_id t = st_transactionId st.

Definition on_st_str {A : Type} (x : A * SubTransaction)
    (str : SubTransactionRow) : Prop :=
  st_id x.2 = str_subTransactionId str.

Definition on_str_pr {A : Type} (x : A * SubTransactionRow)
    (pr : ProductRevision) : Prop :=
  str_productRevision x.2 = pr_revision pr
  ∧ str_productProduct x.2 = pr_productId pr.

Definition on_st_str' (st : SubTransaction) (str : SubTransactionRow) : Prop :=
  st_id st = str_subTransactionId str.

#[global] Instance on_t_st_dec t st : Decision (on_t_st t st).
Proof. unfold on_t_st. apply _. Defined.
#[global] Instance on_st_str_dec {A} (x : A * SubTransaction) str :
  Decision (on_st_str x str).
Proof. unfold on_st_str. apply _. Defined.
#[global] Instance on_str_pr_dec {A} (x : A * SubTransactionRow) pr :
  Decision (on_str_pr x pr).
Proof. unfold on_str_pr. apply _. Defined.
#[global] Instance on_st_str'_dec st str : Decision (on_st_str' st str).
Proof. unfold on_st_str'. apply _. Defined.

(** [transaction t inner join sub_transaction st on t.id=st.transactionId
     inner join sub_transaction_row str on st.id=str.subTransactionId
     inner join product_revision pr on str.productRevision=pr.revision
                                   and str.productProduct=pr.productId] *)
Definition payer_join (db : DB)
  : list (Transaction * SubTransaction * SubTransactionRow * ProductRevision) :=
  inner_join on_str_pr
    (inner_join on_st_str
      (inner_join on_t_st (transaction db) (sub_transaction db))
      (sub_transaction_row db))
    (product_revision db).

(** [sub_transaction st2 inner join sub_transaction_row str2 on ..
     inner join product_revision pr2 on ..] *)
Definition recipient_join (db : DB)
  : list (SubTransaction * SubTransactionRow * ProductRevision) :=
  inner_join on_str_pr
    (inner_join on_st_str' (sub_transaction db) (sub_transaction_row db))
    (product_revision db).

(** ** updateBalances *)

(** [select max(`transaction`) as transactionMax, max(transfer) as
    transferMax from (select max(id), 0 from `transaction` union
    select 0, max(id) from transfer)]: the aggregate skips the NULL of an
    empty table and always sees the literal 0 of the other branch. *)
Definition transactionMax (db : DB) : Z :=
  match sql_max (t_id <$> transaction db) with
  | Some m => Z.max m 0
  | None => 0
  end.

Definition transferMax (db : DB) : Z :=
  match sql_max (tr_id <$> transfer db) with
  | Some m => Z.max 0 m
  | None => 0
  end.

(** [where .. and col in (ids)] when ids are given, no restriction
    otherwise. *)
Definition in_ids (ids : option (list Z)) (i : Z) : Prop :=
  match ids with
  | Some l => i ∈ l
  | None => True
  end.

#[global] Instance in_ids_dec ids i : Decision (in_ids ids i).
Proof. destruct ids; simpl; apply _. Defined.

(** The derived table [moneys] of [updateBalances]: four selects glued by
    UNION ALL. The two branches of [if (params && params.ids)] issue the
    same statement up to the restriction on the subject: with ids every
    select carries [and <subject> in (ids)], which a NULL side of a
    transfer fails; without ids the transfer selects carry [is not NULL]
    instead. The amounts are [str.amount * pr.priceInclVat * -1],
    [str2.amount * pr2.priceInclVat], [amount*-1] and [amount]. *)
Definition update_moneys (ids : option (list Z)) (db : DB) : list (Z * Num) :=
  let tmax := transactionMax db in
  let fmax := transferMax db in
  ((λ x, (t_fromId x.1.1.1,
          sql_mul (sql_mul (Int (str_amount x.1.2)) (Int (pr_priceInclVat x.2)))
                  (Int (-1)))) <$>
     filter (λ x, t_id x.1.1.1 ≤ tmax ∧ in_ids ids (t_fromId x.1.1.1))
            (payer_join db))
  ++ ((λ x, (st_toId x.1.1,
             sql_mul (Int (str_amount x.1.2)) (Int (pr_priceInclVat x.2)))) <$>
     filter (λ x, st_transactionId x.1.1 ≤ tmax ∧ in_ids ids (st_toId x.1.1))
            (recipient_join db))
  ++ (t2 ← transfer db;
      match tr_fromId t2 with
      | Some i =>
          if decide (tr_id t2 ≤ fmax ∧ in_ids ids i)
          then [(i, sql_mul (Int (tr_amount t2)) (Int (-1)))] else []
      | None => []
      end)
  ++ (t3 ← transfer db;
      match tr_toId t3 with
      | Some i =>
          if decide (tr_id t3 ≤ fmax ∧ in_ids ids i)
          then [(i, Int (tr_amount t3))] else []
      | None => []
      end).

(** [REPLACE INTO balance select id, sum(amount), tmax, fmax ..]: each
    selected row takes the place of the row with the same [user_id]. *)
Definition replace_into (tmax fmax : Z) (b : gmap Z Balance)
    (rows : list (Z * Num)) : gmap Z Balance :=
  foldl (λ acc r, <[r.1 := mkBalance r.2 tmax fmax]> acc) b rows.

(** [params] is [Some ids] when [params && params.ids] holds. The maximum
    ids are read first and used both as bounds of the scan and as the
    checkpoints of every row written. When the statement fails nothing is
    written. *)
Definition updateBalances (params : option (list Z)) (db : DB) : result DB :=
  match group_by_sum (update_moneys params db) with
  | Ok rows =>
      Ok (with_balance db
            (replace_into (transactionMax db) (transferMax db) (balance db) rows))
  | Err e => Err e
  end.

(** The database after a call of [updateBalances], failed or not. *)
Definition refreshed (params : option (list Z)) (db : DB) : DB :=
  match updateBalances params db with
  | Ok db' => db'
  | Err _ => db
  end.

(** ** clearBalanceCache *)

(** The argument [ids?: number | number[]]. *)
Inductive ClearIds :=
  | OneId (id : Z)
  | ManyIds (ids : list Z).

(** [if (ids)]: a number is truthy unless it is 0, an array always is. *)
Definition truthy (ids : option ClearIds) : bool :=
  match ids with
  | None => false
  | Some (OneId id) => negb (id =? 0)
  | Some (ManyIds _) => true
  end.

(** [Balance.delete(ids)] removes the rows with these primary keys and
    rejects an empty array of them; the other branch is [DELETE from
    balance where 1=1]. *)
Definition clearBalanceCache (ids : option ClearIds) (db : DB) : result DB :=
  if truthy ids then
    match ids with
    | Some (OneId id) => Ok (with_balance db (delete id (balance db)))
    | Some (ManyIds []) => Err TypeORMError
    | Some (ManyIds l) =>
        Ok (with_balance db (foldr (λ id acc, delete id acc) (balance db) l))
    | None => Ok db
    end
  else Ok (with_balance db ∅).

(** The database after a call of [clearBalanceCache], failed or not. *)
Definition cleared (ids : option ClearIds) (db : DB) : DB :=
  match clearBalanceCache ids db with
  | Ok db' => db'
  | Err _ => db
  end.

(** ** getBalances *)

(** A row of the derived table [moneys] of [getBalances]: [id] is NULL
    for the absent side of a transfer. *)
Definition Money : Type := option Z * Num.

(** [where col IN ( ?,.. )] is appended only when [ids !== undefined]. *)
Definition in_ids_opt (ids : option (list Z)) (i : option Z) : Prop :=
  match ids with
  | Some l => match i with Some j => j ∈ l | None => False end
  | None => True
  end.

#[global] Instance in_ids_opt_dec ids i : Decision (in_ids_opt ids i).
Proof. destruct ids, i; simpl; apply _. Defined.

Definition opt_lastTransaction (b : option Balance) : option Z :=
  lastTransaction <$> b.

Definition opt_lastTransfer (b : option Balance) : option Z :=
  lastTransfer <$> b.

(** [transaction t left join balance b1 on t.fromId=b1.user_id inner join
    sub_transaction .. inner join sub_transaction_row .. inner join
    product_revision ..] *)
Definition read_payer_join (db : DB)
  : list (Transaction * option Balance * SubTransaction * SubTransactionRow
          * ProductRevision) :=
  inner_join on_str_pr
    (inner_join on_st_str
      (inner_join (λ x st, on_t_st x.1 st)
        (left_join_balance (λ t, Some (t_fromId t)) (transaction db) (balance db))
        (sub_transaction db))
      (sub_transaction_row db))
    (product_revision db).

(** [sub_transaction st2 left join balance b2 on st2.toId=b2.user_id inner
    join sub_transaction_row .. inner join product_revision ..] *)
Definition read_recipient_join (db : DB)
  : list (SubTransaction * option Balance * SubTransactionRow * ProductRevision) :=
  inner_join on_str_pr
    (inner_join (λ x str, on_st_str' x.1 str)
      (left_join_balance (λ st, Some (st_toId st)) (sub_transaction db) (balance db))
      (sub_transaction_row db))
    (product_revision db).

(** The derived table [moneys] of [getBalances]. *)
Definition read_moneys (ids : option (list Z)) (db : DB) : list Money :=
  ((λ x, (Some (t_fromId x.1.1.1.1),
          sql_mul (sql_mul (Int (str_amount x.1.2)) (Int (pr_priceInclVat x.2)))
                  (Int (-1)))) <$>
     filter (λ x, t_id x.1.1.1.1 > COALESCE (opt_lastTransaction x.1.1.1.2) 0
                  ∧ in_ids_opt ids (Some (t_fromId x.1.1.1.1)))
            (read_payer_join db))
  ++ ((λ x, (Some (st_toId x.1.1.1),
             sql_mul (Int (str_amount x.1.2)) (Int (pr_priceInclVat x.2)))) <$>
     filter (λ x, st_transactionId x.1.1.1 > COALESCE (opt_lastTransaction x.1.1.2) 0
                  ∧ in_ids_opt ids (Some (st_toId x.1.1.1)))
            (read_recipient_join db))
  ++ ((λ x, (tr_fromId x.1, sql_mul (Int (tr_amount x.1)) (Int (-1)))) <$>
     filter (λ x, tr_id x.1 > COALESCE (opt_lastTransfer x.2) 0
                  ∧ in_ids_opt ids (tr_fromId x.1))
            (left_join_balance tr_fromId (transfer db) (balance db)))
  ++ ((λ x, (tr_toId x.1, Int (tr_amount x.1))) <$>
     filter (λ x, tr_id x.1 > COALESCE (opt_lastTransfer x.2) 0
                  ∧ in_ids_opt ids (tr_toId x.1))
            (left_join_balance tr_toId (transfer db) (balance db))).

(** A row of the query result, as the JavaScript side receives it. *)
Record RawBalance := mkRawBalance {
  rb_id : Z;
  rb_amount : Num;
  rb_count : Z;
  rb_lastTransaction : option Z;
  rb_lastTransfer : option Z;
  rb_cachedAmount : option Num
}.

(** The rows of [user] in the order of [group by user.id]: ascending id. *)
Definition users_ascending (db : DB) : list Z :=
  merge_sort Z.le (elements (user db)).

(** The row of user [u]: [COALESCE(sum(moneys.totalValue), 0)] and
    [count(moneys.totalValue)] over the rows of [moneys] joined to [u],
    then [left join balance b5 on b5.user_id=moneys2.id] and
    [moneys2.totalValue + COALESCE(b5.amount, 0)]. A user without matching
    rows keeps one all-NULL row of [moneys], whose sum is NULL and whose
    count is 0. *)
Definition user_row (ids : option (list Z)) (db : DB) (u : Z)
  : result RawBalance :=
  let matching := filter (λ m : Money, m.1 = Some u) (read_moneys ids db) in
  match sql_sum (matching.*2) with
  | Ok total =>
      let b5 := balance db !! u in
      Ok (mkRawBalance u
            (js_number (sql_add (COALESCE total (Int 0))
                                (COALESCE (amount <$> b5) (Int 0))))
            (Z.of_nat (length matching))
            (lastTransaction <$> b5) (lastTransfer <$> b5)
            (js_number <$> (amount <$> b5)))
  | Err e => Err e
  end.

(** [select .. from user left join moneys on moneys.id=user.id (where
    user.id IN ..) group by user.id]: one row per selected user; the
    statement fails when the sum of one of them overflows. *)
Definition balance_query (ids : option (list Z)) (db : DB)
  : result (list RawBalance) :=
  collect (user_row ids db <$> filter (in_ids ids) (users_ascending db)).

Record BalanceResponse := mkBalanceResponse {
  br_id : Z;
  br_amount : Num;
  br_lastTransactionId : option Z;
  br_lastTransferId : option Z
}.

(** Modelled from the spec: [DineroTransformer] is not among the sources.
    Amounts are numbers in minor currency units, so
    [DineroTransformer.Instance.from(n).toObject()] is modelled by [n]. *)
Definition asBalanceResponse (rawBalance : RawBalance) : BalanceResponse :=
  mkBalanceResponse (rb_id rawBalance) (rb_amount rawBalance)
    (rb_lastTransaction rawBalance) (rb_lastTransfer rawBalance).

(** [balances.length === 0 && balances[0].amount === undefined]: the right
    operand is evaluated only when the array is empty, where [balances[0]]
    is undefined and reading [.amount] throws; the [amount] of a row is a
    number, never undefined. *)
Definition no_balance (balances : list RawBalance) : result bool :=
  if decide (length balances = 0%nat) then
    match balances !! 0%nat with
    | None => Err TypeError
    | Some _ => Ok false
    end
  else Ok false.

Definition getBalances (ids : option (list Z)) (db : DB)
  : result (list BalanceResponse) :=
  match balance_query ids db with
  | Ok balances =>
      match no_balance balances with
      | Err e => Err e
      | Ok true => Err NoBalanceReturned
      | Ok false => Ok (asBalanceResponse <$> balances)
      end
  | Err e => Err e
  end.

(** [(await this.getBalances([id]))[0]]; [None] is undefined. *)
Definition getBalance (id : Z) (db : DB) : result (option BalanceResponse) :=
  match getBalances (Some [id]) db with
  | Ok l => Ok (l !! 0%nat)
  | Err e => Err e
  end.

(** ** getAllBalances *)

(** [select id, sum(amount) from (select id, 0 from user union select
    user_id, amount from balance) group by id]: UNION keeps each distinct
    row once. *)
Definition all_balances_query (db : DB) : result (list (Z * Num)) :=
  group_by_sum
    (remove_dups
       (((λ u, (u, Int 0)) <$> elements (user db))
        ++ ((λ kb : Z * Balance, (kb.1, amount kb.2)) <$> map_to_list (balance db)))).

(** [getAllBalances()] called without params: the table is rebuilt by
    [updateBalances()] and read back; [reduce] fills the [Map] with
    [map.set(obj.id, obj.amount)]. The branch with ids is left out: it
    binds [2 * ids.length] values to the [4 * ids.length] placeholders of
    its statement, and what happens to the unbound ones is decided by the
    database driver, which is not among the sources. *)
Definition getAllBalances (db : DB) : result (DB * gmap Z Num) :=
  match updateBalances None db with
  | Ok db' =>
      match all_balances_query db' with
      | Ok balanceArray =>
          Ok (db', foldl (λ (map : gmap Z Num) obj, <[obj.1 := js_number obj.2]> map)
                         ∅ balanceArray)
      | Err e => Err e
      end
  | Err e => Err e
  end.

(** ** Worked ledgers *)

(** Subject 1 buys 3 units at 150 from a sale owned by subject 2; a
    transfer of 1000 from 3 to 4; a deposit of 500 to 5. *)
Definition demo_db : DB :=
  mkDB {[1; 2; 3; 4; 5; 6]}
    [mkTransaction 1 1]
    [mkSubTransaction 1 1 2]
    [mkSubTransactionRow 1 3 1 7]
    [mkProductRevision 7 1 150; mkProductRevision 7 2 175]
    [mkTransfer 1 (Some 3) (Some 4) 1000; mkTransfer 2 None (Some 5) 500]
    ∅.

(** A user and nothing else. *)
Definition empty_db : DB := mkDB {[1]} [] [] [] [] [] ∅.

(** Two transfers that cancel out for both subjects. *)
Definition zero_sum_db : DB :=
  mkDB {[1; 2]} [] [] [] []
    [mkTransfer 1 (Some 1) (Some 2) 100; mkTransfer 2 (Some 2) (Some 1) 100]
    ∅.

(** [demo_db] after a full refresh. *)
Definition demo_db_refreshed : DB := refreshed None demo_db.

(** [demo_db_refreshed] after subject 2 bought one unit at 175 from
    subject 1 in a second transaction. *)
Definition demo_db_grown : DB :=
  mkDB (user demo_db)
    (transaction demo_db ++ [mkTransaction 2 2])
    (sub_transaction demo_db ++ [mkSubTransaction 2 2 1])
    (sub_transaction_row demo_db ++ [mkSubTransactionRow 2 1 2 7])
    (product_revision demo_db)
    (transfer demo_db)
    (balance demo_db_refreshed).

(** Two deposits to subject 1 that together leave the 64-bit range, and a
    deposit of 5 to subject 2. *)
Definition overflow_db : DB :=
  mkDB {[1; 2]} [] [] [] []
    [mkTransfer 1 None (Some 1) int64_max; mkTransfer 2 None (Some 1) 1;
     mkTransfer 3 None (Some 2) 5]
    ∅.

(** Subject 1 buys 2^32 units at 2^32 from a sale owned by subject 2: the
    product leaves the 64-bit range. *)
Definition real_db : DB :=
  mkDB {[1; 2]}
    [mkTransaction 1 1]
    [mkSubTransaction 1 1 2]
    [mkSubTransactionRow 1 4294967296 1 7]
    [mkProductRevision 7 1 4294967296]
    []
    ∅.

(** A deposit of 2^53 + 1 to subject 1. *)
Definition round_db : DB :=
  mkDB {[1]} [] [] [] []
    [mkTransfer 1 None (Some 1) 9007199254740993]
    ∅.

(** Subject 1 paid out 5, which a full refresh cached; then two deposits
    to subject 1 arrived that together leave the 64-bit range, while the
    three amounts together stay within it. *)
Definition cancel_db : DB :=
  mkDB {[1]} [] [] [] []
    [mkTransfer 1 (Some 1) None 5; mkTransfer 2 None (Some 1) int64_max;
     mkTransfer 3 None (Some 1) 1]
    {[1 := mkBalance (Int (-5)) 0 1]}.

(** ** Ledger deltas, as the specification names them *)

(** A signed contribution of one ledger entry to one subject. *)
Record Delta := mkDelta {
  d_subject : Z;
  d_ledgerId : Z;
  d_amount : Z
}.

(** The payer of a row owes quantity x locked price, the owner of the
    sub-transaction earns it; the ledger id is the transaction id. *)
Definition transaction_deltas (db : DB) : list Delta :=
  ((λ x, mkDelta (t_fromId x.1.1.1) (t_id x.1.1.1)
                 (- (str_amount x.1.2 * pr_priceInclVat x.2))) <$> payer_join db)
  ++ ((λ x, mkDelta (st_toId x.1.1) (st_transactionId x.1.1)
                    (str_amount x.1.2 * pr_priceInclVat x.2)) <$> recipient_join db).

(** The source of a transfer loses the amount, the destination gains it;
    an absent side yields nothing. *)
Definition transfer_deltas (db : DB) : list Delta :=
  (t ← transfer db;
   match tr_fromId t with
   | Some i => [mkDelta i (tr_id t) (- tr_amount t)]
   | None => []
   end)
  ++ (t ← transfer db;
      match tr_toId t with
      | Some i => [mkDelta i (tr_id t) (tr_amount t)]
      | None => []
      end).

(** Exact sum over the integers. *)
Definition sum_Z (l : list Z) : Z := foldr Z.add 0 l.

(** Sum of [f] over the rows that satisfy [P]. *)
Definition sum_where {A : Type} (P : A → Prop) `{∀ a, Decision (P a)}
    (f : A → Z) (l : list A) : Z :=
  sum_Z (f <$> filter P l).

(** Signed sum of the deltas of [s] up to the checkpoints [tmax], [fmax]. *)
Definition aggregate_upto (db : DB) (s tmax fmax : Z) : Z :=
  sum_where (λ d, d_subject d = s ∧ d_ledgerId d ≤ tmax) d_amount
            (transaction_deltas db)
  + sum_where (λ d, d_subject d = s ∧ d_ledgerId d ≤ fmax) d_amount
              (transfer_deltas db).

(** Signed sum of the deltas of [s] strictly after the checkpoints. *)
Definition pending_after (db : DB) (s tlast flast : Z) : Z :=
  sum_where (λ d, d_subject d = s ∧ d_ledgerId d > tlast) d_amount
            (transaction_deltas db)
  + sum_where (λ d, d_subject d = s ∧ d_ledgerId d > flast) d_amount
              (transfer_deltas db).

(** A sub-transaction row with the sub-transaction and transaction it
    belongs to and the product revision it references. *)
Definition transaction_row (db : DB) (t : Transaction) (st : SubTransaction)
    (str : SubTransactionRow) (pr : ProductRevision) : Prop :=
  t ∈ transaction db ∧ st ∈ sub_transaction db
  ∧ str ∈ sub_transaction_row db ∧ pr ∈ product_revision db
  ∧ t_id t = st_transactionId st
  ∧ st_id st = str_subTransactionId str
  ∧ str_productRevision str = pr_revision pr
  ∧ str_productProduct str = pr_productId pr.

(** Signed sum of every delta of [s]. *)
Definition ledger_total (db : DB) (s : Z) : Z :=
  sum_where (λ d, d_subject d = s) d_amount (transaction_deltas db)
  + sum_where (λ d, d_subject d = s) d_amount (transfer_deltas db).

(** The magnitude of a delta. *)
Definition d_magnitude (d : Delta) : Z := Z.abs (d_amount d).

(** The volume of subject [s]: the magnitudes of all its deltas together.
    While it stays within a range, so does every sum of deltas of [s],
    in whatever order and over whatever part of them it is taken. *)
Definition subject_volume (db : DB) (s : Z) : Z :=
  sum_where (λ d, d_subject d = s) d_magnitude (transaction_deltas db)
  + sum_where (λ d, d_subject d = s) d_magnitude (transfer_deltas db).

(** [s] has a delta in one of the ledgers. *)
Definition has_delta (db : DB) (s : Z) : Prop :=
  Exists (λ d, d_subject d = s) (transaction_deltas db ++ transfer_deltas db).

(** [s] takes part in a stored transaction row, as payer or as recipient,
    or in a transfer, as source or as destination. *)
Definition has_ledger_entry (db : DB) (s : Z) : Prop :=
  (∃ t st str pr, transaction_row db t st str pr
                  ∧ (t_fromId t = s ∨ st_toId st = s))
  ∨ (∃ t, t ∈ transfer db ∧ (tr_fromId t = Some s ∨ tr_toId t = Some s)).

(** [s] has a delta at or below the checkpoints. *)
Definition has_delta_upto (db : DB) (s tmax fmax : Z) : Prop :=
  Exists (λ d, d_subject d = s ∧ d_ledgerId d ≤ tmax) (transaction_deltas db)
  ∨ Exists (λ d, d_subject d = s ∧ d_ledgerId d ≤ fmax) (transfer_deltas db).

(** Foreign key of [sub_transaction.transactionId], the column joined to
    [transaction.id]: every sub-transaction belongs to a stored
    transaction. *)
Definition sub_transactions_attached (db : DB) : Prop :=
  Forall (λ st, Exists (λ t, t_id t = st_transactionId st) (transaction db))
         (sub_transaction db).

(** The amount carried by the answer of [getBalance]. *)
Definition amount_of (r : result (option BalanceResponse))
  : result (option Num) :=
  match r with
  | Ok o => Ok (br_amount <$> o)
  | Err e => Err e
  end.

(** A row of [moneys] carries the delta exactly, as long as the delta is
    within the 64-bit range. *)
Definition exact_value (v : Num) (d : Delta) : Prop :=
  d_magnitude d ≤ int64_max → v = Int (d_amount d).

Definition exact_row (r : Z * Num) (d : Delta) : Prop :=
  r.1 = d_subject d ∧ exact_value r.2 d.

Definition exact_money (m : Money) (d : Delta) : Prop :=
  m.1 = Some (d_subject d) ∧ exact_value m.2 d.


(** The deltas a refresh scans: at or below the maximum ids, of the
    requested subjects. *)
Definition scanned_deltas (ids : option (list Z)) (db : DB) : list Delta :=
  filter (λ d, d_ledgerId d ≤ transactionMax db ∧ in_ids ids (d_subject d))
         (transaction_deltas db)
  ++ filter (λ d, d_ledgerId d ≤ transferMax db ∧ in_ids ids (d_subject d))
            (transfer_deltas db).

(** The row a refresh that succeeds writes for a subject it scans: the sum
    of the rows of [moneys] grouped under the subject, with the maximum
    ids as checkpoints. *)
Definition written_row (db : DB) (s : Z) : option Balance :=
  match sum_values ((filter (λ r, r.1 = s) (update_moneys None db)).*2) with
  | Ok v => Some (mkBalance v (transactionMax db) (transferMax db))
  | Err _ => None
  end.

(** The deltas of [s] a read adds to the cached amount: those above the
    checkpoints. *)
Definition pending_deltas (db : DB) (s tlast flast : Z) : list Delta :=
  filter (λ d, d_subject d = s ∧ d_ledgerId d > tlast) (transaction_deltas db)
  ++ filter (λ d, d_subject d = s ∧ d_ledgerId d > flast) (transfer_deltas db).

(** The snapshot of [s] as a read takes it: the cached amount and the
    checkpoints of its row, 0 where it has none. *)
Definition cached_amount (db : DB) (s : Z) : Num :=
  COALESCE (amount <$> balance db !! s) (Int 0).

Definition lastProcessedTransaction (db : DB) (s : Z) : Z :=
  COALESCE (lastTransaction <$> balance db !! s) 0.

Definition lastProcessedTransfer (db : DB) (s : Z) : Z :=
  COALESCE (lastTransfer <$> balance db !! s) 0.

(** The pending deltas of [s], their exact sum and their volume. *)
Definition pending (db : DB) (s : Z) : list Delta :=
  pending_deltas db s (lastProcessedTransaction db s) (lastProcessedTransfer db s).

Definition pending_total (db : DB) (s : Z) : Z :=
  pending_after db s (lastProcessedTransaction db s) (lastProcessedTransfer db s).

Definition pending_volume (db : DB) (s : Z) : Z :=
  sum_Z (d_magnitude <$> pending db s).

(** ** Histories of the store *)

(** Ledger ids are handed out from 1. *)
Definition ledger_positive (db : DB) : Prop :=
  Forall (λ t, 0 < t_id t) (transaction db)
  ∧ Forall (λ st, 0 < st_transactionId st) (sub_transaction db)
  ∧ Forall (λ t, 0 < tr_id t) (transfer db).

(** The weakest reading of append-only: the snapshot table is untouched
    and no maximum id decreases. *)
Definition maxima_grow (db db' : DB) : Prop :=
  balance db' = balance db
  ∧ transactionMax db ≤ transactionMax db'
  ∧ transferMax db ≤ transferMax db'.

(** Appending to the ledgers: rows are only added; a new transaction or
    transfer takes an id above the current maximum, a new sub-transaction
    belongs to a new transaction, a new row to a new sub-transaction, and
    a new product revision is not yet referenced by a row. *)
Record ledger_append (db db' : DB) : Prop := mkLedgerAppend {
  la_balance : balance db' = balance db;
  la_transaction : ∃ new,
    transaction db' = transaction db ++ new
    ∧ Forall (λ t, transactionMax db < t_id t) new;
  la_sub_transaction : ∃ new,
    sub_transaction db' = sub_transaction db ++ new
    ∧ Forall (λ st, transactionMax db < st_transactionId st) new;
  la_sub_transaction_row : ∃ new,
    sub_transaction_row db' = sub_transaction_row db ++ new
    ∧ Forall (λ str, Forall (λ st, ¬ on_st_str' st str) (sub_transaction db)) new;
  la_product_revision : ∃ new,
    product_revision db' = product_revision db ++ new
    ∧ Forall (λ pr, Forall (λ str, ¬ on_str_pr (tt, str) pr)
                           (sub_transaction_row db)) new;
  la_transfer : ∃ new,
    transfer db' = transfer db ++ new
    ∧ Forall (λ t, transferMax db < tr_id t) new
}.

(** States the service can be in: it starts on an empty snapshot table
    and then refreshes, invalidates, or sees the ledgers change by
    [grow]. A call that fails leaves the state as it is. *)
Inductive history (init : DB → Prop) (grow : DB → DB → Prop) : DB → Prop :=
  | history_init db :
      init db → balance db = ∅ → history init grow db
  | history_refresh params db :
      history init grow db → history init grow (refreshed params db)
  | history_clear ids db :
      history init grow db → history init grow (cleared ids db)
  | history_grow db db' :
      history init grow db → grow db db' → history init grow db'.

(** [evolves grow db db']: the service gets from [db] to [db'] by
    refreshes, invalidations and changes of the ledgers by [grow]. *)
Inductive evolves (grow : DB → DB → Prop) : DB → DB → Prop :=
  | evolves_refl db : evolves grow db db
  | evolves_refresh params db db' :
      evolves grow db db' → evolves grow db (refreshed params db')
  | evolves_clear ids db db' :
      evolves grow db db' → evolves grow db (cleared ids db')
  | evolves_grow db db' db'' :
      evolves grow db db' → grow db' db'' → evolves grow db db''.

(** Histories over append-only ledgers with positive ids. *)
Definition reachable : DB → Prop := history ledger_positive ledger_append.

(** Histories in which the maximum ids never decrease. *)
Definition reachable_mono : DB → Prop := history (λ _, True) maxima_grow.

(** Snapshot rows agree with the ledger up to their checkpoints, for the
    subjects whose volume is within the 64-bit range. *)
Definition snapshots_exact (db : DB) : Prop :=
  ∀ s b, balance db !! s = Some b →
    subject_volume db s ≤ int64_max →
    amount b = Int (aggregate_upto db s (lastTransaction b) (lastTransfer b)).

(** Checkpoints lie between 0 and the current maxima. *)
Definition checkpoints_bounded (db : DB) : Prop :=
  ∀ s b, balance db !! s = Some b →
    0 ≤ lastTransaction b ≤ transactionMax db
    ∧ 0 ≤ lastTransfer b ≤ transferMax db.

(** The answer of the read path for user [u] while the amounts stay
    within range: cached amount [c] plus pending deltas, with the
    checkpoints of the row when there is one. *)
Definition balance_of_user (db : DB) (u c : Z) : BalanceResponse :=
  mkBalanceResponse u (Int (c + pending_total db u))
    (lastTransaction <$> balance db !! u) (lastTransfer <$> balance db !! u).

(** An amount the [balance] table can hold: a 64-bit integer or a
    REAL. *)
Definition stored_amount (a : Num) : Prop :=
  match a with
  | Int z => in_int64 z
  | Real => True
  end.

(** ** Closed ledgers *)

(** Every transfer has a source and a destination: no money enters or
    leaves the system. *)
Definition closed_ledger (db : DB) : Prop :=
  Forall (λ t, is_Some (tr_fromId t) ∧ is_Some (tr_toId t)) (transfer db).

(** Value of a row: quantity x price over the revisions it references. *)
Definition str_total (db : DB) (str : SubTransactionRow) : Z :=
  sum_where (on_str_pr (tt, str))
            (λ pr, str_amount str * pr_priceInclVat pr) (product_revision db).

(** Value of a sub-transaction: the value of its rows. *)
Definition st_total (db : DB) (st : SubTransaction) : Z :=
  sum_where (on_st_str' st) (str_total db) (sub_transaction_row db).

(** [transaction.id] is a primary key. *)
Definition transaction_ids_unique (db : DB) : Prop :=
  NoDup (t_id <$> transaction db).

(** A deposit of 2^63 - 1 to subject 1, which a full refresh cached, and
    then a deposit of 1. *)
Definition brim_db : DB :=
  mkDB {[1]} [] [] [] []
    [mkTransfer 1 None (Some 1) int64_max; mkTransfer 2 None (Some 1) 1]
    {[1 := mkBalance (Int int64_max) 0 1]}.

(** The ledger of [brim_db] before the refresh and the second deposit. *)
Definition brim_db_base : DB :=
  mkDB {[1]} [] [] [] [] [mkTransfer 1 None (Some 1) int64_max] ∅.

(** The ledger of [cancel_db] before the refresh and the two deposits. *)
Definition cancel_db_base : DB :=
  mkDB {[1]} [] [] [] [] [mkTransfer 1 (Some 1) None 5] ∅.

(** A closed ledger: 1 buys from 2, 2 buys from 1 and from itself, and two
    transfers between them. *)
Definition closed_db : DB :=
  mkDB {[1; 2; 3]}
    [mkTransaction 1 1; mkTransaction 2 2]
    [mkSubTransaction 1 1 2; mkSubTransaction 2 2 1; mkSubTransaction 3 2 2]
    [mkSubTransactionRow 1 3 1 7; mkSubTransactionRow 2 1 2 7;
     mkSubTransactionRow 2 2 1 7; mkSubTransactionRow 3 5 2 7]
    [mkProductRevision 7 1 150; mkProductRevision 7 2 175]
    [mkTransfer 1 (Some 1) (Some 2) 1000; mkTransfer 2 (Some 2) (Some 1) 300]
    ∅.

(** * Properties *)

(** ** Sums over selected rows *)

Lemma sum_Z_cons (x : Z) (l : list Z) : sum_Z (x :: l) = x + sum_Z l.
Proof. reflexivity. Qed.

Lemma sum_Z_app (l1 l2 : list Z) : sum_Z (l1 ++ l2) = sum_Z l1 + sum_Z l2.
Proof. induction l1 as [|x l1 IH]; simpl; [done | rewrite IH; lia]. Qed.

Section sum_where.
Context {A : Type}.
Implicit Types (P Q : A → Prop) (f g : A → Z) (l : list A).

Lemma sum_where_nil P `{∀ a, Decision (P a)} f : sum_where P f [] = 0.
Proof. done. Qed.

Lemma sum_where_cons P `{∀ a, Decision (P a)} f a l :
  sum_where P f (a :: l) = (if decide (P a) then f a else 0) + sum_where P f l.
Proof.
  unfold sum_where. rewrite filter_cons.
  destruct (decide (P a)); [rewrite fmap_cons|]; unfold sum_Z; simpl; lia.
Qed.

Lemma sum_where_app P `{∀ a, Decision (P a)} f l1 l2 :
  sum_where P f (l1 ++ l2) = sum_where P f l1 + sum_where P f l2.
Proof. unfold sum_where. by rewrite filter_app, fmap_app, sum_Z_app. Qed.

Lemma sum_where_ext P Q `{∀ a, Decision (P a)} `{∀ a, Decision (Q a)} f g l :
  (∀ a, a ∈ l → (P a ↔ Q a) ∧ (P a → f a = g a)) →
  sum_where P f l = sum_where Q g l.
Proof.
  induction l as [|a l IH]; intros Hl; [done|].
  rewrite !sum_where_cons, IH.
  - destruct (Hl a) as [Hiff Hfg]; [left|].
    destruct (decide (P a)), (decide (Q a)); try tauto.
    rewrite Hfg; done.
  - intros b Hb. apply Hl. by right.
Qed.

Lemma sum_where_filter P Q `{∀ a, Decision (P a)} `{∀ a, Decision (Q a)} f l :
  sum_where P f (filter Q l) = sum_where (λ a, Q a ∧ P a) f l.
Proof.
  induction l as [|a l IH]; [done|].
  rewrite filter_cons, (sum_where_cons (λ a, Q a ∧ P a)).
  destruct (decide (Q a)).
  - rewrite sum_where_cons, IH.
    destruct (decide (P a)), (decide (Q a ∧ P a)); tauto || lia.
  - rewrite IH. destruct (decide (Q a ∧ P a)); tauto || lia.
Qed.

Lemma sum_where_none P `{∀ a, Decision (P a)} f l :
  Forall (λ a, ¬ P a) l → sum_where P f l = 0.
Proof.
  induction 1 as [|a l Ha _ IH]; [done|].
  rewrite sum_where_cons, IH. by destruct (decide (P a)).
Qed.

(** Rows at or below a bound and rows above it partition the rows. *)
Lemma sum_where_split P `{∀ a, Decision (P a)} (k : A → Z) (c : Z) f l :
  sum_where (λ a, P a ∧ k a ≤ c) f l + sum_where (λ a, P a ∧ k a > c) f l
  = sum_where P f l.
Proof.
  induction l as [|a l IH]; [done|].
  rewrite !sum_where_cons, <- IH.
  destruct (decide (P a ∧ k a ≤ c)), (decide (P a ∧ k a > c)), (decide (P a));
    try lia; exfalso; destruct (Z_le_gt_dec (k a) c); tauto.
Qed.

(** A sum of magnitudes grows with the selection. *)
Lemma sum_where_mono P Q `{∀ a, Decision (P a)} `{∀ a, Decision (Q a)} f l :
  (∀ a, 0 ≤ f a) → (∀ a, a ∈ l → P a → Q a) →
  0 ≤ sum_where P f l ≤ sum_where Q f l.
Proof.
  intros Hf. induction l as [|a l IH]; intros HPQ; [done|].
  rewrite !sum_where_cons.
  assert (0 ≤ sum_where P f l ≤ sum_where Q f l) as Hl
    by (apply IH; intros b Hb; apply HPQ; by right).
  specialize (HPQ a (list_elem_of_here _ _)). specialize (Hf a).
  destruct (decide (P a)), (decide (Q a)); tauto || lia.
Qed.

(** The magnitude of a sum is at most the sum of the magnitudes. *)
Lemma sum_where_abs P `{∀ a, Decision (P a)} f l :
  Z.abs (sum_where P f l) ≤ sum_where P (λ a, Z.abs (f a)) l.
Proof.
  induction l as [|a l IH]; [done|].
  rewrite !sum_where_cons. destruct (decide (P a)); lia.
Qed.

End sum_where.

Lemma sum_where_fmap {A B : Type} (P : B → Prop) `{∀ b, Decision (P b)}
    (f : B → Z) (h : A → B) (l : list A) :
  sum_where P f (h <$> l) = sum_where (λ a, P (h a)) (λ a, f (h a)) l.
Proof.
  induction l as [|a l IH]; [done|].
  rewrite fmap_cons, !sum_where_cons, IH. done.
Qed.

Lemma sum_where_True {A : Type} (f : A → Z) (l : list A) :
  sum_where (λ _, True) f l = sum_Z (f <$> l).
Proof.
  induction l as [|a l IH]; [done|].
  rewrite sum_where_cons, fmap_cons, sum_Z_cons, IH. done.
Qed.

(** ** Lists built row by row *)

Lemma fmap_filter_as_bind {A B : Type} (P : A → Prop) `{∀ a, Decision (P a)}
    (f : A → B) (l : list A) :
  f <$> filter P l = l ≫= (λ a, if decide (P a) then [f a] else []).
Proof.
  induction l as [|a l IH]; [done|].
  rewrite filter_cons, bind_cons, <- IH. by destruct (decide (P a)).
Qed.

Lemma fmap_as_bind {A B : Type} (f : A → B) (l : list A) :
  f <$> l = l ≫= (λ a, [f a]).
Proof. induction l as [|a l IH]; [done|]. by rewrite fmap_cons, bind_cons, IH. Qed.

Lemma filter_bind {A B : Type} (P : B → Prop) `{∀ b, Decision (P b)}
    (k : A → list B) (l : list A) :
  filter P (l ≫= k) = l ≫= (λ a, filter P (k a)).
Proof.
  induction l as [|a l IH]; [done|]. by rewrite !bind_cons, filter_app, IH.
Qed.

Lemma fmap_bind {A B C : Type} (f : B → C) (k : A → list B) (l : list A) :
  f <$> (l ≫= k) = l ≫= (λ a, f <$> k a).
Proof.
  induction l as [|a l IH]; [done|]. by rewrite !bind_cons, fmap_app, IH.
Qed.

Lemma bind_fmap {A B C : Type} (h : A → B) (k : B → list C) (l : list A) :
  (h <$> l) ≫= k = l ≫= (λ a, k (h a)).
Proof.
  induction l as [|a l IH]; [done|]. by rewrite fmap_cons, !bind_cons, IH.
Qed.

Lemma bind_ext_in {A B : Type} (k k' : A → list B) (l : list A) :
  (∀ a, a ∈ l → k a = k' a) → l ≫= k = l ≫= k'.
Proof. intros Hk. by apply Forall_bind_ext, Forall_forall. Qed.

Lemma Forall2_bind_same {A B C : Type} (R : B → C → Prop)
    (k : A → list B) (k' : A → list C) (l : list A) :
  (∀ a, a ∈ l → Forall2 R (k a) (k' a)) → Forall2 R (l ≫= k) (l ≫= k').
Proof.
  induction l as [|a l IH]; intros Hk; [constructor|].
  rewrite !bind_cons. apply Forall2_app.
  - apply Hk. left.
  - apply IH. intros b Hb. apply Hk. by right.
Qed.

Lemma Forall2_filter_agree {A B : Type} (R : A → B → Prop)
    (P : A → Prop) (Q : B → Prop)
    `{∀ a, Decision (P a)} `{∀ b, Decision (Q b)} (l : list A) (k : list B) :
  Forall2 (λ a b, R a b ∧ (P a ↔ Q b)) l k →
  Forall2 R (filter P l) (filter Q k).
Proof.
  induction 1 as [|a b l k [HR Hiff] _ IH]; [constructor|].
  rewrite !filter_cons.
  destruct (decide (P a)), (decide (Q b)); try tauto. by constructor.
Qed.

Lemma Forall2_fmap_eq {A B C : Type} (R : A → B → Prop)
    (f : A → C) (g : B → C) (l : list A) (k : list B) :
  (∀ a b, R a b → f a = g b) → Forall2 R l k → f <$> l = g <$> k.
Proof.
  intros Hfg. induction 1 as [|a b l k HR _ IH]; [done|].
  rewrite !fmap_cons, IH. f_equal. by apply Hfg.
Qed.

Lemma filter_singleton_NoDup (s : Z) (l : list Z) :
  NoDup l → filter (λ u, u ∈ [s]) l = if decide (s ∈ l) then [s] else [].
Proof.
  induction 1 as [|u l Hu Hnd IH]; [done|].
  rewrite filter_cons, IH.
  destruct (decide (u ∈ [s])) as [Hus|Hus]; rewrite list_elem_of_singleton in Hus.
  - subst u. rewrite (decide_False (P:=s ∈ l)) by done.
    by rewrite decide_True by left.
  - destruct (decide (s ∈ l)).
    + rewrite decide_True; [done | by right].
    + rewrite decide_False; [done|]. rewrite not_elem_of_cons. split; congruence.
Qed.

(** ** Statements that fail *)

Lemma collect_Ok {A : Type} (l : list (result A)) (k : list A) :
  collect l = Ok k ↔ l = Ok <$> k.
Proof.
  revert k. induction l as [|r l IH]; intros k.
  - simpl. split.
    + intros [= <-]. done.
    + destruct k; [done | discriminate].
  - simpl. destruct r as [a|e].
    + destruct (collect l) as [k'|e] eqn:E.
      * split.
        -- intros [= <-]. rewrite fmap_cons. f_equal. by apply IH.
        -- destruct k as [|a' k]; [discriminate|].
           rewrite fmap_cons. intros [= -> Hl]. f_equal. f_equal.
           apply IH in Hl. congruence.
      * split; [discriminate|].
        destruct k as [|a' k]; [discriminate|].
        rewrite fmap_cons. intros [= -> Hl].
        apply IH in Hl. discriminate.
    + split; [discriminate|]. destruct k; discriminate.
Qed.

Lemma collect_fmap_Ok {A : Type} (k : list A) : collect (Ok <$> k) = Ok k.
Proof. by apply collect_Ok. Qed.

(** The statement fails exactly when one of its rows does. *)
Lemma collect_Err {A : Type} (l : list (result A)) :
  (∃ e, collect l = Err e) ↔ ∃ e, Err e ∈ l.
Proof.
  induction l as [|r l IH].
  - simpl. split; intros [e He]; [discriminate | by apply elem_of_nil in He].
  - simpl. destruct r as [a|e].
    + destruct (collect l) as [k'|e] eqn:E.
      * split; [intros [e He]; discriminate|].
        intros [e He]. apply elem_of_cons in He as [He|He]; [discriminate|].
        destruct (proj2 IH) as [e' He']; [by exists e | discriminate].
      * split; [|by exists e].
        intros _. destruct (proj1 IH) as [e' He']; [by exists e|].
        exists e'. by right.
    + split; intros _; exists e; [left | done].
Qed.

Lemma collect_Err_elem {A : Type} (l : list (result A)) e :
  collect l = Err e → Err e ∈ l.
Proof.
  induction l as [|r l IH]; [discriminate|]. simpl.
  destruct r as [a|e'].
  - destruct (collect l) as [k'|e''] eqn:E; [discriminate|].
    intros [= ->]. right. by apply IH.
  - intros [= ->]. left.
Qed.

(** ** The aggregate sum *)

Lemma sum_step_overflow l : foldl sum_step SumOverflow l = SumOverflow.
Proof. induction l as [|v l IH]; [done|]. simpl. done. Qed.

Lemma sum_step_real l : foldl sum_step SumReal l = SumReal.
Proof. induction l as [|v l IH]; [done|]. simpl. done. Qed.

(** The only failure of a sum is the integer overflow. *)
Lemma sum_values_Err l e : sum_values l = Err e → e = QueryFailedError.
Proof.
  unfold sum_values. destruct (foldl sum_step (SumInt 0) l); congruence.
Qed.

Lemma int64_max_pos : 0 < int64_max.
Proof. done. Qed.

Lemma in_int64_abs z : Z.abs z ≤ int64_max → in_int64 z.
Proof. unfold in_int64, int64_min, int64_max. lia. Qed.

(** While the magnitudes met so far stay within the 64-bit range, the
    total is the exact integer sum. *)
Lemma foldl_sum_step_exact (vs : list Num) (ds : list Delta) (a : Z) :
  Forall2 exact_value vs ds →
  Z.abs a + sum_Z (d_magnitude <$> ds) ≤ int64_max →
  foldl sum_step (SumInt a) vs = SumInt (a + sum_Z (d_amount <$> ds)).
Proof.
  intros Hvs. revert a.
  induction Hvs as [|v d vs ds Hv _ IH]; intros a Ha.
  - simpl. f_equal. lia.
  - rewrite fmap_cons, sum_Z_cons in Ha. rewrite fmap_cons, sum_Z_cons.
    assert (0 ≤ sum_Z (d_magnitude <$> ds)) as Hnn.
    { clear. induction ds as [|d ds IH]; [done|].
      rewrite fmap_cons, sum_Z_cons. unfold d_magnitude at 1. lia. }
    unfold exact_value in Hv. rewrite Hv by lia.
    unfold d_magnitude in Ha at 1.
    simpl. rewrite decide_True by (apply in_int64_abs; lia).
    rewrite IH by lia. f_equal. lia.
Qed.

Lemma sum_values_exact (vs : list Num) (ds : list Delta) :
  Forall2 exact_value vs ds →
  sum_Z (d_magnitude <$> ds) ≤ int64_max →
  sum_values vs = Ok (Int (sum_Z (d_amount <$> ds))).
Proof.
  intros Hvs Hvol. unfold sum_values.
  rewrite (foldl_sum_step_exact vs ds 0) by (done || (simpl; lia)). done.
Qed.

Lemma sum_Z_Permutation (l k : list Z) : l ≡ₚ k → sum_Z l = sum_Z k.
Proof.
  induction 1 as [|x l k _ IH|x y l|l k m _ IH1 _ IH2];
    rewrite ?sum_Z_cons; lia.
Qed.

Lemma foldl_sum_step_integers (zs : list Z) (a : Z) :
  Z.abs a + sum_Z (Z.abs <$> zs) ≤ int64_max →
  foldl sum_step (SumInt a) (Int <$> zs) = SumInt (a + sum_Z zs).
Proof.
  revert a. induction zs as [|z zs IH]; intros a Ha.
  - simpl. f_equal. change (sum_Z []) with 0. lia.
  - rewrite fmap_cons, sum_Z_cons in Ha. rewrite fmap_cons, sum_Z_cons.
    assert (0 ≤ sum_Z (Z.abs <$> zs)) as Hnn.
    { clear. induction zs as [|z zs IH]; [done|].
      rewrite fmap_cons, sum_Z_cons. lia. }
    simpl. rewrite decide_True by (apply in_int64_abs; lia).
    rewrite IH by lia. f_equal. lia.
Qed.

(** The statement does not fix the order in which the rows of a group
    are met. While the magnitudes of the integers of a group add up to at
    most 2^63 - 1 the order is immaterial: every order gives the exact
    sum. *)
Lemma sum_values_order_irrelevant (zs zs' : list Z) :
  zs ≡ₚ zs' →
  sum_Z (Z.abs <$> zs) ≤ int64_max →
  sum_values (Int <$> zs') = Ok (Int (sum_Z zs))
  ∧ sum_values (Int <$> zs) = Ok (Int (sum_Z zs)).
Proof.
  intros Hp Hvol. unfold sum_values.
  rewrite !foldl_sum_step_integers.
  - by rewrite (sum_Z_Permutation _ _ Hp).
  - simpl. lia.
  - simpl. rewrite <- (sum_Z_Permutation (Z.abs <$> zs)); [lia|].
    by apply fmap_Permutation.
Qed.

(** A sum fails only after an integer addition left the 64-bit range:
    a run of integers at the head of the rows adds up, in the order the
    rows are met, to totals within the range, which the next integer
    leaves. *)
Lemma foldl_sum_step_overflow (l : list Num) (a : Z) :
  in_int64 a →
  foldl sum_step (SumInt a) l = SumOverflow ↔
  ∃ zs x rest, l = (Int <$> zs) ++ Int x :: rest
    ∧ (∀ k, (k ≤ length zs)%nat → in_int64 (a + sum_Z (take k zs)))
    ∧ ¬ in_int64 (a + sum_Z zs + x).
Proof.
  revert a. induction l as [|v l IH]; intros a Ha.
  - simpl. split; [discriminate|].
    intros (zs & x & rest & Hl & _). destruct zs; discriminate.
  - simpl. destruct v as [z|].
    + destruct (decide (in_int64 (a + z))) as [Hin|Hout].
      * rewrite (IH _ Hin). split.
        -- intros (zs & x & rest & -> & Hpre & Hov).
           exists (z :: zs), x, rest. split; [done|]. split.
           ++ intros [|k] Hk.
              ** rewrite take_0. change (sum_Z []) with 0.
                 by replace (a + 0) with a by lia.
              ** rewrite firstn_cons, sum_Z_cons.
                 replace (a + (z + sum_Z (take k zs)))
                   with (a + z + sum_Z (take k zs)) by lia.
                 apply Hpre. simpl in Hk. lia.
           ++ rewrite sum_Z_cons.
              replace (a + (z + sum_Z zs) + x) with (a + z + sum_Z zs + x) by lia.
              done.
        -- intros (zs & x & rest & Hl & Hpre & Hov).
           destruct zs as [|z' zs].
           ++ simpl in Hl. injection Hl as <- ->.
              change (sum_Z []) with 0 in Hov.
              exfalso. apply Hov. by replace (a + 0 + z) with (a + z) by lia.
           ++ rewrite fmap_cons in Hl. simpl in Hl. injection Hl as <- ->.
              exists zs, x, rest. split; [done|]. split.
              ** intros k Hk. specialize (Hpre (S k)).
                 rewrite firstn_cons, sum_Z_cons in Hpre.
                 replace (a + z + sum_Z (take k zs))
                   with (a + (z + sum_Z (take k zs))) by lia.
                 apply Hpre. simpl. lia.
              ** rewrite sum_Z_cons in Hov.
                 by replace (a + z + sum_Z zs + x)
                   with (a + (z + sum_Z zs) + x) by lia.
      * rewrite sum_step_overflow. split; [intros _|done].
        exists [], z, l. split; [done|]. split.
        -- intros k Hk. rewrite take_nil. change (sum_Z []) with 0.
           by replace (a + 0) with a by lia.
        -- change (sum_Z []) with 0. by replace (a + 0 + z) with (a + z) by lia.
    + rewrite sum_step_real. split; [discriminate|].
      intros (zs & x & rest & Hl & _). destruct zs; discriminate.
Qed.

Lemma sum_values_overflow (l : list Num) :
  sum_values l = Err QueryFailedError ↔
  ∃ zs x rest, l = (Int <$> zs) ++ Int x :: rest
    ∧ (∀ k, (k ≤ length zs)%nat → in_int64 (sum_Z (take k zs)))
    ∧ ¬ in_int64 (sum_Z zs + x).
Proof.
  rewrite <- (foldl_sum_step_overflow l 0) by done.
  unfold sum_values. destruct (foldl sum_step (SumInt 0) l); split; done.
Qed.

(** ** Joins *)

Section joins.
Context {A B : Type} (on : A → B → Prop) `{∀ a b, Decision (on a b)}.

Lemma elem_of_inner_join (l : list A) (r : list B) a b :
  (a, b) ∈ inner_join on l r ↔ a ∈ l ∧ b ∈ r ∧ on a b.
Proof.
  unfold inner_join. rewrite list_elem_of_bind. split.
  - intros (a' & Hab & Ha').
    apply list_elem_of_bind in Hab as (b' & Hb & Hb').
    apply list_elem_of_singleton in Hb. simplify_eq.
    apply list_elem_of_filter in Hb' as [Hon Hb']. done.
  - intros (Ha & Hb & Hon). exists a. split; [|done].
    apply list_elem_of_bind. exists b. split; [by left|].
    by apply list_elem_of_filter.
Qed.

Lemma inner_join_app_l (l1 l2 : list A) (r : list B) :
  inner_join on (l1 ++ l2) r = inner_join on l1 r ++ inner_join on l2 r.
Proof. unfold inner_join. apply bind_app. Qed.

(** Rows added on the right that meet no row on the left change
    nothing. *)
Lemma inner_join_app_r_none (l : list A) (r rn : list B) :
  (∀ a b, a ∈ l → b ∈ rn → ¬ on a b) →
  inner_join on l (r ++ rn) = inner_join on l r.
Proof.
  intros Hnone. unfold inner_join.
  apply Forall_bind_ext, Forall_forall. intros a Ha. simpl.
  rewrite filter_app.
  replace (filter (on a) rn) with (@nil B); [by rewrite app_nil_r|].
  symmetry. induction rn as [|b rn IH]; [done|].
  rewrite filter_cons_False.
  - apply IH. intros a' b' Ha' Hb'. apply Hnone; [done | by right].
  - apply Hnone; [done | left].
Qed.
End joins.

(** Carrying an extra column through the left operand of a join. *)
Lemma inner_join_fmap_l {A A' B : Type} (on : A → B → Prop)
    (on' : A' → B → Prop) `{∀ a b, Decision (on a b)}
    `{∀ a b, Decision (on' a b)} (h : A → A') (l : list A) (r : list B) :
  (∀ a b, on' (h a) b ↔ on a b) →
  inner_join on' (h <$> l) r = (λ x, (h x.1, x.2)) <$> inner_join on l r.
Proof.
  intros Hiff. unfold inner_join.
  induction l as [|a l IH]; [done|].
  rewrite fmap_cons, !bind_cons, fmap_app, IH. f_equal.
  rewrite (list_filter_iff (on' (h a)) (on a)) by (intros; apply Hiff).
  generalize (filter (on a) r). intros k.
  induction k as [|b k IHk]; [done|].
  rewrite !bind_cons, fmap_app, IHk. done.
Qed.

(** ** Products and negations within the 64-bit range *)

Lemma sql_mul_exact (q p : Z) :
  Z.abs (q * p) ≤ int64_max → sql_mul (Int q) (Int p) = Int (q * p).
Proof.
  intros Hm. unfold sql_mul. by rewrite decide_True by by apply in_int64_abs.
Qed.

Lemma sql_neg_exact (a : Z) :
  Z.abs (- a) ≤ int64_max → sql_mul (Int a) (Int (-1)) = Int (- a).
Proof.
  intros Hm. unfold sql_mul.
  rewrite decide_True by (apply in_int64_abs; lia). f_equal. lia.
Qed.

Lemma sql_mul_neg_exact (q p : Z) :
  Z.abs (- (q * p)) ≤ int64_max →
  sql_mul (sql_mul (Int q) (Int p)) (Int (-1)) = Int (- (q * p)).
Proof.
  intros Hm. rewrite sql_mul_exact by lia. by apply sql_neg_exact.
Qed.

(** ** The rows a refresh scans *)

(** Where both sides emit a row or none for the same ledger entry. *)
Local Ltac row_by_row :=
  repeat (rewrite ?filter_cons, ?filter_nil; case_decide);
  simpl in *; try tauto; try (constructor 1);
  try (constructor 2; [|constructor 1]).

Local Ltac exact_values :=
  unfold exact_row, exact_money, exact_value, d_magnitude; simpl;
  split; [done|]; intros;
  first [ by apply sql_mul_neg_exact | by apply sql_mul_exact
        | by apply sql_neg_exact | done ].

(** [moneys] holds, row by row, the deltas at or below the checkpoints
    of the requested subjects. *)
Lemma update_moneys_exact ids db :
  Forall2 exact_row (update_moneys ids db) (scanned_deltas ids db).
Proof.
  unfold update_moneys, scanned_deltas, transaction_deltas, transfer_deltas.
  rewrite !filter_app, <- !app_assoc.
  repeat apply Forall2_app.
  - rewrite fmap_filter_as_bind, (fmap_as_bind _ (payer_join db)), filter_bind.
    apply Forall2_bind_same. intros x _. row_by_row. exact_values.
  - rewrite fmap_filter_as_bind, (fmap_as_bind _ (recipient_join db)), filter_bind.
    apply Forall2_bind_same. intros x _. row_by_row. exact_values.
  - rewrite filter_bind. apply Forall2_bind_same. intros t _.
    destruct (tr_fromId t) as [i|]; [|constructor]. row_by_row. exact_values.
  - rewrite filter_bind. apply Forall2_bind_same. intros t _.
    destruct (tr_toId t) as [i|]; [|constructor]. row_by_row. exact_values.
Qed.

Lemma update_moneys_keys ids db :
  (update_moneys ids db).*1 = d_subject <$> scanned_deltas ids db.
Proof.
  apply (Forall2_fmap_eq exact_row); [|apply update_moneys_exact].
  by intros r d [Hk _].
Qed.

Lemma update_moneys_written ids db s :
  s ∈ (update_moneys ids db).*1
  ↔ in_ids ids s ∧ has_delta_upto db s (transactionMax db) (transferMax db).
Proof.
  rewrite update_moneys_keys. unfold scanned_deltas, has_delta_upto.
  generalize (transaction_deltas db) (transfer_deltas db). intros tds fds.
  rewrite !Exists_exists, list_elem_of_fmap.
  setoid_rewrite elem_of_app. setoid_rewrite list_elem_of_filter.
  simpl. split.
  - intros (d & -> & [[[Hle Hin] Hd]|[[Hle Hin] Hd]]); split; eauto.
  - intros (Hin & [(d & Hd & <- & Hle)|(d & Hd & <- & Hle)]);
      exists d; (split; [done|]); eauto.
Qed.

(** The rows grouped under [s], against the scanned deltas of [s]. *)
Lemma update_group_exact ids db s :
  Forall2 exact_value
    ((filter (λ r, r.1 = s) (update_moneys ids db)).*2)
    (filter (λ d, d_subject d = s) (scanned_deltas ids db)).
Proof.
  apply Forall2_fmap_l.
  apply (Forall2_filter_agree (λ r d, exact_value r.2 d)).
  eapply Forall2_impl; [apply update_moneys_exact|].
  intros r d [Hk Hv]. split; [done|]. by rewrite Hk.
Qed.

Lemma scanned_volume ids db s :
  sum_Z (d_magnitude <$> filter (λ d, d_subject d = s) (scanned_deltas ids db))
  ≤ subject_volume db s.
Proof.
  unfold scanned_deltas, subject_volume.
  rewrite filter_app, fmap_app, sum_Z_app.
  change (sum_where (λ d, d_subject d = s) d_magnitude
            (filter (λ d, d_ledgerId d ≤ transactionMax db
                          ∧ in_ids ids (d_subject d)) (transaction_deltas db))
          + sum_where (λ d, d_subject d = s) d_magnitude
              (filter (λ d, d_ledgerId d ≤ transferMax db
                            ∧ in_ids ids (d_subject d)) (transfer_deltas db))
          ≤ sum_where (λ d, d_subject d = s) d_magnitude (transaction_deltas db)
            + sum_where (λ d, d_subject d = s) d_magnitude (transfer_deltas db)).
  rewrite !sum_where_filter.
  pose proof (λ P Q HP HQ l, sum_where_mono (A:=Delta) P Q (H:=HP) (H0:=HQ)
                d_magnitude l (λ d, Z.abs_nonneg _)) as Hmono.
  apply Z.add_le_mono; apply Hmono; tauto.
Qed.

Lemma scanned_sum ids db s :
  in_ids ids s →
  sum_Z (d_amount <$> filter (λ d, d_subject d = s) (scanned_deltas ids db))
  = aggregate_upto db s (transactionMax db) (transferMax db).
Proof.
  intros Hin. unfold scanned_deltas, aggregate_upto.
  rewrite filter_app, fmap_app, sum_Z_app.
  change (sum_where (λ d, d_subject d = s) d_amount
            (filter (λ d, d_ledgerId d ≤ transactionMax db
                          ∧ in_ids ids (d_subject d)) (transaction_deltas db))
          + sum_where (λ d, d_subject d = s) d_amount
              (filter (λ d, d_ledgerId d ≤ transferMax db
                            ∧ in_ids ids (d_subject d)) (transfer_deltas db))
          = sum_where (λ d, d_subject d = s ∧ d_ledgerId d ≤ transactionMax db)
              d_amount (transaction_deltas db)
            + sum_where (λ d, d_subject d = s ∧ d_ledgerId d ≤ transferMax db)
                d_amount (transfer_deltas db)).
  rewrite !sum_where_filter.
  f_equal; apply sum_where_ext; intros d _; (split; [|done]);
    split; intros H; destruct_and?; subst; eauto.
Qed.

(** Within the 64-bit range the sum of the group of [s] is the exact
    aggregate of its deltas. *)
Lemma update_group_sum ids db s :
  in_ids ids s →
  subject_volume db s ≤ int64_max →
  sum_values ((filter (λ r, r.1 = s) (update_moneys ids db)).*2)
  = Ok (Int (aggregate_upto db s (transactionMax db) (transferMax db))).
Proof.
  intros Hin Hvol. rewrite <- (scanned_sum ids) by done.
  apply sum_values_exact; [apply update_group_exact|].
  etrans; [apply scanned_volume | done].
Qed.

(** ** REPLACE INTO over grouped rows *)

Lemma elem_of_group_keys rows s : s ∈ group_keys rows ↔ s ∈ rows.*1.
Proof.
  unfold group_keys. by rewrite merge_sort_Permutation, elem_of_remove_dups.
Qed.

Lemma NoDup_group_keys rows : NoDup (group_keys rows).
Proof.
  unfold group_keys. rewrite merge_sort_Permutation. apply NoDup_remove_dups.
Qed.

Lemma group_by_sum_Ok rows g :
  group_by_sum rows = Ok g ↔
  Forall2 (λ i r, r.1 = i
                  ∧ sum_values ((filter (λ r, r.1 = i) rows).*2) = Ok r.2)
          (group_keys rows) g.
Proof.
  unfold group_by_sum. rewrite collect_Ok, list_eq_Forall2, Forall2_fmap.
  split; intros Hg; (eapply Forall2_impl; [exact Hg|]); intros i [j v]; simpl;
    destruct (sum_values _) as [w|e].
  - intros [= <- <-]. done.
  - discriminate.
  - intros [<- [= <-]]. done.
  - intros [_ ?]. discriminate.
Qed.

Lemma group_by_sum_keys rows g :
  group_by_sum rows = Ok g → g.*1 = group_keys rows.
Proof.
  rewrite group_by_sum_Ok. intros Hg.
  rewrite <- (list_fmap_id (group_keys _)). symmetry.
  eapply Forall2_fmap_eq; [|exact Hg]. by intros i r [-> _].
Qed.

Lemma elem_of_group_by_sum rows g s v :
  group_by_sum rows = Ok g →
  (s, v) ∈ g ↔
  s ∈ rows.*1 ∧ sum_values ((filter (λ r, r.1 = s) rows).*2) = Ok v.
Proof.
  rewrite group_by_sum_Ok. intros Hg. split.
  - intros Hin. apply list_elem_of_lookup in Hin as [n Hn].
    destruct (Forall2_lookup_r _ _ _ _ _ Hg Hn) as (i & Hi & Hk & Hv).
    simpl in *. subst i. split; [|done].
    apply elem_of_group_keys. by eapply list_elem_of_lookup_2.
  - intros [Hs Hv]. apply elem_of_group_keys in Hs.
    apply list_elem_of_lookup in Hs as [n Hn].
    destruct (Forall2_lookup_l _ _ _ _ _ Hg Hn) as ([j w] & Hj & Hk & Hw).
    simpl in *. subst j. rewrite Hv in Hw. injection Hw as <-.
    by eapply list_elem_of_lookup_2.
Qed.

(** The statement fails exactly when the sum of some group overflows. *)
Lemma group_by_sum_Err rows :
  (∃ e, group_by_sum rows = Err e) ↔
  ∃ s, s ∈ rows.*1
       ∧ sum_values ((filter (λ r, r.1 = s) rows).*2) = Err QueryFailedError.
Proof.
  unfold group_by_sum. rewrite collect_Err. split.
  - intros [e He]. apply list_elem_of_fmap in He as (i & Hi & Hin).
    rewrite elem_of_group_keys in Hin. exists i. split; [done|].
    destruct (sum_values _) as [w|e'] eqn:E; [discriminate|].
    by rewrite (sum_values_Err _ _ E).
  - intros (s & Hs & Hv). exists QueryFailedError.
    apply list_elem_of_fmap. exists s. rewrite Hv. split; [done|].
    by apply elem_of_group_keys.
Qed.

Lemma group_by_sum_Err_kind rows e :
  group_by_sum rows = Err e → e = QueryFailedError.
Proof.
  unfold group_by_sum. intros He. apply collect_Err_elem in He.
  apply list_elem_of_fmap in He as (i & Hi & _).
  destruct (sum_values _) as [w|e'] eqn:E; [discriminate|].
  injection Hi as ->. by apply sum_values_Err in E.
Qed.

Lemma group_by_sum_total rows :
  (∀ s, s ∈ rows.*1 →
        ∃ v, sum_values ((filter (λ r, r.1 = s) rows).*2) = Ok v) →
  ∃ g, group_by_sum rows = Ok g.
Proof.
  intros Hall. destruct (group_by_sum rows) as [g|e] eqn:E; [by exists g|].
  destruct (proj1 (group_by_sum_Err rows)) as (s & Hs & Hv); [by exists e|].
  destruct (Hall s Hs) as [v Hv']. congruence.
Qed.

Lemma replace_into_notin tmax fmax b rows s :
  s ∉ rows.*1 → replace_into tmax fmax b rows !! s = b !! s.
Proof.
  unfold replace_into. revert b.
  induction rows as [|r rows IH]; intros b Hs; [done|].
  rewrite fmap_cons, not_elem_of_cons in Hs. destruct Hs as [Hne Hs].
  simpl. rewrite IH by done. by rewrite lookup_insert_ne.
Qed.

Lemma replace_into_in tmax fmax b rows s v :
  NoDup (rows.*1) → (s, v) ∈ rows →
  replace_into tmax fmax b rows !! s = Some (mkBalance v tmax fmax).
Proof.
  revert b. induction rows as [|r rows IH]; intros b Hnd Hin.
  - by apply elem_of_nil in Hin.
  - rewrite fmap_cons in Hnd. apply NoDup_cons in Hnd as [Hr Hnd].
    apply elem_of_cons in Hin as [<-|Hin].
    + change (replace_into tmax fmax (<[s:=mkBalance v tmax fmax]> b) rows !! s
              = Some (mkBalance v tmax fmax)).
      rewrite replace_into_notin by done. apply lookup_insert_eq.
    + by apply (IH (<[r.1:=mkBalance r.2 tmax fmax]> b)).
Qed.

(** ** The state after a refresh *)

Lemma with_balance_same db : with_balance db (balance db) = db.
Proof. by destruct db. Qed.

Lemma updateBalances_Ok params db db' :
  updateBalances params db = Ok db' ↔
  ∃ g, group_by_sum (update_moneys params db) = Ok g
       ∧ db' = with_balance db
                 (replace_into (transactionMax db) (transferMax db) (balance db) g).
Proof.
  unfold updateBalances.
  destruct (group_by_sum _) as [g|e]; split.
  - intros [= <-]. by exists g.
  - intros (g' & [= <-] & ->). done.
  - discriminate.
  - intros (g' & ? & _). discriminate.
Qed.

(** A refresh fails only with the overflow of a sum, and exactly when the
    sum of one of the subjects it scans overflows. *)
Lemma updateBalances_Err params db :
  (∃ e, updateBalances params db = Err e) ↔
  ∃ s, s ∈ (update_moneys params db).*1
       ∧ sum_values ((filter (λ r, r.1 = s) (update_moneys params db)).*2)
         = Err QueryFailedError.
Proof.
  rewrite <- group_by_sum_Err. unfold updateBalances.
  destruct (group_by_sum _) as [g|e]; split; intros [e' He']; try discriminate.
  - by exists e.
  - by exists e.
Qed.

Lemma updateBalances_Err_kind params db e :
  updateBalances params db = Err e → e = QueryFailedError.
Proof.
  unfold updateBalances.
  destruct (group_by_sum _) as [g|e'] eqn:E; [discriminate|].
  intros [= <-]. by apply group_by_sum_Err_kind in E.
Qed.

(** Only the snapshot table changes. *)
Lemma refreshed_with_balance params db :
  refreshed params db = with_balance db (balance (refreshed params db)).
Proof.
  unfold refreshed, updateBalances.
  destruct (group_by_sum _); [done|]. by rewrite with_balance_same.
Qed.

Lemma refreshed_Ok params db db' :
  updateBalances params db = Ok db' → refreshed params db = db'.
Proof. unfold refreshed. by intros ->. Qed.

Lemma refreshed_Err params db e :
  updateBalances params db = Err e → refreshed params db = db.
Proof. unfold refreshed. by intros ->. Qed.

(** The row of a subject a successful refresh scans: the sum of its
    group, with the maximum ids as checkpoints. *)
Lemma updateBalances_Ok_in params db db' s :
  updateBalances params db = Ok db' →
  s ∈ (update_moneys params db).*1 →
  ∃ v, sum_values ((filter (λ r, r.1 = s) (update_moneys params db)).*2) = Ok v
       ∧ balance db' !! s
         = Some (mkBalance v (transactionMax db) (transferMax db)).
Proof.
  rewrite updateBalances_Ok. intros (g & Hg & ->) Hs. simpl.
  destruct (sum_values ((filter (λ r, r.1 = s) (update_moneys params db)).*2))
    as [v|e] eqn:Hv.
  - exists v. split; [done|]. apply replace_into_in.
    + rewrite (group_by_sum_keys _ _ Hg). apply NoDup_group_keys.
    + by apply (elem_of_group_by_sum _ _ _ _ Hg).
  - exfalso. apply sum_values_Err in Hv as Hk. subst e.
    destruct (proj2 (group_by_sum_Err (update_moneys params db))) as [e He];
      [by exists s | congruence].
Qed.

(** Every other row is left as it was, whether the refresh fails or
    not. *)
Lemma refreshed_notin params db s :
  s ∉ (update_moneys params db).*1 →
  balance (refreshed params db) !! s = balance db !! s.
Proof.
  intros Hs. unfold refreshed.
  destruct (updateBalances params db) as [db'|e] eqn:E; [|done].
  apply updateBalances_Ok in E as (g & Hg & ->). simpl.
  apply replace_into_notin.
  by rewrite (group_by_sum_keys _ _ Hg), elem_of_group_keys.
Qed.

(** Within the 64-bit range the row written is the exact aggregate. *)
Lemma updateBalances_Ok_exact params db db' s :
  updateBalances params db = Ok db' →
  in_ids params s →
  has_delta_upto db s (transactionMax db) (transferMax db) →
  subject_volume db s ≤ int64_max →
  balance db' !! s
  = Some (mkBalance
            (Int (aggregate_upto db s (transactionMax db) (transferMax db)))
            (transactionMax db) (transferMax db)).
Proof.
  intros Hok Hin Hd Hvol.
  destruct (updateBalances_Ok_in params db db' s Hok) as (v & Hv & ->);
    [by apply update_moneys_written|].
  rewrite update_group_sum in Hv by done. by injection Hv as <-.
Qed.

(** A refresh succeeds when the volume of every subject it scans is
    within the 64-bit range. *)
Lemma updateBalances_succeeds params db :
  (∀ s, in_ids params s → subject_volume db s ≤ int64_max) →
  ∃ db', updateBalances params db = Ok db'.
Proof.
  intros Hvol.
  destruct (group_by_sum_total (update_moneys params db)) as [g Hg].
  - intros s Hs. apply update_moneys_written in Hs as [Hin _].
    eexists. by apply update_group_sum; [|apply Hvol].
  - eexists. apply updateBalances_Ok. by exists g.
Qed.

(** ** The read path sums the pending deltas *)

Lemma read_payer_join_eq db :
  read_payer_join db =
  (λ x, (x.1.1.1, balance db !! t_fromId x.1.1.1, x.1.1.2, x.1.2, x.2))
    <$> payer_join db.
Proof.
  unfold read_payer_join, payer_join, left_join_balance.
  rewrite (inner_join_fmap_l on_t_st (λ x st, on_t_st x.1 st)) by done.
  rewrite (inner_join_fmap_l on_st_str on_st_str) by done.
  rewrite (inner_join_fmap_l on_str_pr on_str_pr) by done.
  apply list_fmap_ext. by intros i [[[t st] str] pr] _.
Qed.

Lemma read_recipient_join_eq db :
  read_recipient_join db =
  (λ x, (x.1.1, balance db !! st_toId x.1.1, x.1.2, x.2)) <$> recipient_join db.
Proof.
  unfold read_recipient_join, recipient_join, left_join_balance.
  rewrite (inner_join_fmap_l on_st_str' (λ x str, on_st_str' x.1 str)) by done.
  rewrite (inner_join_fmap_l on_str_pr on_str_pr) by done.
  apply list_fmap_ext. by intros i [[st str] pr] _.
Qed.

Lemma in_ids_opt_Some ids s : in_ids_opt ids (Some s) ↔ in_ids ids s.
Proof. by destruct ids. Qed.

(** The rows of [moneys] joined to user [u], one ledger entry at a
    time. *)
Lemma read_moneys_rows ids db u :
  filter (λ m : Money, m.1 = Some u) (read_moneys ids db) =
  (payer_join db ≫= λ x,
     if decide ((t_id x.1.1.1 > COALESCE (opt_lastTransaction
                                            (balance db !! t_fromId x.1.1.1)) 0
                 ∧ in_ids_opt ids (Some (t_fromId x.1.1.1)))
                ∧ t_fromId x.1.1.1 = u)
     then [(Some (t_fromId x.1.1.1),
            sql_mul (sql_mul (Int (str_amount x.1.2)) (Int (pr_priceInclVat x.2)))
                    (Int (-1)))]
     else [])
  ++ (recipient_join db ≫= λ x,
     if decide ((st_transactionId x.1.1 > COALESCE (opt_lastTransaction
                                            (balance db !! st_toId x.1.1)) 0
                 ∧ in_ids_opt ids (Some (st_toId x.1.1)))
                ∧ st_toId x.1.1 = u)
     then [(Some (st_toId x.1.1),
            sql_mul (Int (str_amount x.1.2)) (Int (pr_priceInclVat x.2)))]
     else [])
  ++ (transfer db ≫= λ t,
     if decide ((tr_id t > COALESCE (opt_lastTransfer
                                       (tr_fromId t ≫= (balance db !!.))) 0
                 ∧ in_ids_opt ids (tr_fromId t))
                ∧ tr_fromId t = Some u)
     then [(tr_fromId t, sql_mul (Int (tr_amount t)) (Int (-1)))]
     else [])
  ++ (transfer db ≫= λ t,
     if decide ((tr_id t > COALESCE (opt_lastTransfer
                                       (tr_toId t ≫= (balance db !!.))) 0
                 ∧ in_ids_opt ids (tr_toId t))
                ∧ tr_toId t = Some u)
     then [(tr_toId t, Int (tr_amount t))]
     else []).
Proof.
  unfold read_moneys, left_join_balance.
  rewrite read_payer_join_eq, read_recipient_join_eq.
  rewrite !filter_app, !fmap_filter_as_bind, !filter_bind, !bind_fmap.
  f_equal; [|f_equal; [|f_equal]]; apply bind_ext_in; intros x _; simpl;
    repeat (rewrite ?filter_cons, ?filter_nil; case_decide);
    simpl in *; try done; exfalso; destruct_and?; simplify_eq;
    first [tauto | congruence].
Qed.

(** The ids of the request do not matter for the rows of a requested
    user. *)
Lemma read_moneys_user ids db u :
  in_ids ids u →
  filter (λ m : Money, m.1 = Some u) (read_moneys ids db)
  = filter (λ m : Money, m.1 = Some u) (read_moneys None db).
Proof.
  intros Hin. rewrite !read_moneys_rows.
  f_equal; [|f_equal; [|f_equal]]; apply bind_ext_in; intros x _; simpl;
    repeat case_decide; try done; exfalso; destruct_and?; simplify_eq;
    pose proof (proj2 (in_ids_opt_Some ids _) Hin);
    repeat match goal with
           | H : tr_fromId _ = Some _ |- _ => rewrite H in *
           | H : tr_toId _ = Some _ |- _ => rewrite H in *
           end;
    simpl in *; intuition congruence.
Qed.

(** The rows of [moneys] joined to user [u] are, row by row, the deltas
    of [u] above the checkpoints of its snapshot row, above 0 when it has
    none. *)
Lemma read_moneys_exact ids db u :
  in_ids ids u →
  Forall2 exact_money (filter (λ m : Money, m.1 = Some u) (read_moneys ids db))
          (pending db u).
Proof.
  intros Hin. rewrite read_moneys_user, read_moneys_rows by done.
  unfold pending, pending_deltas, transaction_deltas, transfer_deltas,
    lastProcessedTransaction, lastProcessedTransfer,
    opt_lastTransaction, opt_lastTransfer.
  rewrite !filter_app, <- !app_assoc.
  repeat apply Forall2_app.
  - rewrite (fmap_as_bind _ (payer_join db)), filter_bind.
    apply Forall2_bind_same. intros x _.
    repeat (rewrite ?filter_cons, ?filter_nil; case_decide); simpl in *;
      destruct_and?; simplify_eq;
      try (exfalso; tauto); try (constructor 1);
      try (constructor 2; [|constructor 1]).
    exact_values.
  - rewrite (fmap_as_bind _ (recipient_join db)), filter_bind.
    apply Forall2_bind_same. intros x _.
    repeat (rewrite ?filter_cons, ?filter_nil; case_decide); simpl in *;
      destruct_and?; simplify_eq;
      try (exfalso; tauto); try (constructor 1);
      try (constructor 2; [|constructor 1]).
    exact_values.
  - rewrite filter_bind. apply Forall2_bind_same. intros t _.
    destruct (tr_fromId t) as [i|] eqn:Ef; simpl.
    + repeat (rewrite ?filter_cons, ?filter_nil; case_decide); simpl in *;
        destruct_and?; simplify_eq;
        try (exfalso; tauto); try (constructor 1);
        try (constructor 2; [|constructor 1]).
      exact_values.
    + rewrite decide_False by (intros [_ ?]; discriminate). constructor.
  - rewrite filter_bind. apply Forall2_bind_same. intros t _.
    destruct (tr_toId t) as [i|] eqn:Et; simpl.
    + repeat (rewrite ?filter_cons, ?filter_nil; case_decide); simpl in *;
        destruct_and?; simplify_eq;
        try (exfalso; tauto); try (constructor 1);
        try (constructor 2; [|constructor 1]).
      exact_values.
    + rewrite decide_False by (intros [_ ?]; discriminate). constructor.
Qed.

(** ** Numbers handed to the JavaScript side *)

Lemma round53_safe (z : Z) : Z.abs z ≤ safe_integer → round53 z = z.
Proof. intros Hz. unfold round53. by rewrite decide_True. Qed.

Lemma sql_add_exact (a b : Z) :
  Z.abs (a + b) ≤ int64_max → sql_add (Int a) (Int b) = Int (a + b).
Proof.
  intros Hm. unfold sql_add. by rewrite decide_True by by apply in_int64_abs.
Qed.

Lemma safe_integer_int64 : safe_integer ≤ int64_max.
Proof. done. Qed.

(** ** The rows of the balance query *)

Lemma elem_of_users_ascending db u : u ∈ users_ascending db ↔ u ∈ user db.
Proof.
  unfold users_ascending. by rewrite merge_sort_Permutation, elem_of_elements.
Qed.

Lemma NoDup_users_ascending db : NoDup (users_ascending db).
Proof.
  unfold users_ascending. rewrite merge_sort_Permutation. apply NoDup_elements.
Qed.

Lemma users_ascending_sorted db : StronglySorted Z.le (users_ascending db).
Proof.
  apply StronglySorted_merge_sort.
  - intros x y z. lia.
  - intros x y. lia.
Qed.

Lemma pending_sum db u : sum_Z (d_amount <$> pending db u) = pending_total db u.
Proof.
  unfold pending, pending_deltas, pending_total, pending_after, sum_where.
  by rewrite fmap_app, sum_Z_app.
Qed.

Lemma sql_sum_exact (vs : list Num) (ds : list Delta) :
  Forall2 exact_value vs ds →
  sum_Z (d_magnitude <$> ds) ≤ int64_max →
  ∃ total, sql_sum vs = Ok total
           ∧ COALESCE total (Int 0) = Int (sum_Z (d_amount <$> ds)).
Proof.
  intros Hvs Hvol. unfold sql_sum.
  rewrite (sum_values_exact vs ds) by done.
  destruct Hvs; eexists; (split; [done|]); done.
Qed.

Lemma user_row_ids ids db u :
  in_ids ids u → user_row ids db u = user_row None db u.
Proof. intros Hin. unfold user_row. by rewrite read_moneys_user. Qed.

(** The row of a requested user whose pending deltas stay within the
    64-bit range. *)
Lemma user_row_exact ids db u :
  in_ids ids u →
  pending_volume db u ≤ int64_max →
  user_row ids db u =
  Ok (mkRawBalance u
        (js_number (sql_add (Int (pending_total db u)) (cached_amount db u)))
        (Z.of_nat (length (pending db u)))
        (lastTransaction <$> balance db !! u) (lastTransfer <$> balance db !! u)
        (js_number <$> (amount <$> balance db !! u))).
Proof.
  intros Hin Hvol. unfold user_row.
  pose proof (read_moneys_exact ids db u Hin) as Hex.
  destruct (sql_sum_exact
              ((filter (λ m : Money, m.1 = Some u) (read_moneys ids db)).*2)
              (pending db u)) as (total & -> & ->); [|done|].
  - apply Forall2_fmap_l. eapply Forall2_impl; [exact Hex|]. by intros m d [_ ?].
  - rewrite pending_sum, (Forall2_length _ _ _ Hex). done.
Qed.

Lemma filter_in_ids_single db s :
  filter (in_ids (Some [s])) (users_ascending db)
  = if decide (s ∈ user db) then [s] else [].
Proof.
  rewrite (list_filter_iff (in_ids (Some [s])) (λ u, u ∈ [s])) by done.
  rewrite filter_singleton_NoDup by apply NoDup_users_ascending.
  destruct (decide (s ∈ users_ascending db)) as [Hs|Hs];
    rewrite elem_of_users_ascending in Hs.
  - by rewrite decide_True.
  - by rewrite decide_False.
Qed.

(** [getBalance] on a user: the row of the query, or its failure. *)
Lemma getBalance_user db s :
  s ∈ user db →
  getBalance s db =
  match user_row (Some [s]) db s with
  | Ok r => Ok (Some (asBalanceResponse r))
  | Err e => Err e
  end.
Proof.
  intros Hs. unfold getBalance, getBalances, balance_query.
  rewrite filter_in_ids_single, decide_True by done. simpl.
  by destruct (user_row (Some [s]) db s).
Qed.

Lemma getBalance_not_user db s :
  s ∉ user db → getBalance s db = Err TypeError.
Proof.
  intros Hs. unfold getBalance, getBalances, balance_query.
  by rewrite filter_in_ids_single, decide_False.
Qed.

(** Within range the answer is the cached amount plus the pending
    deltas. *)
Lemma getBalance_exact db s c :
  s ∈ user db →
  cached_amount db s = Int c →
  pending_volume db s ≤ int64_max →
  Z.abs (c + pending_total db s) ≤ safe_integer →
  getBalance s db = Ok (Some (balance_of_user db s c)).
Proof.
  intros Hs Hc Hvol Hsafe. rewrite getBalance_user by done.
  rewrite user_row_exact by (done || by left).
  rewrite Hc. unfold asBalanceResponse, balance_of_user. simpl.
  pose proof safe_integer_int64.
  rewrite sql_add_exact by lia. simpl.
  rewrite round53_safe by lia. do 4 f_equal. lia.
Qed.

(** ** Rows of the joins *)
Lemma elem_of_payer_join db t st str pr :
  (t, st, str, pr) ∈ payer_join db ↔
  t ∈ transaction db ∧ st ∈ sub_transaction db
  ∧ str ∈ sub_transaction_row db ∧ pr ∈ product_revision db
  ∧ t_id t = st_transactionId st
  ∧ st_id st = str_subTransactionId str
  ∧ str_productRevision str = pr_revision pr
  ∧ str_productProduct str = pr_productId pr.
Proof.
  unfold payer_join. rewrite !elem_of_inner_join.
  unfold on_t_st, on_st_str, on_str_pr. simpl. tauto.
Qed.

Lemma elem_of_recipient_join db st str pr :
  (st, str, pr) ∈ recipient_join db ↔
  st ∈ sub_transaction db
  ∧ str ∈ sub_transaction_row db ∧ pr ∈ product_revision db
  ∧ st_id st = str_subTransactionId str
  ∧ str_productRevision str = pr_revision pr
  ∧ str_productProduct str = pr_productId pr.
Proof.
  unfold recipient_join. rewrite !elem_of_inner_join.
  unfold on_st_str', on_str_pr. simpl. tauto.
Qed.

Lemma elem_of_transfer_deltas db d :
  d ∈ transfer_deltas db ↔
  ∃ t, t ∈ transfer db
       ∧ ((tr_fromId t = Some (d_subject d) ∧ d_amount d = - tr_amount t)
          ∨ (tr_toId t = Some (d_subject d) ∧ d_amount d = tr_amount t))
       ∧ d_ledgerId d = tr_id t.
Proof.
  unfold transfer_deltas. rewrite elem_of_app, !list_elem_of_bind. split.
  - intros [(t & Hd & Ht)|(t & Hd & Ht)]; exists t; (split; [done|]).
    + destruct (tr_fromId t); [|by apply elem_of_nil in Hd].
      apply list_elem_of_singleton in Hd as ->. simpl. eauto.
    + destruct (tr_toId t); [|by apply elem_of_nil in Hd].
      apply list_elem_of_singleton in Hd as ->. simpl. eauto.
  - destruct d as [s i a]. simpl.
    intros (t & Ht & [[Hs ->]|[Hs ->]] & ->); [left|right];
      exists t; rewrite Hs; (split; [left | done]).
Qed.

(** ** Maximum ids *)

Lemma sql_max_spec (l : list Z) :
  match sql_max l with
  | Some m => m ∈ l ∧ ∀ x, x ∈ l → x ≤ m
  | None => l = []
  end.
Proof.
  destruct l as [|x l]; [done|]. simpl.
  induction l as [|y l [IHin IHle]]; simpl.
  - split; [left|]. intros z Hz. apply list_elem_of_singleton in Hz. lia.
  - split.
    + destruct (Z.max_spec y (foldr Z.max x l)) as [[_ ->]|[_ ->]].
      * apply elem_of_cons in IHin as [->|IHin]; [left | right; by right].
      * right; left.
    + intros z Hz. rewrite !elem_of_cons in Hz.
      destruct Hz as [->|[->|Hz]].
      * pose proof (IHle x ltac:(left)). lia.
      * lia.
      * pose proof (IHle z ltac:(by right)). lia.
Qed.

Lemma transactionMax_nonneg db : 0 ≤ transactionMax db.
Proof. unfold transactionMax. destruct (sql_max _); lia. Qed.

Lemma transferMax_nonneg db : 0 ≤ transferMax db.
Proof. unfold transferMax. destruct (sql_max _); lia. Qed.

Lemma transactionMax_ub db t : t ∈ transaction db → t_id t ≤ transactionMax db.
Proof.
  intros Ht. unfold transactionMax.
  pose proof (sql_max_spec (t_id <$> transaction db)) as Hm.
  destruct (sql_max _) as [m|].
  - destruct Hm as [_ Hle].
    pose proof (Hle (t_id t) ltac:(by apply list_elem_of_fmap_2)). lia.
  - apply fmap_nil_inv in Hm. rewrite Hm in Ht. by apply elem_of_nil in Ht.
Qed.

Lemma transferMax_ub db t : t ∈ transfer db → tr_id t ≤ transferMax db.
Proof.
  intros Ht. unfold transferMax.
  pose proof (sql_max_spec (tr_id <$> transfer db)) as Hm.
  destruct (sql_max _) as [m|].
  - destruct Hm as [_ Hle].
    pose proof (Hle (tr_id t) ltac:(by apply list_elem_of_fmap_2)). lia.
  - apply fmap_nil_inv in Hm. rewrite Hm in Ht. by apply elem_of_nil in Ht.
Qed.

Lemma transactionMax_least db m :
  0 ≤ m → (∀ t, t ∈ transaction db → t_id t ≤ m) → transactionMax db ≤ m.
Proof.
  intros Hm Hub. unfold transactionMax.
  pose proof (sql_max_spec (t_id <$> transaction db)) as Hs.
  destruct (sql_max _) as [k|]; [|done].
  destruct Hs as [Hk _]. apply list_elem_of_fmap in Hk as (t & -> & Ht).
  specialize (Hub t Ht). lia.
Qed.

Lemma transferMax_least db m :
  0 ≤ m → (∀ t, t ∈ transfer db → tr_id t ≤ m) → transferMax db ≤ m.
Proof.
  intros Hm Hub. unfold transferMax.
  pose proof (sql_max_spec (tr_id <$> transfer db)) as Hs.
  destruct (sql_max _) as [k|]; [|done].
  destruct Hs as [Hk _]. apply list_elem_of_fmap in Hk as (t & -> & Ht).
  specialize (Hub t Ht). lia.
Qed.

(** ** Appending to the ledgers *)

Lemma payer_join_append db db' :
  ledger_append db db' →
  ∃ extra, payer_join db' = payer_join db ++ extra
           ∧ Forall (λ x, transactionMax db < t_id x.1.1.1) extra.
Proof.
  intros [_ (tn & Ht & Htn) (stn & Hst & Hstn) (strn & Hstr & Hstrn)
            (prn & Hpr & Hprn) _].
  rewrite Forall_forall in Htn. rewrite Forall_forall in Hstn.
  rewrite Forall_forall in Hstrn. rewrite Forall_forall in Hprn.
  unfold payer_join. rewrite Ht, Hst, Hstr, Hpr.
  rewrite (inner_join_app_l on_t_st).
  rewrite (inner_join_app_r_none on_t_st (transaction db)); last first.
  { intros t st Ht' Hst'. unfold on_t_st.
    pose proof (transactionMax_ub db t Ht'). specialize (Hstn st Hst'). lia. }
  rewrite (inner_join_app_l on_st_str).
  rewrite (inner_join_app_r_none on_st_str
             (inner_join on_t_st (transaction db) (sub_transaction db)));
    last first.
  { intros [t st] str Hx Hstr'. apply elem_of_inner_join in Hx as (_ & Hst' & _).
    specialize (Hstrn str Hstr'). rewrite Forall_forall in Hstrn.
    apply (Hstrn st Hst'). }
  rewrite (inner_join_app_l on_str_pr).
  rewrite (inner_join_app_r_none on_str_pr
             (inner_join on_st_str
                (inner_join on_t_st (transaction db) (sub_transaction db))
                (sub_transaction_row db))); last first.
  { intros [[t st] str] pr Hx Hpr'.
    apply elem_of_inner_join in Hx as (_ & Hstr' & _).
    specialize (Hprn pr Hpr'). rewrite Forall_forall in Hprn.
    apply (Hprn str Hstr'). }
  eexists. split; [done|].
  apply Forall_forall. intros [[[t st] str] pr] Hx.
  apply elem_of_inner_join in Hx as (Hx & _ & _).
  apply elem_of_inner_join in Hx as (Hx & _ & _).
  apply elem_of_inner_join in Hx as (Hx & _ & _).
  simpl. by apply Htn.
Qed.

Lemma recipient_join_append db db' :
  ledger_append db db' →
  ∃ extra, recipient_join db' = recipient_join db ++ extra
           ∧ Forall (λ x, transactionMax db < st_transactionId x.1.1) extra.
Proof.
  intros [_ _ (stn & Hst & Hstn) (strn & Hstr & Hstrn) (prn & Hpr & Hprn) _].
  rewrite Forall_forall in Hstn. rewrite Forall_forall in Hstrn.
  rewrite Forall_forall in Hprn.
  unfold recipient_join. rewrite Hst, Hstr, Hpr.
  rewrite (inner_join_app_l on_st_str').
  rewrite (inner_join_app_r_none on_st_str' (sub_transaction db)); last first.
  { intros st str Hst' Hstr'.
    specialize (Hstrn str Hstr'). rewrite Forall_forall in Hstrn.
    apply (Hstrn st Hst'). }
  rewrite (inner_join_app_l on_str_pr).
  rewrite (inner_join_app_r_none on_str_pr
             (inner_join on_st_str' (sub_transaction db)
                (sub_transaction_row db))); last first.
  { intros [st str] pr Hx Hpr'.
    apply elem_of_inner_join in Hx as (_ & Hstr' & _).
    specialize (Hprn pr Hpr'). rewrite Forall_forall in Hprn.
    apply (Hprn str Hstr'). }
  eexists. split; [done|].
  apply Forall_forall. intros [[st str] pr] Hx.
  apply elem_of_inner_join in Hx as (Hx & _ & _).
  apply elem_of_inner_join in Hx as (Hx & _ & _).
  simpl. by apply Hstn.
Qed.

(** The deltas of the appended rows lie above the old maxima, and every
    sum over the deltas splits into the old part and theirs. *)
Lemma transaction_deltas_append db db' :
  ledger_append db db' →
  ∃ extra, Forall (λ d, transactionMax db < d_ledgerId d) extra
    ∧ ∀ (P : Delta → Prop) `(∀ d, Decision (P d)) (f : Delta → Z),
        sum_where P f (transaction_deltas db')
        = sum_where P f (transaction_deltas db) + sum_where P f extra.
Proof.
  intros Happ.
  destruct (payer_join_append db db' Happ) as (xp & Hp & Hxp).
  destruct (recipient_join_append db db' Happ) as (xr & Hr & Hxr).
  eexists (((λ x, mkDelta (t_fromId x.1.1.1) (t_id x.1.1.1)
                     (- (str_amount x.1.2 * pr_priceInclVat x.2))) <$> xp)
           ++ ((λ x, mkDelta (st_toId x.1.1) (st_transactionId x.1.1)
                        (str_amount x.1.2 * pr_priceInclVat x.2)) <$> xr)).
  split.
  - apply Forall_app. split; apply Forall_fmap.
    + eapply Forall_impl; [apply Hxp|]. by intros x Hx.
    + eapply Forall_impl; [apply Hxr|]. by intros x Hx.
  - intros P HP f. unfold transaction_deltas.
    rewrite Hp, Hr, !fmap_app, !sum_where_app. lia.
Qed.

Lemma transfer_deltas_append db db' :
  ledger_append db db' →
  ∃ extra, Forall (λ d, transferMax db < d_ledgerId d) extra
    ∧ ∀ (P : Delta → Prop) `(∀ d, Decision (P d)) (f : Delta → Z),
        sum_where P f (transfer_deltas db')
        = sum_where P f (transfer_deltas db) + sum_where P f extra.
Proof.
  intros [_ _ _ _ _ (tn & Ht & Htn)].
  eexists ((tn ≫= λ t, match tr_fromId t with
                        | Some i => [mkDelta i (tr_id t) (- tr_amount t)]
                        | None => []
                        end)
           ++ (tn ≫= λ t, match tr_toId t with
                          | Some i => [mkDelta i (tr_id t) (tr_amount t)]
                          | None => []
                          end)).
  split.
  - apply Forall_app. split; apply Forall_bind;
      (eapply Forall_impl; [apply Htn|]); intros t Hlt; simpl.
    + destruct (tr_fromId t); constructor; done.
    + destruct (tr_toId t); constructor; done.
  - intros P HP f. unfold transfer_deltas.
    rewrite Ht, !bind_app, !sum_where_app. lia.
Qed.

(** Sums bounded by the old maxima do not see the appended rows. *)
Lemma sum_transaction_deltas_append db db' (P : Delta → Prop)
    `{∀ d, Decision (P d)} :
  ledger_append db db' →
  (∀ d, P d → d_ledgerId d ≤ transactionMax db) →
  sum_where P d_amount (transaction_deltas db')
  = sum_where P d_amount (transaction_deltas db).
Proof.
  intros Happ HP.
  destruct (transaction_deltas_append db db' Happ) as (extra & Hx & ->).
  rewrite (sum_where_none P _ extra); [lia|].
  eapply Forall_impl; [apply Hx|]. intros d Hd HPd. apply HP in HPd. simpl in *. lia.
Qed.

Lemma sum_transfer_deltas_append db db' (P : Delta → Prop)
    `{∀ d, Decision (P d)} :
  ledger_append db db' →
  (∀ d, P d → d_ledgerId d ≤ transferMax db) →
  sum_where P d_amount (transfer_deltas db')
  = sum_where P d_amount (transfer_deltas db).
Proof.
  intros Happ HP.
  destruct (transfer_deltas_append db db' Happ) as (extra & Hx & ->).
  rewrite (sum_where_none P _ extra); [lia|].
  eapply Forall_impl; [apply Hx|]. intros d Hd HPd. apply HP in HPd. simpl in *. lia.
Qed.

Lemma aggregate_upto_append db db' s c1 c2 :
  ledger_append db db' →
  c1 ≤ transactionMax db → c2 ≤ transferMax db →
  aggregate_upto db' s c1 c2 = aggregate_upto db s c1 c2.
Proof.
  intros Happ H1 H2. unfold aggregate_upto.
  rewrite (sum_transaction_deltas_append db db'), (sum_transfer_deltas_append db db');
    try done; intros d [_ Hd]; lia.
Qed.

Lemma ledger_append_maxima db db' : ledger_append db db' → maxima_grow db db'.
Proof.
  intros [Hb (tn & Ht & _) _ _ _ (fn & Hf & _)]. split; [done|]. split.
  - apply transactionMax_least; [apply transactionMax_nonneg|].
    intros t Hin. apply transactionMax_ub. rewrite Ht, elem_of_app. by left.
  - apply transferMax_least; [apply transferMax_nonneg|].
    intros t Hin. apply transferMax_ub. rewrite Hf, elem_of_app. by left.
Qed.

Lemma ledger_append_positive db db' :
  ledger_append db db' → ledger_positive db → ledger_positive db'.
Proof.
  intros [_ (tn & Ht & Htn) (stn & Hst & Hstn) _ _ (fn & Hf & Hfn)] (H1 & H2 & H3).
  pose proof (transactionMax_nonneg db). pose proof (transferMax_nonneg db).
  unfold ledger_positive. rewrite Ht, Hst, Hf, !Forall_app.
  repeat split; try done; eapply Forall_impl; eauto; simpl; intros; lia.
Qed.

(** The volume of a subject only grows. *)
Lemma subject_volume_append db db' s :
  ledger_append db db' → subject_volume db s ≤ subject_volume db' s.
Proof.
  intros Happ. unfold subject_volume.
  destruct (transaction_deltas_append db db' Happ) as (xt & _ & ->).
  destruct (transfer_deltas_append db db' Happ) as (xf & _ & ->).
  pose proof (λ l, sum_where_mono (A:=Delta) (λ d, d_subject d = s)
                (λ d, d_subject d = s) d_magnitude l
                (λ d, Z.abs_nonneg _) (λ d _ H, H)) as Hnn.
  pose proof (Hnn xt). pose proof (Hnn xf). lia.
Qed.

(** ** Refreshes and invalidations touch only the snapshot table *)

Lemma cleared_with_balance ids db :
  cleared ids db = with_balance db (balance (cleared ids db)).
Proof.
  unfold cleared, clearBalanceCache.
  destruct (truthy ids); [|done].
  destruct ids as [[id|[|i l]]|]; simpl; try done; by rewrite with_balance_same.
Qed.

Lemma refreshed_transactionMax params db :
  transactionMax (refreshed params db) = transactionMax db.
Proof. by rewrite refreshed_with_balance. Qed.

Lemma refreshed_transferMax params db :
  transferMax (refreshed params db) = transferMax db.
Proof. by rewrite refreshed_with_balance. Qed.

Lemma refreshed_user params db : user (refreshed params db) = user db.
Proof. by rewrite refreshed_with_balance. Qed.

Lemma refreshed_transaction_deltas params db :
  transaction_deltas (refreshed params db) = transaction_deltas db.
Proof. by rewrite refreshed_with_balance. Qed.

Lemma refreshed_transfer_deltas params db :
  transfer_deltas (refreshed params db) = transfer_deltas db.
Proof. by rewrite refreshed_with_balance. Qed.

Lemma refreshed_update_moneys params ids db :
  update_moneys ids (refreshed params db) = update_moneys ids db.
Proof. by rewrite refreshed_with_balance. Qed.

Lemma cleared_transactionMax ids db :
  transactionMax (cleared ids db) = transactionMax db.
Proof. by rewrite cleared_with_balance. Qed.

Lemma cleared_transferMax ids db :
  transferMax (cleared ids db) = transferMax db.
Proof. by rewrite cleared_with_balance. Qed.

Lemma cleared_user ids db : user (cleared ids db) = user db.
Proof. by rewrite cleared_with_balance. Qed.

Lemma cleared_transaction_deltas ids db :
  transaction_deltas (cleared ids db) = transaction_deltas db.
Proof. by rewrite cleared_with_balance. Qed.

Lemma cleared_transfer_deltas ids db :
  transfer_deltas (cleared ids db) = transfer_deltas db.
Proof. by rewrite cleared_with_balance. Qed.

Lemma cleared_update_moneys ids' ids db :
  update_moneys ids (cleared ids' db) = update_moneys ids db.
Proof. by rewrite cleared_with_balance. Qed.

Create Rewrite HintDb ledger.
#[local] Hint Rewrite refreshed_transactionMax refreshed_transferMax
  refreshed_user refreshed_transaction_deltas refreshed_transfer_deltas
  refreshed_update_moneys
  cleared_transactionMax cleared_transferMax cleared_user
  cleared_transaction_deltas cleared_transfer_deltas cleared_update_moneys
  : ledger.

(** What the spec-side sums see of a refreshed or invalidated store. *)
Local Ltac ledger_unchanged :=
  unfold subject_volume, aggregate_upto, pending_after, ledger_total,
    ledger_positive, has_delta_upto, has_delta, scanned_deltas;
  autorewrite with ledger; try done.

Lemma refreshed_subject_volume params db s :
  subject_volume (refreshed params db) s = subject_volume db s.
Proof. ledger_unchanged. Qed.

Lemma cleared_subject_volume ids db s :
  subject_volume (cleared ids db) s = subject_volume db s.
Proof. ledger_unchanged. Qed.

Lemma refreshed_aggregate_upto params db s c1 c2 :
  aggregate_upto (refreshed params db) s c1 c2 = aggregate_upto db s c1 c2.
Proof. ledger_unchanged. Qed.

Lemma cleared_aggregate_upto ids db s c1 c2 :
  aggregate_upto (cleared ids db) s c1 c2 = aggregate_upto db s c1 c2.
Proof. ledger_unchanged. Qed.

Lemma refreshed_ledger_total params db s :
  ledger_total (refreshed params db) s = ledger_total db s.
Proof. ledger_unchanged. Qed.

Lemma cleared_ledger_total ids db s :
  ledger_total (cleared ids db) s = ledger_total db s.
Proof. ledger_unchanged. Qed.

Lemma refreshed_ledger_positive params db :
  ledger_positive (refreshed params db) ↔ ledger_positive db.
Proof. by rewrite refreshed_with_balance. Qed.

Lemma cleared_ledger_positive ids db :
  ledger_positive (cleared ids db) ↔ ledger_positive db.
Proof. by rewrite cleared_with_balance. Qed.

(** ** Invariants of the snapshot table *)

Lemma lookup_foldr_delete (l : list Z) (b : gmap Z Balance) (s : Z) :
  foldr (λ id acc, delete id acc) b l !! s
  = if decide (s ∈ l) then None else b !! s.
Proof.
  induction l as [|i l IH]; cbn [foldr].
  - by rewrite decide_False by apply not_elem_of_nil.
  - rewrite lookup_delete. destruct (decide (i = s)) as [->|Hne].
    + by rewrite decide_True by left.
    + rewrite IH. destruct (decide (s ∈ l)).
      * by rewrite decide_True by by right.
      * rewrite decide_False; [done|]. rewrite not_elem_of_cons. split; congruence.
Qed.

(** The rows left by an invalidation, failed or not. *)
Lemma cleared_lookup ids db s :
  balance (cleared ids db) !! s =
  match ids with
  | None => None
  | Some (OneId id) =>
      if decide (id = 0) then None
      else if decide (s = id) then None else balance db !! s
  | Some (ManyIds l) => if decide (s ∈ l) then None else balance db !! s
  end.
Proof.
  unfold cleared, clearBalanceCache.
  destruct ids as [[id|l]|]; cbn [truthy]; [| |done].
  - destruct (decide (id = 0)) as [->|Hne]; [done|].
    rewrite (proj2 (Z.eqb_neq id 0)) by done. simpl. rewrite lookup_delete.
    repeat case_decide; congruence.
  - destruct l as [|i l]; [by rewrite decide_False by apply not_elem_of_nil|].
    apply (lookup_foldr_delete (i :: l)).
Qed.

Lemma cleared_lookup_cases ids db s :
  balance (cleared ids db) !! s = None
  ∨ balance (cleared ids db) !! s = balance db !! s.
Proof.
  rewrite cleared_lookup. destruct ids as [[id|l]|]; repeat case_decide; eauto.
Qed.

(** The row of a subject after a refresh: either left as it was, or
    written by a statement that succeeded, with the sum of the group of
    the subject and the maximum ids. *)
Lemma refreshed_lookup_cases params db s :
  balance (refreshed params db) !! s = balance db !! s
  ∨ ∃ v, balance (refreshed params db) !! s
         = Some (mkBalance v (transactionMax db) (transferMax db))
       ∧ s ∈ (update_moneys params db).*1
       ∧ sum_values ((filter (λ r, r.1 = s) (update_moneys params db)).*2) = Ok v
       ∧ updateBalances params db = Ok (refreshed params db).
Proof.
  destruct (decide (s ∈ (update_moneys params db).*1)) as [Hs|Hs];
    [|left; by apply refreshed_notin].
  destruct (updateBalances params db) as [db'|e] eqn:E.
  - right. rewrite (refreshed_Ok _ _ _ E).
    destruct (updateBalances_Ok_in _ _ _ _ E Hs) as (v & Hv & Hl). by exists v.
  - left. by rewrite (refreshed_Err _ _ _ E).
Qed.

Lemma checkpoints_bounded_refresh params db :
  checkpoints_bounded db → checkpoints_bounded (refreshed params db).
Proof.
  intros Hb s b. autorewrite with ledger.
  destruct (refreshed_lookup_cases params db s) as [->|(v & -> & _)];
    [apply (Hb s b)|].
  intros [= <-]. simpl.
  pose proof (transactionMax_nonneg db). pose proof (transferMax_nonneg db). lia.
Qed.

Lemma checkpoints_bounded_clear ids db :
  checkpoints_bounded db → checkpoints_bounded (cleared ids db).
Proof.
  intros Hb s b Hs. autorewrite with ledger.
  destruct (cleared_lookup_cases ids db s) as [E|E]; rewrite E in Hs; [done|].
  by apply (Hb s b).
Qed.

Lemma checkpoints_bounded_grow db db' :
  maxima_grow db db' → checkpoints_bounded db → checkpoints_bounded db'.
Proof.
  intros (Hbal & Ht & Hf) Hb s b. rewrite Hbal. intros Hs.
  specialize (Hb s b Hs). lia.
Qed.

Lemma history_checkpoints_bounded init grow db :
  (∀ d d', grow d d' → maxima_grow d d') →
  history init grow db → checkpoints_bounded db.
Proof.
  intros Hgrow. induction 1 as [db _ He|p db _ IH|ids db _ IH|db db' _ IH Hg].
  - intros s b. by rewrite He, lookup_empty.
  - by apply checkpoints_bounded_refresh.
  - by apply checkpoints_bounded_clear.
  - eapply checkpoints_bounded_grow; eauto.
Qed.

Lemma snapshots_exact_refresh params db :
  snapshots_exact db → snapshots_exact (refreshed params db).
Proof.
  intros He s b.
  rewrite refreshed_subject_volume, refreshed_aggregate_upto.
  destruct (refreshed_lookup_cases params db s)
    as [->|(v & -> & Hs & Hv & _)]; [apply (He s b)|].
  intros [= <-] Hvol. simpl.
  apply update_moneys_written in Hs as [Hin _].
  rewrite update_group_sum in Hv by done. by injection Hv as <-.
Qed.

Lemma snapshots_exact_clear ids db :
  snapshots_exact db → snapshots_exact (cleared ids db).
Proof.
  intros He s b Hs.
  rewrite cleared_subject_volume, cleared_aggregate_upto.
  destruct (cleared_lookup_cases ids db s) as [E|E]; rewrite E in Hs; [done|].
  by apply (He s b).
Qed.

Lemma snapshots_exact_append db db' :
  ledger_append db db' → checkpoints_bounded db →
  snapshots_exact db → snapshots_exact db'.
Proof.
  intros Happ Hb He s b. rewrite (la_balance _ _ Happ). intros Hs Hvol.
  destruct (Hb s b Hs) as [Ht Hf].
  rewrite (aggregate_upto_append db db') by (done || lia).
  apply (He s b); [done|].
  pose proof (subject_volume_append db db' s Happ). lia.
Qed.

Lemma reachable_invariants db :
  reachable db →
  ledger_positive db ∧ checkpoints_bounded db ∧ snapshots_exact db.
Proof.
  intros Hr. split; [|split].
  - induction Hr as [db Hp _|p db _ IH|ids db _ IH|db db' _ IH Hg]; [done| | |].
    + by apply refreshed_ledger_positive.
    + by apply cleared_ledger_positive.
    + eapply ledger_append_positive; eauto.
  - eapply history_checkpoints_bounded; [|apply Hr].
    apply ledger_append_maxima.
  - induction Hr as [db _ He|p db _ IH|ids db _ IH|db db' Hr IH Hg].
    + intros s b. by rewrite He, lookup_empty.
    + by apply snapshots_exact_refresh.
    + by apply snapshots_exact_clear.
    + eapply snapshots_exact_append; eauto.
      eapply history_checkpoints_bounded; [|apply Hr].
      apply ledger_append_maxima.
Qed.

(** ** A read returns the whole ledger of the subject *)

Lemma transaction_deltas_positive db d :
  ledger_positive db → d ∈ transaction_deltas db → 0 < d_ledgerId d.
Proof.
  intros (Ht & Hst & _) Hd.
  rewrite Forall_forall in Ht. rewrite Forall_forall in Hst.
  unfold transaction_deltas in Hd.
  rewrite elem_of_app, !list_elem_of_fmap in Hd.
  destruct Hd as [([[[t st] str] pr] & -> & Hx)|([[st str] pr] & -> & Hx)]; simpl.
  - apply elem_of_payer_join in Hx. apply Ht. tauto.
  - apply elem_of_recipient_join in Hx. apply Hst. tauto.
Qed.

Lemma transfer_deltas_positive db d :
  ledger_positive db → d ∈ transfer_deltas db → 0 < d_ledgerId d.
Proof.
  intros (_ & _ & Hf) Hd. rewrite Forall_forall in Hf.
  apply elem_of_transfer_deltas in Hd as (t & Ht & _ & ->). by apply Hf.
Qed.

Lemma pending_after_zero db s :
  ledger_positive db → pending_after db s 0 0 = ledger_total db s.
Proof.
  intros Hp. unfold pending_after, ledger_total.
  f_equal; apply sum_where_ext; intros d Hd; (split; [|done]).
  - pose proof (transaction_deltas_positive db d Hp Hd). split; [tauto|].
    intros; split; [done | lia].
  - pose proof (transfer_deltas_positive db d Hp Hd). split; [tauto|].
    intros; split; [done | lia].
Qed.

Lemma aggregate_plus_pending db s c1 c2 :
  aggregate_upto db s c1 c2 + pending_after db s c1 c2 = ledger_total db s.
Proof.
  unfold aggregate_upto, pending_after, ledger_total.
  rewrite <- (sum_where_split (λ d, d_subject d = s) d_ledgerId c1 d_amount
                (transaction_deltas db)).
  rewrite <- (sum_where_split (λ d, d_subject d = s) d_ledgerId c2 d_amount
                (transfer_deltas db)).
  lia.
Qed.

(** Every sum of deltas of a subject is bounded by its volume. *)
Lemma ledger_total_volume db s :
  Z.abs (ledger_total db s) ≤ subject_volume db s.
Proof.
  unfold ledger_total, subject_volume.
  pose proof (sum_where_abs (λ d, d_subject d = s) d_amount (transaction_deltas db)).
  pose proof (sum_where_abs (λ d, d_subject d = s) d_amount (transfer_deltas db)).
  unfold d_magnitude. lia.
Qed.

Lemma pending_volume_le db s : pending_volume db s ≤ subject_volume db s.
Proof.
  unfold pending_volume, pending, pending_deltas, subject_volume.
  rewrite fmap_app, sum_Z_app.
  change (sum_where (λ d, d_subject d = s
                          ∧ d_ledgerId d > lastProcessedTransaction db s)
            d_magnitude (transaction_deltas db)
          + sum_where (λ d, d_subject d = s
                            ∧ d_ledgerId d > lastProcessedTransfer db s)
              d_magnitude (transfer_deltas db)
          ≤ sum_where (λ d, d_subject d = s) d_magnitude (transaction_deltas db)
            + sum_where (λ d, d_subject d = s) d_magnitude (transfer_deltas db)).
  pose proof (λ P Q HP HQ l, sum_where_mono (A:=Delta) P Q (H:=HP) (H0:=HQ)
                d_magnitude l (λ d, Z.abs_nonneg _)) as Hmono.
  apply Z.add_le_mono; apply Hmono; tauto.
Qed.

(** In a reachable state, and while the volume of the subject stays within
    the safe integers, a read returns the exact total of the ledger of the
    subject. *)
Lemma getBalance_reachable db s :
  reachable db → s ∈ user db →
  subject_volume db s ≤ safe_integer →
  getBalance s db =
  Ok (Some (mkBalanceResponse s (Int (ledger_total db s))
              (lastTransaction <$> balance db !! s)
              (lastTransfer <$> balance db !! s))).
Proof.
  intros Hr Hs Hvol. apply reachable_invariants in Hr as (Hp & _ & He).
  pose proof safe_integer_int64 as Hsafe.
  pose proof (pending_volume_le db s).
  pose proof (ledger_total_volume db s).
  destruct (balance db !! s) as [b|] eqn:E.
  - pose proof (He s b E ltac:(lia)) as Hb.
    rewrite (getBalance_exact db s
               (aggregate_upto db s (lastTransaction b) (lastTransfer b))).
    + unfold balance_of_user, pending_total, lastProcessedTransaction,
        lastProcessedTransfer. rewrite E. simpl.
      by rewrite aggregate_plus_pending.
    + done.
    + unfold cached_amount. by rewrite E.
    + lia.
    + unfold pending_total, lastProcessedTransaction, lastProcessedTransfer.
      rewrite E. simpl. rewrite aggregate_plus_pending. lia.
  - assert (pending_total db s = ledger_total db s) as Hpt.
    { unfold pending_total, lastProcessedTransaction, lastProcessedTransfer.
      rewrite E. simpl. by apply pending_after_zero. }
    rewrite (getBalance_exact db s 0).
    + unfold balance_of_user. rewrite E, Hpt. simpl. done.
    + done.
    + unfold cached_amount. by rewrite E.
    + lia.
    + rewrite Hpt. lia.
Qed.

(** ** Worked ledgers: sign of the deltas *)

(** Subject 1 buys 3 units at 150 from subject 2, 1000 goes from 3 to 4,
    and 500 is deposited to 5: the deltas are -450, +450, -1000, +1000 and
    +500, with nothing for the absent source of the deposit. *)
Example demo_db_moneys :
  update_moneys None demo_db
  = [(1, Int (-450)); (2, Int 450); (3, Int (-1000)); (4, Int 1000);
     (5, Int 500)].
Proof. reflexivity. Qed.

Example demo_db_refreshed_rows :
  updateBalances None demo_db = Ok demo_db_refreshed
  ∧ (λ s, balance demo_db_refreshed !! s) <$> [1; 2; 3; 4; 5; 6]
    = [Some (mkBalance (Int (-450)) 1 2); Some (mkBalance (Int 450) 1 2);
       Some (mkBalance (Int (-1000)) 1 2); Some (mkBalance (Int 1000) 1 2);
       Some (mkBalance (Int 500) 1 2); None].
Proof. vm_compute. split; reflexivity. Qed.

(** ** Worked ledgers: beyond the 64-bit range *)

(** The sum of subject 1 overflows and the whole statement fails: no row
    is written, not even for subject 2, whose sum is 5. A refresh of
    subject 2 alone succeeds. *)
Example overflow_db_refresh :
  updateBalances None overflow_db = Err QueryFailedError
  ∧ balance (refreshed None overflow_db) = ∅
  ∧ balance (refreshed (Some [2]) overflow_db) = {[2 := mkBalance (Int 5) 0 3]}.
Proof. vm_compute. repeat split; reflexivity. Qed.

(** The read of all users fails with the sum of subject 1; the read of
    subject 2 alone answers 5. *)
Example overflow_db_read :
  getBalances None overflow_db = Err QueryFailedError
  ∧ getBalance 1 overflow_db = Err QueryFailedError
  ∧ getBalance 2 overflow_db = Ok (Some (mkBalanceResponse 2 (Int 5) None None)).
Proof. vm_compute. repeat split; reflexivity. Qed.

(** A product beyond the 64-bit range is carried on in floating point,
    without an error, by the refresh and by the read. *)
Example real_db_moneys :
  update_moneys None real_db = [(1, Real); (2, Real)]
  ∧ balance (refreshed None real_db)
    = {[1 := mkBalance Real 1 0; 2 := mkBalance Real 1 0]}
  ∧ getBalance 1 real_db = Ok (Some (mkBalanceResponse 1 Real None None)).
Proof. vm_compute. repeat split; reflexivity. Qed.

(** An amount of 2^53 + 1 is stored exactly and read as 2^53. *)
Example round_db_read :
  balance (refreshed None round_db)
  = {[1 := mkBalance (Int 9007199254740993) 0 1]}
  ∧ getBalance 1 round_db
    = Ok (Some (mkBalanceResponse 1 (Int 9007199254740992) None None))
  ∧ getBalance 1 (refreshed None round_db)
    = Ok (Some (mkBalanceResponse 1 (Int 9007199254740992) (Some 0) (Some 1))).
Proof. vm_compute. repeat split; reflexivity. Qed.

(** ** Refresh without a subject filter *)

(** With the foreign key in place every delta lies at or below the ids
    read at the start of the refresh. *)
Lemma has_delta_within_maxima db s :
  sub_transactions_attached db → has_delta db s →
  has_delta_upto db s (transactionMax db) (transferMax db).
Proof.
  intros Hfk Hd. unfold sub_transactions_attached in Hfk.
  rewrite Forall_forall in Hfk.
  unfold has_delta in Hd. rewrite Exists_app in Hd.
  unfold has_delta_upto. rewrite !Exists_exists in *.
  destruct Hd as [(d & Hd & Hs)|(d & Hd & Hs)]; [left|right];
    exists d; (split; [done|]); (split; [done|]).
  - unfold transaction_deltas in Hd.
    rewrite elem_of_app, !list_elem_of_fmap in Hd.
    destruct Hd as [([[[t st] str] pr] & -> & Hx)|([[st str] pr] & -> & Hx)]; simpl.
    + apply elem_of_payer_join in Hx. apply transactionMax_ub. tauto.
    + apply elem_of_recipient_join in Hx. destruct Hx as (Hst & _).
      specialize (Hfk st Hst). apply Exists_exists in Hfk as (t & Ht & <-).
      by apply transactionMax_ub.
  - apply elem_of_transfer_deltas in Hd as (t & Ht & _ & ->).
    by apply transferMax_ub.
Qed.

Lemma has_ledger_entry_within_maxima db s :
  has_ledger_entry db s →
  has_delta_upto db s (transactionMax db) (transferMax db).
Proof.
  unfold has_delta_upto. rewrite !Exists_exists.
  intros [(t & st & str & pr & Hrow & Hs)|(t & Ht & Hs)].
  - left. pose proof Hrow as (Ht & Hst & Hstr & Hpr & Hj1 & Hj2 & Hj3 & Hj4).
    pose proof (transactionMax_ub db t Ht) as Hle.
    unfold transaction_deltas. setoid_rewrite elem_of_app.
    destruct Hs as [<-|<-].
    + eexists. split; [left|].
      * apply (list_elem_of_fmap_2 _ _ (t, st, str, pr)).
        by apply elem_of_payer_join.
      * done.
    + eexists. split; [right|].
      * apply (list_elem_of_fmap_2 _ _ (st, str, pr)).
        by apply elem_of_recipient_join.
      * simpl. split; [done | lia].
  - right. pose proof (transferMax_ub db t Ht) as Hle.
    destruct Hs as [Hs|Hs].
    + exists (mkDelta s (tr_id t) (- tr_amount t)). split; [|done].
      apply elem_of_transfer_deltas. exists t. simpl. eauto.
    + exists (mkDelta s (tr_id t) (tr_amount t)). split; [|done].
      apply elem_of_transfer_deltas. exists t. simpl. eauto.
Qed.

(** C1, as stated, fails beyond the 64-bit range. In [overflow_db] the
    sum of subject 1 overflows: the statement fails and no row is written
    for subject 2 either, whose only delta is 5. In [real_db] the product
    of quantity and price leaves the range: the row of subject 1 holds a
    floating-point amount, not the exact sum -2^64. *)
Lemma refresh_all_beyond_range :
  (has_ledger_entry overflow_db 2
   ∧ updateBalances None overflow_db = Err QueryFailedError
   ∧ balance (refreshed None overflow_db) !! 2 = None)
  ∧ (has_ledger_entry real_db 1
     ∧ balance (refreshed None real_db) !! 1 = Some (mkBalance Real 1 0)
     ∧ aggregate_upto real_db 1 (transactionMax real_db) (transferMax real_db)
       = - 18446744073709551616).
Proof.
  split; split.
  - right. exists (mkTransfer 3 None (Some 2) 5). split; [|by right].
    apply list_elem_of_In. simpl. auto.
  - vm_compute. split; reflexivity.
  - left. exists (mkTransaction 1 1), (mkSubTransaction 1 1 2),
      (mkSubTransactionRow 1 4294967296 1 7), (mkProductRevision 7 1 4294967296).
    split; [|by left]. unfold transaction_row. simpl.
    repeat split; apply list_elem_of_In; simpl; auto.
  - vm_compute. split; reflexivity.
Qed.

(** C1, amended. [updateBalances] without ids succeeds when the volume of
    every subject (the magnitudes of its deltas together) is at most
    2^63 - 1; and whenever it succeeds, every subject with at least one
    transaction or transfer delta whose own volume is within that bound
    has a snapshot row whose amount is the exact signed sum of its
    transaction deltas with id <= Tmax and of its transfer deltas with
    id <= Fmax, and whose checkpoints are Tmax and Fmax, the maximum ids
    read before the aggregation. *)
Theorem refresh_all_writes_exact_aggregate db s :
  has_ledger_entry db s →
  subject_volume db s ≤ int64_max →
  ((∀ u, subject_volume db u ≤ int64_max) →
   ∃ db', updateBalances None db = Ok db')
  ∧ (∀ db', updateBalances None db = Ok db' →
       balance db' !! s
       = Some (mkBalance
                 (Int (aggregate_upto db s (transactionMax db) (transferMax db)))
                 (transactionMax db) (transferMax db))).
Proof.
  intros Hd Hvol. split.
  - intros Hall. apply updateBalances_succeeds. intros u _. apply Hall.
  - intros db' Hok. apply (updateBalances_Ok_exact None); try done.
    by apply has_ledger_entry_within_maxima.
Qed.

Lemma refresh_all_writes_exact_aggregate_witness :
  updateBalances None demo_db = Ok demo_db_refreshed
  ∧ balance demo_db_refreshed !! 2
    = Some (mkBalance
              (Int (aggregate_upto demo_db 2 (transactionMax demo_db)
                                   (transferMax demo_db)))
              (transactionMax demo_db) (transferMax demo_db)).
Proof.
  assert (updateBalances None demo_db = Ok demo_db_refreshed) as Hok
    by (vm_compute; reflexivity).
  split; [exact Hok|].
  apply (proj2 (refresh_all_writes_exact_aggregate demo_db 2
    ltac:(left; exists (mkTransaction 1 1), (mkSubTransaction 1 1 2),
            (mkSubTransactionRow 1 3 1 7), (mkProductRevision 7 1 150);
          split; [|by right]; unfold transaction_row; simpl;
          repeat split; apply list_elem_of_In; simpl; auto)
    ltac:(vm_compute; discriminate))).
  exact Hok.
Defined.

(** Under the foreign key the same holds for every subject the deltas
    name. *)
Lemma refresh_all_under_foreign_key db db' s :
  sub_transactions_attached db → has_delta db s →
  subject_volume db s ≤ int64_max →
  updateBalances None db = Ok db' →
  balance db' !! s
  = Some (mkBalance
            (Int (aggregate_upto db s (transactionMax db) (transferMax db)))
            (transactionMax db) (transferMax db)).
Proof.
  intros Hfk Hd Hvol Hok. apply (updateBalances_Ok_exact None); try done.
  by apply has_delta_within_maxima.
Qed.

Example demo_db_refresh_all :
  balance (refreshed None demo_db) !! 2 = Some (mkBalance (Int 450) 1 2)
  ∧ aggregate_upto demo_db 2 (transactionMax demo_db) (transferMax demo_db) = 450.
Proof. vm_compute. by split. Qed.

(** ** Balance of a user *)

Lemma pending_no_delta db s : ¬ has_delta db s → pending db s = [].
Proof.
  unfold has_delta. rewrite Exists_app, !Exists_exists. intros Hno.
  unfold pending, pending_deltas.
  assert (∀ (P : Delta → Prop) `(∀ d, Decision (P d)) (l : list Delta),
            (∀ d, d ∈ l → ¬ P d) → filter P l = []) as Hnil.
  { intros P HP l Hl. induction l as [|d l IH]; [done|].
    rewrite filter_cons_False by (apply Hl; left).
    apply IH. intros d' Hd'. apply Hl. by right. }
  rewrite !Hnil; [done| |]; intros d Hd [Hs _]; apply Hno; eauto.
Qed.

(** C2, as stated, fails beyond the range of the numbers involved. In
    [round_db] the only delta of user 1 is 2^53 + 1 and there is no
    snapshot: the read answers 2^53. In [overflow_db] the pending deltas
    of user 1 overflow the sum and the read fails. *)
Lemma getBalance_beyond_range :
  (1 ∈ user round_db
   ∧ cached_amount round_db 1 = Int 0
   ∧ pending_total round_db 1 = 9007199254740993
   ∧ getBalance 1 round_db
     = Ok (Some (mkBalanceResponse 1 (Int 9007199254740992) None None)))
  ∧ (1 ∈ user overflow_db
     ∧ getBalance 1 overflow_db = Err QueryFailedError).
Proof.
  split; split.
  - simpl. by apply elem_of_singleton.
  - vm_compute. repeat split; reflexivity.
  - simpl. rewrite elem_of_union, !elem_of_singleton. lia.
  - vm_compute. reflexivity.
Qed.

(** C2, amended. For a subject in the user table whose cached amount is
    an integer [c] (0 without a snapshot row), whose pending deltas have a
    volume of at most 2^63 - 1 and for which [c] plus their sum is at most
    2^53 in magnitude, [getBalance] returns [c] plus the sum of its
    transaction deltas with id above [lastTransaction] and of its transfer
    deltas with id above [lastTransfer] (both 0 without a row); a user
    with no ledger history and no snapshot gets balance 0, not an error. *)
Theorem getBalance_cached_plus_pending db s :
  s ∈ user db →
  (∀ c, cached_amount db s = Int c →
        pending_volume db s ≤ int64_max →
        Z.abs (c + pending_total db s) ≤ safe_integer →
        getBalance s db = Ok (Some (balance_of_user db s c)))
  ∧ (balance db !! s = None → ¬ has_delta db s →
     getBalance s db = Ok (Some (mkBalanceResponse s (Int 0) None None))).
Proof.
  intros Hs. split; [intros c; by apply getBalance_exact|].
  intros Hnone Hno.
  assert (pending_total db s = 0) as Hpt
    by (by rewrite <- pending_sum, pending_no_delta).
  rewrite (getBalance_exact db s 0); try done.
  - unfold balance_of_user. by rewrite Hpt, Hnone.
  - unfold cached_amount. by rewrite Hnone.
  - unfold pending_volume. by rewrite pending_no_delta.
  - by rewrite Hpt.
Qed.

Lemma getBalance_cached_plus_pending_witness :
  getBalance 1 demo_db_grown
  = Ok (Some (balance_of_user demo_db_grown 1 (-450))).
Proof.
  apply (proj1 (getBalance_cached_plus_pending demo_db_grown 1
    ltac:(simpl; rewrite !elem_of_union, !elem_of_singleton; lia))).
  - vm_compute. reflexivity.
  - vm_compute. discriminate.
  - vm_compute. discriminate.
Defined.

Example getBalance_grown :
  getBalance 1 demo_db_grown
  = Ok (Some (mkBalanceResponse 1 (Int (-275)) (Some 1) (Some 2))).
Proof. vm_compute. reflexivity. Qed.

Example getBalance_empty_ledger :
  getBalance 1 empty_db = Ok (Some (mkBalanceResponse 1 (Int 0) None None)).
Proof. vm_compute. reflexivity. Qed.

Example getBalance_no_history :
  getBalance 6 demo_db = Ok (Some (mkBalanceResponse 6 (Int 0) None None)).
Proof. vm_compute. reflexivity. Qed.

(** ** Sign of the deltas *)


Lemma filter_all {A : Type} (P : A → Prop) `{∀ a, Decision (P a)} (l : list A) :
  (∀ a, a ∈ l → P a) → filter P l = l.
Proof.
  induction l as [|a l IH]; intros Hl; [done|].
  rewrite filter_cons_True by (apply Hl; left).
  rewrite IH; [done|]. intros b Hb. apply Hl. by right.
Qed.








(** ** The rows of one subject *)

(** The ids of the request do not matter for the rows of a requested
    subject. *)
Lemma update_moneys_subject ids db s :
  in_ids ids s →
  filter (λ r, r.1 = s) (update_moneys ids db)
  = filter (λ r, r.1 = s) (update_moneys None db).
Proof.
  intros Hin. unfold update_moneys.
  rewrite !filter_app, !fmap_filter_as_bind, !filter_bind.
  f_equal; [|f_equal; [|f_equal]]; apply bind_ext_in; intros x _; simpl.
  - repeat (rewrite ?filter_cons, ?filter_nil; case_decide);
      simpl in *; try done; exfalso; destruct_and?; simplify_eq; tauto.
  - repeat (rewrite ?filter_cons, ?filter_nil; case_decide);
      simpl in *; try done; exfalso; destruct_and?; simplify_eq; tauto.
  - destruct (tr_fromId x); [|done].
    repeat (rewrite ?filter_cons, ?filter_nil; case_decide);
      simpl in *; try done; exfalso; destruct_and?; simplify_eq; tauto.
  - destruct (tr_toId x); [|done].
    repeat (rewrite ?filter_cons, ?filter_nil; case_decide);
      simpl in *; try done; exfalso; destruct_and?; simplify_eq; tauto.
Qed.

(** The row of every subject after a refresh that succeeds: rewritten
    from the ledger when the subject is requested and has a scanned delta,
    untouched otherwise. *)
Lemma updateBalances_Ok_lookup params db db' s :
  updateBalances params db = Ok db' →
  balance db' !! s =
  if decide (in_ids params s
             ∧ has_delta_upto db s (transactionMax db) (transferMax db))
  then written_row db s
  else balance db !! s.
Proof.
  intros Hok. case_decide as Hw.
  - destruct (updateBalances_Ok_in params db db' s Hok) as (v & Hv & ->);
      [by apply update_moneys_written|].
    unfold written_row.
    rewrite update_moneys_subject in Hv by tauto. by rewrite Hv.
  - rewrite <- (refreshed_Ok _ _ _ Hok). apply refreshed_notin.
    by rewrite update_moneys_written.
Qed.

Lemma updateBalances_Ok_lookup_over params db b db' s :
  updateBalances params (with_balance db b) = Ok db' →
  balance db' !! s =
  if decide (in_ids params s
             ∧ has_delta_upto db s (transactionMax db) (transferMax db))
  then written_row db s
  else b !! s.
Proof. exact (updateBalances_Ok_lookup params (with_balance db b) db' s). Qed.

(** A refresh succeeds exactly when the row of every subject it scans can
    be written. *)
Lemma updateBalances_Ok_iff params db :
  (∃ db', updateBalances params db = Ok db') ↔
  ∀ s, in_ids params s →
       has_delta_upto db s (transactionMax db) (transferMax db) →
       is_Some (written_row db s).
Proof.
  split.
  - intros [db' Hok] s Hin Hd.
    destruct (updateBalances_Ok_in params db db' s Hok) as (v & Hv & _);
      [by apply update_moneys_written|].
    unfold written_row. rewrite update_moneys_subject in Hv by done.
    by rewrite Hv.
  - intros Hall.
    destruct (group_by_sum_total (update_moneys params db)) as [g Hg].
    + intros s Hs. apply update_moneys_written in Hs as [Hin Hd].
      destruct (Hall s Hin Hd) as [b Hb]. unfold written_row in Hb.
      rewrite update_moneys_subject by done.
      destruct (sum_values _) as [v|e]; [by exists v | done].
    + eexists. apply updateBalances_Ok. by exists g.
Qed.

Lemma DB_eq db1 db2 :
  user db1 = user db2 → transaction db1 = transaction db2 →
  sub_transaction db1 = sub_transaction db2 →
  sub_transaction_row db1 = sub_transaction_row db2 →
  product_revision db1 = product_revision db2 →
  transfer db1 = transfer db2 →
  (∀ s, balance db1 !! s = balance db2 !! s) →
  db1 = db2.
Proof.
  destruct db1, db2. simpl. intros -> -> -> -> -> -> Hb.
  f_equal. by apply map_eq.
Qed.

(** Two states with the ledgers of [db] and the same snapshot rows. *)
Lemma with_balance_eq db db1 db2 :
  db1 = with_balance db (balance db1) →
  db2 = with_balance db (balance db2) →
  (∀ s, balance db1 !! s = balance db2 !! s) → db1 = db2.
Proof.
  intros H1 H2 Hb. rewrite H1, H2. f_equal. by apply map_eq.
Qed.

Lemma updateBalances_Ok_with_balance params db db' :
  updateBalances params db = Ok db' → db' = with_balance db (balance db').
Proof.
  intros Hok. rewrite <- (refreshed_Ok _ _ _ Hok). apply refreshed_with_balance.
Qed.

(** ** Idempotence of the refresh *)

(** C4. For a fixed ledger, running [updateBalances] twice in a row with
    the same ids (or none) leaves the store as one run does, whether the
    statement succeeds or fails; and the row a successful refresh writes
    for a subject replaces the whole old row and does not depend on what
    the snapshot table held before. *)
Theorem refresh_idempotent params db :
  refreshed params (refreshed params db) = refreshed params db
  ∧ (∀ db', updateBalances params db = Ok db' →
            updateBalances params db' = Ok db')
  ∧ (∀ db' b, updateBalances params db = Ok db' →
       ∃ db'', updateBalances params (with_balance db b) = Ok db''
         ∧ ∀ s, s ∈ (update_moneys params db).*1 →
                balance db'' !! s = balance db' !! s).
Proof.
  assert (∀ db' b, updateBalances params db = Ok db' →
            ∃ db'', updateBalances params (with_balance db b) = Ok db''
              ∧ ∀ s, balance db'' !! s =
                     if decide (s ∈ (update_moneys params db).*1)
                     then balance db' !! s else b !! s) as Hrow.
  { intros db' b Hok.
    destruct (proj2 (updateBalances_Ok_iff params (with_balance db b)))
      as [db'' Hok''].
    { apply (proj1 (updateBalances_Ok_iff params db)). by exists db'. }
    exists db''. split; [done|]. intros s.
    rewrite (updateBalances_Ok_lookup _ _ _ s Hok'').
    rewrite (updateBalances_Ok_lookup _ _ _ s Hok).
    change (has_delta_upto (with_balance db b) s
              (transactionMax (with_balance db b)) (transferMax (with_balance db b)))
      with (has_delta_upto db s (transactionMax db) (transferMax db)).
    change (written_row (with_balance db b) s) with (written_row db s).
    pose proof (update_moneys_written params db s).
    repeat case_decide; try done; tauto. }
  assert (∀ db', updateBalances params db = Ok db' →
                 updateBalances params db' = Ok db') as Htwice.
  { intros db' Hok.
    destruct (Hrow db' (balance db') Hok) as (db'' & Hok'' & Hl).
    rewrite <- (updateBalances_Ok_with_balance _ _ _ Hok) in Hok''.
    rewrite Hok''. f_equal.
    apply (with_balance_eq db).
    - pose proof (updateBalances_Ok_with_balance _ _ _ Hok'') as H1.
      pose proof (updateBalances_Ok_with_balance _ _ _ Hok) as H2.
      rewrite H1 at 1. by rewrite H2 at 1.
    - by apply (updateBalances_Ok_with_balance params).
    - intros s. rewrite Hl. by case_decide. }
  split; [|split; [done|]].
  - unfold refreshed at 2 3.
    destruct (updateBalances params db) as [db'|e] eqn:E.
    + apply refreshed_Ok. by apply Htwice.
    + by apply (refreshed_Err _ _ e).
  - intros db' b Hok. destruct (Hrow db' b Hok) as (db'' & Hok'' & Hl).
    exists db''. split; [done|]. intros s Hs. rewrite Hl. by rewrite decide_True.
Qed.

Lemma refresh_idempotent_witness :
  ∃ db'', updateBalances (Some [1; 3])
            (with_balance demo_db {[1 := mkBalance (Int 99) 0 0]}) = Ok db''
    ∧ ∀ s, s ∈ (update_moneys (Some [1; 3]) demo_db).*1 →
           balance db'' !! s = balance (refreshed (Some [1; 3]) demo_db) !! s.
Proof.
  apply (proj2 (proj2 (refresh_idempotent (Some [1; 3]) demo_db))).
  vm_compute. reflexivity.
Defined.

(** ** Cache transparency *)

Lemma demo_db_grown_append : ledger_append demo_db_refreshed demo_db_grown.
Proof.
  split.
  - reflexivity.
  - exists [mkTransaction 2 2]. split; [reflexivity|].
    repeat constructor.
  - exists [mkSubTransaction 2 2 1]. split; [reflexivity|].
    repeat constructor.
  - exists [mkSubTransactionRow 2 1 2 7]. split; [reflexivity|].
    repeat constructor. unfold on_st_str'. simpl. lia.
  - exists []. split; [reflexivity | constructor].
  - exists []. split; [reflexivity | constructor].
Defined.

Lemma demo_db_grown_reachable : reachable demo_db_grown.
Proof.
  apply (history_grow _ _ demo_db_refreshed); [|apply demo_db_grown_append].
  apply history_refresh. apply history_init; [|reflexivity].
  unfold ledger_positive. simpl. repeat constructor.
Defined.

Lemma cancel_db_reachable : reachable cancel_db.
Proof.
  apply (history_grow _ _ (refreshed None cancel_db_base)).
  - apply history_refresh. apply history_init; [|reflexivity].
    unfold ledger_positive. simpl. repeat constructor.
  - split.
    + vm_compute. reflexivity.
    + exists []. split; [reflexivity | constructor].
    + exists []. split; [reflexivity | constructor].
    + exists []. split; [reflexivity | constructor].
    + exists []. split; [reflexivity | constructor].
    + exists [mkTransfer 2 None (Some 1) int64_max; mkTransfer 3 None (Some 1) 1].
      split; [reflexivity|]. repeat constructor.
Defined.

Lemma brim_db_reachable : reachable brim_db.
Proof.
  apply (history_grow _ _ (refreshed None brim_db_base)).
  - apply history_refresh. apply history_init; [|reflexivity].
    unfold ledger_positive. simpl. repeat constructor.
  - split.
    + vm_compute. reflexivity.
    + exists []. split; [reflexivity | constructor].
    + exists []. split; [reflexivity | constructor].
    + exists []. split; [reflexivity | constructor].
    + exists []. split; [reflexivity | constructor].
    + exists [mkTransfer 2 None (Some 1) 1].
      split; [reflexivity|]. repeat constructor.
Defined.

(** C5, as stated, fails. In [demo_db_grown], a state the service reaches
    over append-only ledgers, the answer of [getBalance] for subject 1
    changes when the row of subject 1 is deleted: the checkpoints it
    reports go from those of the row to none. In [brim_db], another such
    state, the amount itself changes: with the row, the pending deposit
    of 1 is added to the cached 2^63 - 1 by [+], which carries on in
    floating point; without it, the two deposits overflow the sum and the
    read fails. *)
Lemma cache_transparency_fails :
  (reachable demo_db_grown
   ∧ getBalance 1 demo_db_grown
     = Ok (Some (mkBalanceResponse 1 (Int (-275)) (Some 1) (Some 2)))
   ∧ getBalance 1 (cleared (Some (OneId 1)) demo_db_grown)
     = Ok (Some (mkBalanceResponse 1 (Int (-275)) None None)))
  ∧ (reachable brim_db
     ∧ amount_of (getBalance 1 brim_db) = Ok (Some Real)
     ∧ amount_of (getBalance 1 (cleared (Some (OneId 1)) brim_db))
       = Err QueryFailedError).
Proof.
  split; (split; [|vm_compute; split; reflexivity]).
  - apply demo_db_grown_reachable.
  - apply brim_db_reachable.
Qed.

(** C5, amended. In a state the service reaches from an empty snapshot
    table by refreshes, invalidations and appends to ledgers with positive
    ids, and for a subject whose volume is at most 2^53, the amount
    returned by [getBalance] is the same before and after
    [clearBalanceCache] (for the subject's row, for any ids, or for the
    whole table), the ledger being unchanged in between: for a user it is
    the signed sum of all its deltas. *)
Theorem cache_transparency db ids s :
  reachable db →
  subject_volume db s ≤ safe_integer →
  amount_of (getBalance s (cleared ids db)) = amount_of (getBalance s db)
  ∧ (s ∈ user db →
     amount_of (getBalance s db) = Ok (Some (Int (ledger_total db s)))).
Proof.
  intros Hr Hvol.
  destruct (decide (s ∈ user db)) as [Hs|Hs].
  - rewrite (getBalance_reachable db s Hr Hs Hvol).
    rewrite (getBalance_reachable (cleared ids db) s).
    + by rewrite cleared_ledger_total.
    + by apply history_clear.
    + by rewrite cleared_user.
    + by rewrite cleared_subject_volume.
  - split; [|done].
    rewrite (getBalance_not_user db s Hs).
    rewrite (getBalance_not_user (cleared ids db) s); [done|].
    by rewrite cleared_user.
Qed.

Lemma cache_transparency_witness :
  amount_of (getBalance 1 (cleared (Some (OneId 1)) demo_db_grown))
  = amount_of (getBalance 1 demo_db_grown)
  ∧ (1 ∈ user demo_db_grown →
     amount_of (getBalance 1 demo_db_grown)
     = Ok (Some (Int (ledger_total demo_db_grown 1)))).
Proof.
  apply cache_transparency; [apply demo_db_grown_reachable|].
  vm_compute. discriminate.
Defined.

Example transparency_values_demo :
  amount_of (getBalance 1 demo_db_grown) = Ok (Some (Int (-275)))
  ∧ amount_of (getBalance 1 (cleared (Some (OneId 1)) demo_db_grown))
    = Ok (Some (Int (-275)))
  ∧ balance (cleared (Some (OneId 1)) demo_db_grown) !! 1 = None
  ∧ balance demo_db_grown !! 1 = Some (mkBalance (Int (-450)) 1 2).
Proof. vm_compute. repeat split. Qed.

(** ** Checkpoints never move backwards *)

Lemma evolves_maxima db db' :
  evolves maxima_grow db db' →
  transactionMax db ≤ transactionMax db' ∧ transferMax db ≤ transferMax db'.
Proof.
  induction 1 as [db|p db db' _ IH|ids db db' _ IH|db db' db'' _ IH Hg].
  - lia.
  - by autorewrite with ledger.
  - by autorewrite with ledger.
  - destruct Hg as (_ & Ht & Hf). lia.
Qed.

(** X19. In a history where the maximum ids never decrease, a refresh
    never replaces a row kept in the store by one with smaller
    checkpoints. *)
Lemma refresh_never_lowers_checkpoints db params s old new :
  reachable_mono db →
  balance db !! s = Some old →
  balance (refreshed params db) !! s = Some new →
  lastTransaction old ≤ lastTransaction new
  ∧ lastTransfer old ≤ lastTransfer new.
Proof.
  intros Hr Hold. apply (history_checkpoints_bounded _ maxima_grow) in Hr; [|done].
  destruct (Hr s old Hold) as [Ht Hf].
  destruct (refreshed_lookup_cases params db s) as [->|(v & -> & _)].
  - rewrite Hold. intros [= <-]. lia.
  - intros [= <-]. simpl. lia.
Qed.

(** C6. When the maximum ids of the ledgers never decrease, a row written
    by [updateBalances] carries checkpoints at least as large as those of
    any row an earlier [updateBalances] wrote for the same subject; a
    checkpoint is strictly larger when the ledger holds a row with an id
    above the earlier maximum, and equal when it holds none. *)
Theorem checkpoint_monotonicity db1 db1' db2 db2' p1 p2 s r1 r2 :
  updateBalances p1 db1 = Ok db1' →
  evolves maxima_grow db1' db2 →
  updateBalances p2 db2 = Ok db2' →
  s ∈ (update_moneys p1 db1).*1 →
  s ∈ (update_moneys p2 db2).*1 →
  balance db1' !! s = Some r1 →
  balance db2' !! s = Some r2 →
  lastTransaction r1 ≤ lastTransaction r2
  ∧ lastTransfer r1 ≤ lastTransfer r2
  ∧ (Exists (λ t, transactionMax db1 < t_id t) (transaction db2) →
     lastTransaction r1 < lastTransaction r2)
  ∧ (Forall (λ t, t_id t ≤ transactionMax db1) (transaction db2) →
     lastTransaction r2 = lastTransaction r1)
  ∧ (Exists (λ t, transferMax db1 < tr_id t) (transfer db2) →
     lastTransfer r1 < lastTransfer r2)
  ∧ (Forall (λ t, tr_id t ≤ transferMax db1) (transfer db2) →
     lastTransfer r2 = lastTransfer r1).
Proof.
  intros Hok1 Hev Hok2 Hw1 Hw2.
  apply evolves_maxima in Hev as [Ht Hf].
  rewrite <- (refreshed_Ok _ _ _ Hok1) in Ht, Hf.
  rewrite refreshed_transactionMax in Ht. rewrite refreshed_transferMax in Hf.
  destruct (updateBalances_Ok_in _ _ _ _ Hok1 Hw1) as (v1 & _ & ->).
  destruct (updateBalances_Ok_in _ _ _ _ Hok2 Hw2) as (v2 & _ & ->).
  intros [= <-] [= <-]. simpl.
  pose proof (transactionMax_nonneg db1). pose proof (transferMax_nonneg db1).
  repeat split; try done.
  - intros (t & Hin & Hlt)%Exists_exists.
    pose proof (transactionMax_ub db2 t Hin). lia.
  - intros Hall. rewrite Forall_forall in Hall.
    assert (transactionMax db2 ≤ transactionMax db1)
      by (apply transactionMax_least; [apply transactionMax_nonneg | done]).
    lia.
  - intros (t & Hin & Hlt)%Exists_exists.
    pose proof (transferMax_ub db2 t Hin). lia.
  - intros Hall. rewrite Forall_forall in Hall.
    assert (transferMax db2 ≤ transferMax db1)
      by (apply transferMax_least; [apply transferMax_nonneg | done]).
    lia.
Qed.

Lemma checkpoint_monotonicity_witness :
  1 ≤ 2 ∧ 2 ≤ 2
  ∧ (Exists (λ t, transactionMax demo_db < t_id t) (transaction demo_db_grown) →
     1 < 2)
  ∧ (Forall (λ t, t_id t ≤ transactionMax demo_db) (transaction demo_db_grown) →
     2 = 1)
  ∧ (Exists (λ t, transferMax demo_db < tr_id t) (transfer demo_db_grown) →
     2 < 2)
  ∧ (Forall (λ t, tr_id t ≤ transferMax demo_db) (transfer demo_db_grown) →
     2 = 2).
Proof.
  apply (checkpoint_monotonicity demo_db demo_db_refreshed demo_db_grown
           (refreshed None demo_db_grown) None None 1
           (mkBalance (Int (-450)) 1 2) (mkBalance (Int (-275)) 2 2)).
  - vm_compute. reflexivity.
  - apply (evolves_grow _ _ demo_db_refreshed); [apply evolves_refl|].
    split; [reflexivity|]. vm_compute. split; discriminate.
  - vm_compute. reflexivity.
  - vm_compute. left.
  - vm_compute. left.
  - vm_compute. reflexivity.
  - vm_compute. reflexivity.
Defined.

(** ** Refresh with a subject filter *)

(** C7, as stated, fails: subject 6 is requested and has aggregate 0, yet
    the statement succeeds without writing a row for it, since [group by]
    yields a row only for an id that occurs in [moneys]. *)
Lemma refresh_ids_skips_subject_without_deltas :
  updateBalances (Some [6]) demo_db = Ok demo_db
  ∧ ¬ (∀ s, s ∈ [6] →
       balance (refreshed (Some [6]) demo_db) !! s
       = Some (mkBalance
                 (Int (aggregate_upto demo_db s (transactionMax demo_db)
                                      (transferMax demo_db)))
                 (transactionMax demo_db) (transferMax demo_db))).
Proof.
  split; [vm_compute; reflexivity|].
  intros H. specialize (H 6 ltac:(left)). vm_compute in H. discriminate.
Qed.

(** C7, amended. [updateBalances] called with ids succeeds when the
    volume of every requested subject is at most 2^63 - 1; whenever it
    succeeds, a row with the exact aggregate and the checkpoints Tmax and
    Fmax is written for every requested subject whose volume is within
    that bound and that has a delta at or below the checkpoints, also when
    these deltas add up to zero; for a requested subject without such a
    delta no row is written and the table keeps what it held. *)
Theorem refresh_ids_writes_subjects_with_deltas ids db s :
  s ∈ ids →
  ((∀ u, u ∈ ids → subject_volume db u ≤ int64_max) →
   ∃ db', updateBalances (Some ids) db = Ok db')
  ∧ (∀ db', updateBalances (Some ids) db = Ok db' →
       subject_volume db s ≤ int64_max →
       has_delta_upto db s (transactionMax db) (transferMax db) →
       balance db' !! s
       = Some (mkBalance
                 (Int (aggregate_upto db s (transactionMax db) (transferMax db)))
                 (transactionMax db) (transferMax db)))
  ∧ (¬ has_delta_upto db s (transactionMax db) (transferMax db) →
     balance (refreshed (Some ids) db) !! s = balance db !! s).
Proof.
  intros Hs. split; [|split].
  - intros Hall. by apply updateBalances_succeeds.
  - intros db' Hok Hvol Hd. by apply (updateBalances_Ok_exact (Some ids)).
  - intros Hd. apply refreshed_notin. rewrite update_moneys_written. tauto.
Qed.

Lemma refresh_ids_writes_subjects_with_deltas_witness :
  (∃ db', updateBalances (Some [1]) zero_sum_db = Ok db')
  ∧ balance (refreshed (Some [1]) zero_sum_db) !! 1
    = Some (mkBalance
              (Int (aggregate_upto zero_sum_db 1 (transactionMax zero_sum_db)
                                   (transferMax zero_sum_db)))
              (transactionMax zero_sum_db) (transferMax zero_sum_db)).
Proof.
  pose proof (refresh_ids_writes_subjects_with_deltas [1] zero_sum_db 1
                ltac:(left)) as (Hsucc & Hrow & _).
  split.
  - apply Hsucc. intros u Hu. apply list_elem_of_singleton in Hu as ->.
    vm_compute. discriminate.
  - apply Hrow.
    + vm_compute. reflexivity.
    + vm_compute. discriminate.
    + right. apply Exists_exists.
      exists (mkDelta 1 1 (-100)). split; [|vm_compute; split; [done|discriminate]].
      apply list_elem_of_In. simpl. auto.
Defined.

(** A requested subject whose deltas cancel out gets a row with amount 0;
    the subject that was not requested gets none. *)
Example refresh_ids_zero_aggregate :
  balance (refreshed (Some [1]) zero_sum_db) !! 1 = Some (mkBalance (Int 0) 0 2)
  ∧ balance (refreshed (Some [1]) zero_sum_db) !! 2 = None.
Proof. vm_compute. by split. Qed.

(** ** Subjects without a row in the query result *)

Lemma user_row_id ids db u r : user_row ids db u = Ok r → rb_id r = u.
Proof.
  unfold user_row. destruct (sql_sum _); [|discriminate]. by intros [= <-].
Qed.

Lemma balance_query_rows ids db rows :
  balance_query ids db = Ok rows ↔
  Forall2 (λ u r, user_row ids db u = Ok r)
          (filter (in_ids ids) (users_ascending db)) rows.
Proof.
  unfold balance_query. by rewrite collect_Ok, list_eq_Forall2, Forall2_fmap.
Qed.

Lemma balance_query_ids ids db rows :
  balance_query ids db = Ok rows →
  rb_id <$> rows = filter (in_ids ids) (users_ascending db).
Proof.
  rewrite balance_query_rows. intros Hrows.
  rewrite <- (list_fmap_id (filter _ _)). symmetry.
  eapply Forall2_fmap_eq; [|exact Hrows].
  intros u r Hr. simpl in *. symmetry. exact (user_row_id _ _ _ _ Hr).
Qed.

Lemma getBalances_no_rows ids db :
  balance_query ids db = Ok [] → getBalances ids db = Err TypeError.
Proof. intros E. unfold getBalances. by rewrite E. Qed.

Lemma filter_in_ids_nil (l : list Z) : filter (in_ids (Some [])) l = [].
Proof.
  induction l as [|u l IH]; [done|].
  rewrite filter_cons_False; [done|]. simpl. apply not_elem_of_nil.
Qed.

(** C8, as stated, fails: the call with an empty set of ids does not
    return the empty mapping. *)
Lemma getBalances_empty_ids_not_ok : getBalances (Some []) demo_db ≠ Ok [].
Proof. vm_compute. discriminate. Qed.

(** C8, amended. [getBalances] called with an empty set of ids does not
    return an empty mapping: the query selects no user and the call ends
    in an error. *)
Theorem getBalances_empty_ids_fails db :
  ∃ e, getBalances (Some []) db = Err e.
Proof.
  exists TypeError. apply getBalances_no_rows.
  unfold balance_query. by rewrite filter_in_ids_nil.
Qed.

(** C10. For an id that is not in the user table, [getBalances] returns
    no entry with that id, and [getBalance] on it fails instead of
    answering the zero balance. *)
Theorem unknown_subject_has_no_balance db s :
  s ∉ user db →
  (∀ ids l, getBalances ids db = Ok l → s ∉ br_id <$> l)
  ∧ ∃ e, getBalance s db = Err e.
Proof.
  intros Hs. split.
  - intros ids l. unfold getBalances.
    destruct (balance_query ids db) as [rows|e] eqn:E; [|done].
    destruct (no_balance _) as [[|]|]; try done. intros [= <-].
    rewrite <- list_fmap_compose.
    change (br_id ∘ asBalanceResponse) with rb_id.
    rewrite (balance_query_ids _ _ _ E), list_elem_of_filter,
      elem_of_users_ascending. tauto.
  - exists TypeError. by apply getBalance_not_user.
Qed.

Lemma unknown_subject_has_no_balance_witness :
  (∀ ids l, getBalances ids demo_db = Ok l → 7 ∉ br_id <$> l)
  ∧ ∃ e, getBalance 7 demo_db = Err e.
Proof.
  apply unknown_subject_has_no_balance. simpl.
  rewrite !elem_of_union, !elem_of_singleton. lia.
Defined.

Example getBalances_skips_unknown_subject :
  getBalances (Some [6; 7]) demo_db
  = Ok [mkBalanceResponse 6 (Int 0) None None].
Proof. vm_compute. reflexivity. Qed.

(** ** Arithmetic: exact within range, and what happens beyond it *)

Lemma user_row_Err ids db u e : user_row ids db u = Err e → e = QueryFailedError.
Proof.
  unfold user_row, sql_sum.
  destruct (_.*2) as [|v l]; [discriminate|].
  destruct (sum_values (v :: l)) as [w|e'] eqn:E; [discriminate|].
  intros [= <-]. by apply sum_values_Err in E.
Qed.

(** A read of a user fails only with the overflow of the sum of its
    pending deltas, whose volume is then beyond the 64-bit range. *)
Lemma getBalance_Err db s e :
  s ∈ user db → getBalance s db = Err e →
  e = QueryFailedError ∧ int64_max < pending_volume db s.
Proof.
  intros Hs. rewrite getBalance_user by done.
  destruct (user_row (Some [s]) db s) as [r|e'] eqn:E; [discriminate|].
  intros [= <-]. split; [by apply user_row_Err in E|].
  destruct (Z_le_gt_dec (pending_volume db s) int64_max) as [Hle|Hgt]; [|lia].
  rewrite user_row_exact in E by (done || by left). discriminate.
Qed.

(** The overflow of the sum of one selected user fails the whole call. *)
Lemma getBalances_Err_user ids db u e :
  u ∈ user db → in_ids ids u → user_row ids db u = Err e →
  getBalances ids db = Err QueryFailedError.
Proof.
  intros Hu Hin Hrow. unfold getBalances.
  destruct (balance_query ids db) as [rows|e'] eqn:E.
  - exfalso. apply balance_query_rows in E.
    assert (u ∈ filter (in_ids ids) (users_ascending db)) as Hsel
      by (apply list_elem_of_filter; by rewrite elem_of_users_ascending).
    apply list_elem_of_lookup in Hsel as [n Hn].
    destruct (Forall2_lookup_l _ _ _ _ _ E Hn) as (r & _ & Hr).
    simpl in Hr. congruence.
  - f_equal. unfold balance_query in E. apply collect_Err_elem in E.
    apply list_elem_of_fmap in E as (v & Hv & _).
    symmetry in Hv. by apply user_row_Err in Hv.
Qed.

(** A refresh that fails has met a requested subject whose volume is
    beyond the 64-bit range. *)
Lemma updateBalances_Err_volume params db e :
  updateBalances params db = Err e →
  ∃ s, in_ids params s ∧ int64_max < subject_volume db s.
Proof.
  intros Herr.
  destruct (proj1 (updateBalances_Err params db)) as (s & Hs & Hv);
    [by exists e|].
  apply update_moneys_written in Hs as [Hin _].
  exists s. split; [done|].
  destruct (Z_le_gt_dec (subject_volume db s) int64_max) as [Hle|Hgt]; [|lia].
  rewrite update_group_sum in Hv by done. discriminate.
Qed.

(** C9, as stated, fails. In [real_db] the aggregate of subject 1 is
    -2^64, beyond the representable range: no error is signalled, the
    refresh stores a floating-point amount and the read returns one. In
    [round_db] the read returns the amount 2^53 + 1 rounded to 2^53. In
    [overflow_db] the overflow of subject 1 is not signalled per subject:
    the whole refresh fails and subject 2, whose aggregate is 5, gets no
    row. *)
Lemma arithmetic_beyond_range :
  (aggregate_upto real_db 1 (transactionMax real_db) (transferMax real_db)
   = - 18446744073709551616
   ∧ (∃ db', updateBalances None real_db = Ok db'
             ∧ amount <$> balance db' !! 1 = Some Real)
   ∧ amount_of (getBalance 1 real_db) = Ok (Some Real))
  ∧ (ledger_total round_db 1 = 9007199254740993
     ∧ amount_of (getBalance 1 round_db) = Ok (Some (Int 9007199254740992)))
  ∧ (updateBalances None overflow_db = Err QueryFailedError
     ∧ subject_volume overflow_db 2 = 5
     ∧ balance (refreshed None overflow_db) !! 2 = None).
Proof.
  split; [|split].
  - split; [vm_compute; reflexivity|]. split; [|vm_compute; reflexivity].
    exists (refreshed None real_db). vm_compute. split; reflexivity.
  - vm_compute. split; reflexivity.
  - vm_compute. repeat split; reflexivity.
Qed.

(** C9, amended. The arithmetic is exact integer arithmetic as long as
    it stays within range. A refresh that succeeds writes, for every
    subject it scans whose volume is at most 2^63 - 1, the exact
    aggregate. A refresh fails only with the overflow of a sum, only when
    the volume of a requested subject exceeds 2^63 - 1, and then as a
    whole: no row of any subject is written. A read of a user whose
    pending deltas have a volume of at most 2^63 - 1 and whose result is
    at most 2^53 in magnitude returns the exact integer; a read of a user
    fails only with the overflow of the sum of its pending deltas, whose
    volume then exceeds 2^63 - 1, and the overflow of one selected user
    fails the whole call of [getBalances]. *)
Theorem arithmetic_exact_within_range params db :
  (∀ db' s, updateBalances params db = Ok db' →
      s ∈ (update_moneys params db).*1 →
      subject_volume db s ≤ int64_max →
      amount <$> balance db' !! s
      = Some (Int (aggregate_upto db s (transactionMax db) (transferMax db))))
  ∧ (∀ e, updateBalances params db = Err e →
       e = QueryFailedError
       ∧ (∃ s, in_ids params s ∧ int64_max < subject_volume db s)
       ∧ ∀ s, balance (refreshed params db) !! s = balance db !! s)
  ∧ (∀ s c, s ∈ user db → cached_amount db s = Int c →
       pending_volume db s ≤ int64_max →
       Z.abs (c + pending_total db s) ≤ safe_integer →
       amount_of (getBalance s db) = Ok (Some (Int (c + pending_total db s))))
  ∧ (∀ s e, s ∈ user db → getBalance s db = Err e →
       e = QueryFailedError ∧ int64_max < pending_volume db s)
  ∧ (∀ ids u e, u ∈ user db → in_ids ids u → user_row ids db u = Err e →
       getBalances ids db = Err QueryFailedError).
Proof.
  split; [|split; [|split; [|split]]].
  - intros db' s Hok Hs Hvol.
    apply update_moneys_written in Hs as [Hin Hd].
    by rewrite (updateBalances_Ok_exact params db db' s).
  - intros e Herr. split; [by apply updateBalances_Err_kind in Herr|].
    split; [by apply updateBalances_Err_volume in Herr|].
    intros s. by rewrite (refreshed_Err _ _ _ Herr).
  - intros s c Hs Hc Hvol Hsafe. by rewrite (getBalance_exact db s c).
  - intros s e. apply getBalance_Err.
  - intros ids u e. apply getBalances_Err_user.
Qed.

Lemma arithmetic_exact_within_range_witness :
  (QueryFailedError = QueryFailedError
   ∧ (∃ s, in_ids None s ∧ int64_max < subject_volume overflow_db s)
   ∧ ∀ s, balance (refreshed None overflow_db) !! s = balance overflow_db !! s)
  ∧ amount <$> balance demo_db_refreshed !! 2
    = Some (Int (aggregate_upto demo_db 2 (transactionMax demo_db)
                                (transferMax demo_db)))
  ∧ amount_of (getBalance 1 demo_db_grown)
    = Ok (Some (Int (-450 + pending_total demo_db_grown 1))).
Proof.
  split; [|split].
  - apply (proj1 (proj2 (arithmetic_exact_within_range None overflow_db))).
    vm_compute. reflexivity.
  - apply (proj1 (arithmetic_exact_within_range None demo_db)).
    + vm_compute. reflexivity.
    + vm_compute. right. left.
    + vm_compute. discriminate.
  - apply (proj1 (proj2 (proj2 (arithmetic_exact_within_range None demo_db_grown)))).
    + simpl. rewrite !elem_of_union, !elem_of_singleton. lia.
    + vm_compute. reflexivity.
    + vm_compute. discriminate.
    + vm_compute. discriminate.
Defined.

(** * Further properties of the service *)

(** ** Refreshing part of the table *)

(** X1. [updateBalances] called with ids leaves the snapshot row of every
    subject that is not among the ids as it was, whether the statement
    succeeds or fails. *)
Theorem refresh_ids_leaves_other_subjects ids db s :
  s ∉ ids → balance (refreshed (Some ids) db) !! s = balance db !! s.
Proof.
  intros Hs. apply refreshed_notin. rewrite update_moneys_written.
  simpl. tauto.
Qed.

Lemma refresh_ids_leaves_other_subjects_witness :
  balance (refreshed (Some [1; 3]) demo_db) !! 2 = balance demo_db !! 2.
Proof.
  apply refresh_ids_leaves_other_subjects.
  rewrite !not_elem_of_cons. repeat split; [lia | lia | apply not_elem_of_nil].
Defined.

(** X2. When [updateBalances] without ids succeeds, [updateBalances] with
    ids succeeds too and writes, for every requested subject, the same
    row. *)
Theorem refresh_ids_agrees_with_full_refresh ids db dbN :
  updateBalances None db = Ok dbN →
  ∃ dbI, updateBalances (Some ids) db = Ok dbI
         ∧ ∀ s, s ∈ ids → balance dbI !! s = balance dbN !! s.
Proof.
  intros HokN.
  destruct (proj2 (updateBalances_Ok_iff (Some ids) db)) as [dbI HokI].
  { intros s _ Hd.
    apply (proj1 (updateBalances_Ok_iff None db)); [by exists dbN | done | done]. }
  exists dbI. split; [done|]. intros s Hs.
  rewrite (updateBalances_Ok_lookup _ _ _ s HokI).
  rewrite (updateBalances_Ok_lookup _ _ _ s HokN). simpl.
  repeat case_decide; try done; tauto.
Qed.

Lemma refresh_ids_agrees_with_full_refresh_witness :
  ∃ dbI, updateBalances (Some [1; 3]) demo_db = Ok dbI
         ∧ ∀ s, s ∈ [1; 3] → balance dbI !! s = balance demo_db_refreshed !! s.
Proof.
  apply refresh_ids_agrees_with_full_refresh. vm_compute. reflexivity.
Defined.

(** Without that premise the two differ: in [overflow_db] the refresh of
    subject 2 writes its row while the refresh of all subjects fails and
    writes none. *)
Example refresh_ids_succeeds_where_full_refresh_fails :
  balance (refreshed (Some [2]) overflow_db) !! 2 = Some (mkBalance (Int 5) 0 3)
  ∧ balance (refreshed None overflow_db) !! 2 = None.
Proof. vm_compute. split; reflexivity. Qed.

(** X3. When the refresh of the concatenation of two lists of ids
    succeeds, so do the refresh of the first list and then that of the
    second, and they give the same database. *)
Theorem refresh_in_batches ids1 ids2 db db' :
  updateBalances (Some (ids1 ++ ids2)) db = Ok db' →
  ∃ db1, updateBalances (Some ids1) db = Ok db1
         ∧ updateBalances (Some ids2) db1 = Ok db'.
Proof.
  intros Hok.
  pose proof (proj1 (updateBalances_Ok_iff (Some (ids1 ++ ids2)) db)
                (ex_intro _ db' Hok)) as Hall.
  destruct (proj2 (updateBalances_Ok_iff (Some ids1) db)) as [db1 Hok1].
  { intros s Hin Hd. apply Hall; [|done]. simpl in *. rewrite elem_of_app. by left. }
  pose proof (updateBalances_Ok_with_balance _ _ _ Hok1) as Hdb1.
  destruct (proj2 (updateBalances_Ok_iff (Some ids2) db1)) as [db2 Hok2].
  { intros s Hin. rewrite Hdb1.
    change (written_row (with_balance db (balance db1)) s) with (written_row db s).
    intros Hd. apply Hall; [|done]. simpl in *. rewrite elem_of_app. by right. }
  exists db1. split; [done|]. rewrite Hok2. f_equal.
  apply (with_balance_eq db).
  - pose proof (updateBalances_Ok_with_balance _ _ _ Hok2) as H2.
    rewrite H2 at 1. by rewrite Hdb1 at 1.
  - by apply (updateBalances_Ok_with_balance (Some (ids1 ++ ids2))).
  - intros s. rewrite Hdb1 in Hok2.
    rewrite (updateBalances_Ok_lookup_over _ _ _ _ s Hok2).
    rewrite (updateBalances_Ok_lookup _ _ _ s Hok).
    rewrite (updateBalances_Ok_lookup _ _ _ s Hok1). simpl.
    repeat case_decide; try done; exfalso;
      destruct_and?; rewrite elem_of_app in *; tauto.
Qed.

Lemma refresh_in_batches_witness :
  ∃ db1, updateBalances (Some [1; 3]) demo_db = Ok db1
         ∧ updateBalances (Some [2; 5]) db1
           = Ok (refreshed (Some ([1; 3] ++ [2; 5])) demo_db).
Proof. apply refresh_in_batches. vm_compute. reflexivity. Defined.

(** X4. When a refresh without ids succeeds, any refresh before it,
    failed or not, is redundant. *)
Theorem full_refresh_absorbs params db dbN :
  updateBalances None db = Ok dbN →
  updateBalances None (refreshed params db) = Ok dbN.
Proof.
  intros HokN.
  pose proof (refreshed_with_balance params db) as Hdb1.
  destruct (proj2 (updateBalances_Ok_iff None (refreshed params db)))
    as [db2 Hok2].
  { intros s _. rewrite Hdb1.
    change (written_row (with_balance db (balance (refreshed params db))) s)
      with (written_row db s).
    apply (proj1 (updateBalances_Ok_iff None db)); [by exists dbN | done]. }
  rewrite Hok2. f_equal.
  apply (with_balance_eq db).
  - pose proof (updateBalances_Ok_with_balance _ _ _ Hok2) as H2.
    rewrite H2 at 1. by rewrite Hdb1 at 1.
  - by apply (updateBalances_Ok_with_balance None).
  - intros s. rewrite Hdb1 in Hok2.
    rewrite (updateBalances_Ok_lookup_over _ _ _ _ s Hok2).
    rewrite (updateBalances_Ok_lookup _ _ _ s HokN).
    case_decide as Hw; [done|].
    apply refreshed_notin. rewrite update_moneys_written.
    simpl in Hw. tauto.
Qed.

Lemma full_refresh_absorbs_witness :
  updateBalances None (refreshed (Some [1; 3]) demo_db) = Ok demo_db_refreshed.
Proof. apply full_refresh_absorbs. vm_compute. reflexivity. Defined.

(** X5. [updateBalances] with an empty list of ids succeeds and changes
    nothing. *)
Theorem refresh_empty_ids_is_noop db : updateBalances (Some []) db = Ok db.
Proof.
  destruct (proj2 (updateBalances_Ok_iff (Some []) db)) as [db' Hok].
  { intros s Hs. by apply elem_of_nil in Hs. }
  rewrite Hok. f_equal. apply (with_balance_eq db).
  - by apply (updateBalances_Ok_with_balance (Some [])).
  - by rewrite with_balance_same.
  - intros s. rewrite (updateBalances_Ok_lookup _ _ _ s Hok).
    rewrite decide_False; [done|]. simpl. intros [Hs _]. by apply elem_of_nil in Hs.
Qed.

(** X6. [updateBalances] never removes a snapshot row. *)
Theorem refresh_never_deletes params db s :
  is_Some (balance db !! s) →
  is_Some (balance (refreshed params db) !! s).
Proof.
  intros Hs.
  destruct (refreshed_lookup_cases params db s) as [->|(v & -> & _)]; [done|].
  by eexists.
Qed.

Lemma refresh_never_deletes_witness :
  is_Some (balance (refreshed (Some [2]) demo_db_grown) !! 5).
Proof.
  apply refresh_never_deletes. vm_compute. eexists. reflexivity.
Defined.

(** ** Invalidation *)

(** X7. What [clearBalanceCache] leaves of the table: nothing without
    argument and nothing for the id 0, which [if (ids)] takes for an
    absent argument; for another id every row but that one; for an array
    every row whose key is not in it. The call is rejected for the empty
    array and for nothing else, and then leaves the table as it is. *)
Theorem clearBalanceCache_rows ids db s :
  balance (cleared ids db) !! s =
  match ids with
  | None => None
  | Some (OneId id) =>
      if decide (id = 0) then None
      else if decide (s = id) then None else balance db !! s
  | Some (ManyIds l) => if decide (s ∈ l) then None else balance db !! s
  end
  ∧ ((∃ e, clearBalanceCache ids db = Err e) ↔ ids = Some (ManyIds [])).
Proof.
  split; [apply cleared_lookup|].
  unfold clearBalanceCache.
  destruct ids as [[id|[|i l]]|]; simpl; try destruct (negb _);
    split; try done; try (by intros [e He]); try (by eexists).
Qed.

Example clearBalanceCache_empty_array :
  clearBalanceCache (Some (ManyIds [])) demo_db_grown = Err TypeORMError
  ∧ cleared (Some (ManyIds [])) demo_db_grown = demo_db_grown.
Proof. split; reflexivity. Qed.

(** X8. Starting from an empty table, a full refresh rebuilds whatever an
    invalidation removed from the result of a full refresh. *)
Theorem full_refresh_restores ids db :
  balance db = ∅ →
  refreshed None (cleared ids (refreshed None db)) = refreshed None db.
Proof.
  intros Hempty.
  destruct (updateBalances None db) as [dbN|e] eqn:E.
  - rewrite (refreshed_Ok _ _ _ E).
    pose proof (updateBalances_Ok_with_balance _ _ _ E) as HdbN.
    pose proof (cleared_with_balance ids dbN) as Hc.
    rewrite HdbN in Hc at 2.
    change (with_balance (with_balance db (balance dbN)) (balance (cleared ids dbN)))
      with (with_balance db (balance (cleared ids dbN))) in Hc.
    destruct (proj2 (updateBalances_Ok_iff None (cleared ids dbN))) as [db2 Hok2].
    { intros s _. rewrite Hc.
      change (written_row (with_balance db (balance (cleared ids dbN))) s)
        with (written_row db s).
      apply (proj1 (updateBalances_Ok_iff None db)); [by exists dbN | done]. }
    rewrite (refreshed_Ok _ _ _ Hok2).
    apply (with_balance_eq db).
    + pose proof (updateBalances_Ok_with_balance _ _ _ Hok2) as H2.
      rewrite H2 at 1. by rewrite Hc at 1.
    + done.
    + intros s. rewrite Hc in Hok2.
      rewrite (updateBalances_Ok_lookup_over _ _ _ _ s Hok2).
      rewrite (updateBalances_Ok_lookup _ _ _ s E).
      case_decide as Hw; [done|].
      destruct (cleared_lookup_cases ids dbN s) as [->| ->].
      * by rewrite Hempty, lookup_empty.
      * rewrite (updateBalances_Ok_lookup _ _ _ s E). by rewrite decide_False.
  - rewrite (refreshed_Err _ _ _ E).
    assert (cleared ids db = db) as ->.
    { apply (with_balance_eq db).
      - apply cleared_with_balance.
      - by rewrite with_balance_same.
      - intros s. destruct (cleared_lookup_cases ids db s) as [->| ->]; [|done].
        by rewrite Hempty, lookup_empty. }
    by apply (refreshed_Err _ _ e).
Qed.

Lemma full_refresh_restores_witness :
  refreshed None (cleared (Some (ManyIds [1; 4])) (refreshed None demo_db))
  = refreshed None demo_db.
Proof. apply full_refresh_restores. reflexivity. Defined.

(** ** Reading several balances at once *)

Lemma StronglySorted_filter {A : Type} (R : relation A) (P : A → Prop)
    `{∀ a, Decision (P a)} (l : list A) :
  StronglySorted R l → StronglySorted R (filter P l).
Proof.
  induction 1 as [|a l _ IH Hall]; [constructor|].
  rewrite filter_cons. destruct (decide (P a)); [|done].
  constructor; [done|]. rewrite Forall_forall in *.
  intros b Hb. apply list_elem_of_filter in Hb as [_ Hb]. by apply Hall.
Qed.

Lemma getBalances_Ok ids db l :
  getBalances ids db = Ok l ↔
  ∃ rows, balance_query ids db = Ok rows ∧ rows ≠ []
          ∧ l = asBalanceResponse <$> rows.
Proof.
  unfold getBalances.
  destruct (balance_query ids db) as [[|r rows]|e]; simpl; split;
    try discriminate.
  - intros (rows & [= <-] & Hne & _). done.
  - intros [= <-]. by eexists.
  - intros (rows' & [= <-] & _ & ->). done.
  - intros (rows' & ? & _). discriminate.
Qed.

(** The entry of a selected user in a successful [getBalances] is the
    answer of [getBalance] for it. *)
Lemma getBalances_entry ids db l u :
  getBalances ids db = Ok l → u ∈ user db → in_ids ids u →
  ∃ b, b ∈ l ∧ br_id b = u ∧ getBalance u db = Ok (Some b).
Proof.
  rewrite getBalances_Ok. intros (rows & Hq & _ & ->) Hu Hin.
  apply balance_query_rows in Hq.
  assert (u ∈ filter (in_ids ids) (users_ascending db)) as Hsel
    by (apply list_elem_of_filter; by rewrite elem_of_users_ascending).
  apply list_elem_of_lookup in Hsel as [n Hn].
  destruct (Forall2_lookup_l _ _ _ _ _ Hq Hn) as (r & Hr & Hrow).
  simpl in Hrow. exists (asBalanceResponse r). split; [|split].
  - apply list_elem_of_fmap_2. by eapply list_elem_of_lookup_2.
  - simpl. by eapply user_row_id.
  - rewrite getBalance_user by done.
    rewrite user_row_ids by (by left).
    rewrite user_row_ids in Hrow by done. by rewrite Hrow.
Qed.

(** X9. A successful [getBalances] answers with one entry per user of the
    [user] table that the ids select (every user without ids), in
    ascending order of the ids, each entry being the answer of
    [getBalance] for that user; it succeeds when at least one user is
    selected and the pending deltas of every selected user have a volume
    of at most 2^63 - 1; when no user is selected the call fails in the
    guard with a TypeError, and the error 'No balance returned' is never
    raised. *)
Theorem getBalances_one_entry_per_selected_user ids db :
  (∀ l, getBalances ids db = Ok l →
     br_id <$> l = filter (in_ids ids) (users_ascending db)
     ∧ StronglySorted Z.le (br_id <$> l)
     ∧ NoDup (br_id <$> l)
     ∧ ∀ b, b ∈ l → getBalance (br_id b) db = Ok (Some b))
  ∧ (filter (in_ids ids) (users_ascending db) ≠ [] →
     (∀ u, u ∈ user db → in_ids ids u → pending_volume db u ≤ int64_max) →
     ∃ l, getBalances ids db = Ok l)
  ∧ (filter (in_ids ids) (users_ascending db) = [] →
     getBalances ids db = Err TypeError)
  ∧ getBalances ids db ≠ Err NoBalanceReturned.
Proof.
  split; [|split; [|split]].
  - intros l Hl. pose proof Hl as (rows & Hq & _ & ->)%getBalances_Ok.
    assert (br_id <$> (asBalanceResponse <$> rows)
            = filter (in_ids ids) (users_ascending db)) as Hids.
    { rewrite <- list_fmap_compose.
      change (br_id ∘ asBalanceResponse) with rb_id.
      by apply balance_query_ids. }
    rewrite Hids. split; [done|]. split; [|split].
    + apply StronglySorted_filter, users_ascending_sorted.
    + apply NoDup_filter, NoDup_users_ascending.
    + intros b Hb.
      assert (br_id b ∈ filter (in_ids ids) (users_ascending db)) as Hsel
        by (rewrite <- Hids; by apply list_elem_of_fmap_2).
      apply list_elem_of_filter in Hsel as [Hin Hu].
      apply elem_of_users_ascending in Hu.
      destruct (getBalances_entry ids db _ (br_id b) Hl Hu Hin)
        as (b' & Hb' & Hid & Hget).
      rewrite Hget. do 2 f_equal.
      apply list_elem_of_fmap in Hb as (r & -> & Hr).
      apply list_elem_of_fmap in Hb' as (r' & -> & Hr').
      f_equal.
      apply list_elem_of_lookup in Hr as [n Hn].
      apply list_elem_of_lookup in Hr' as [n' Hn'].
      assert (NoDup (rb_id <$> rows)) as Hnd.
      { rewrite (balance_query_ids _ _ _ Hq).
        apply NoDup_filter, NoDup_users_ascending. }
      assert (n' = n) as ->.
      { eapply NoDup_lookup; [exact Hnd| |];
          rewrite list_lookup_fmap; [rewrite Hn'|rewrite Hn]; simpl; [|done].
        f_equal. exact Hid. }
      congruence.
  - intros Hne Hvol.
    destruct (balance_query ids db) as [rows|e] eqn:E.
    + exists (asBalanceResponse <$> rows). apply getBalances_Ok.
      exists rows. split; [done|]. split; [|done].
      intros ->. apply balance_query_ids in E. by rewrite <- E in Hne.
    + exfalso. unfold balance_query in E. apply collect_Err_elem in E.
      apply list_elem_of_fmap in E as (u & Hrow & Hsel).
      apply list_elem_of_filter in Hsel as [Hin Hu].
      apply elem_of_users_ascending in Hu.
      rewrite user_row_exact in Hrow by (done || by apply Hvol). discriminate.
  - intros Hnil. unfold getBalances, balance_query. by rewrite Hnil.
  - unfold getBalances.
    destruct (balance_query ids db) as [[|r rows]|e] eqn:E; try done.
    unfold balance_query in E. apply collect_Err_elem in E.
    apply list_elem_of_fmap in E as (u & Hrow & _).
    symmetry in Hrow. apply user_row_Err in Hrow. by subst e.
Qed.

Lemma getBalances_one_entry_per_selected_user_witness :
  ∃ l, getBalances (Some [4; 1; 7]) demo_db_grown = Ok l.
Proof.
  apply (proj1 (proj2 (getBalances_one_entry_per_selected_user
                         (Some [4; 1; 7]) demo_db_grown))).
  - vm_compute. discriminate.
  - intros u Hu Hin. simpl in Hin.
    rewrite !elem_of_cons, elem_of_nil in Hin.
    destruct Hin as [->|[->|[->|[]]]]; vm_compute; discriminate.
Defined.

Example getBalances_ascending :
  getBalances (Some [4; 1; 7]) demo_db_grown
  = Ok [mkBalanceResponse 1 (Int (-275)) (Some 1) (Some 2);
        mkBalanceResponse 4 (Int 1000) (Some 1) (Some 2)].
Proof. vm_compute. reflexivity. Qed.

(** X10. When [getBalances] succeeds, a user selected by the ids gets
    from it the very entry that [getBalance] returns for it. *)
Theorem getBalances_agrees_with_getBalance ids db l u :
  getBalances ids db = Ok l → u ∈ user db → in_ids ids u →
  ∃ b, b ∈ l ∧ getBalance u db = Ok (Some b).
Proof.
  intros Hl Hu Hin.
  destruct (getBalances_entry ids db l u Hl Hu Hin) as (b & Hb & _ & Hget).
  by exists b.
Qed.

Lemma getBalances_agrees_with_getBalance_witness :
  ∃ b, b ∈ [mkBalanceResponse 1 (Int (-275)) (Some 1) (Some 2);
            mkBalanceResponse 4 (Int 1000) (Some 1) (Some 2)]
       ∧ getBalance 1 demo_db_grown = Ok (Some b).
Proof.
  apply (getBalances_agrees_with_getBalance (Some [7; 1; 1; 4]) demo_db_grown).
  - vm_compute. reflexivity.
  - simpl. rewrite !elem_of_union, !elem_of_singleton. lia.
  - simpl. right. left.
Defined.

(** Without that premise the two differ: in [overflow_db] the read of all
    users fails with the sum of user 1 while the read of user 2 alone
    answers. *)
Example getBalances_fails_where_getBalance_answers :
  getBalances None overflow_db = Err QueryFailedError
  ∧ getBalance 2 overflow_db
    = Ok (Some (mkBalanceResponse 2 (Int 5) None None)).
Proof. vm_compute. split; reflexivity. Qed.

Lemma filter_iff_elem {A : Type} (P Q : A → Prop) `{∀ a, Decision (P a)}
    `{∀ a, Decision (Q a)} (l : list A) :
  (∀ a, a ∈ l → (P a ↔ Q a)) → filter P l = filter Q l.
Proof.
  induction l as [|a l IH]; intros Hl; [done|].
  rewrite !filter_cons, IH by (intros b Hb; apply Hl; by right).
  destruct (Hl a ltac:(left)).
  destruct (decide (P a)), (decide (Q a)); tauto.
Qed.

(** X11. Only the requested ids that are users matter to [getBalances]:
    order, repetitions and ids outside the [user] table make no
    difference. *)
Theorem getBalances_ids_as_set ids1 ids2 db :
  (∀ u, u ∈ user db → (u ∈ ids1 ↔ u ∈ ids2)) →
  getBalances (Some ids1) db = getBalances (Some ids2) db.
Proof.
  intros Hsame. unfold getBalances, balance_query.
  rewrite (filter_iff_elem (in_ids (Some ids1)) (in_ids (Some ids2)));
    last first.
  { intros u Hu. apply Hsame. by apply elem_of_users_ascending. }
  assert (user_row (Some ids1) db <$> filter (in_ids (Some ids2)) (users_ascending db)
          = user_row (Some ids2) db <$> filter (in_ids (Some ids2)) (users_ascending db))
    as ->; [|done].
  apply list_fmap_ext. intros i u Hu.
  apply list_elem_of_lookup_2, list_elem_of_filter in Hu as [Hin Hu].
  apply elem_of_users_ascending in Hu.
  rewrite (user_row_ids (Some ids1)) by (by apply Hsame).
  by rewrite (user_row_ids (Some ids2)).
Qed.

Lemma getBalances_ids_as_set_witness :
  getBalances (Some [7; 1; 1; 4]) demo_db_grown
  = getBalances (Some [4; 1]) demo_db_grown.
Proof.
  apply getBalances_ids_as_set. intros u. simpl.
  rewrite !elem_of_union, !elem_of_singleton, !elem_of_cons, !elem_of_nil. lia.
Defined.

(** ** Reads and refreshes *)

Lemma transaction_deltas_within db d :
  sub_transactions_attached db → d ∈ transaction_deltas db →
  d_ledgerId d ≤ transactionMax db.
Proof.
  intros Hfk Hd. unfold sub_transactions_attached in Hfk.
  rewrite Forall_forall in Hfk. unfold transaction_deltas in Hd.
  rewrite elem_of_app, !list_elem_of_fmap in Hd.
  destruct Hd as [([[[t st] str] pr] & -> & Hx)|([[st str] pr] & -> & Hx)]; simpl.
  - apply elem_of_payer_join in Hx. apply transactionMax_ub. tauto.
  - apply elem_of_recipient_join in Hx. destruct Hx as (Hst & _).
    specialize (Hfk st Hst). apply Exists_exists in Hfk as (t & Ht & <-).
    by apply transactionMax_ub.
Qed.

Lemma transfer_deltas_within db d :
  d ∈ transfer_deltas db → d_ledgerId d ≤ transferMax db.
Proof.
  intros (t & Ht & _ & ->)%elem_of_transfer_deltas. by apply transferMax_ub.
Qed.

Lemma pending_after_maxima db s :
  sub_transactions_attached db →
  pending_after db s (transactionMax db) (transferMax db) = 0.
Proof.
  intros Hfk. unfold pending_after.
  rewrite !sum_where_none; [done| |]; apply Forall_forall; intros d Hd [_ Hgt].
  - pose proof (transfer_deltas_within db d Hd). lia.
  - pose proof (transaction_deltas_within db d Hfk Hd). lia.
Qed.

Lemma aggregate_at_maxima db s :
  sub_transactions_attached db →
  aggregate_upto db s (transactionMax db) (transferMax db) = ledger_total db s.
Proof.
  intros Hfk. rewrite <- (aggregate_plus_pending db s (transactionMax db)
                            (transferMax db)).
  rewrite pending_after_maxima by done. lia.
Qed.

Lemma aggregate_upto_volume db s c1 c2 :
  Z.abs (aggregate_upto db s c1 c2) ≤ subject_volume db s.
Proof.
  unfold aggregate_upto, subject_volume.
  pose proof (sum_where_abs (λ d, d_subject d = s ∧ d_ledgerId d ≤ c1) d_amount
                (transaction_deltas db)).
  pose proof (sum_where_abs (λ d, d_subject d = s ∧ d_ledgerId d ≤ c2) d_amount
                (transfer_deltas db)).
  pose proof (λ P Q HP HQ l, sum_where_mono (A:=Delta) P Q (H:=HP) (H0:=HQ)
                d_magnitude l (λ d, Z.abs_nonneg _)) as Hmono.
  pose proof (Hmono (λ d, d_subject d = s ∧ d_ledgerId d ≤ c1)
                (λ d, d_subject d = s) _ _ (transaction_deltas db)
                ltac:(simpl; tauto)).
  pose proof (Hmono (λ d, d_subject d = s ∧ d_ledgerId d ≤ c2)
                (λ d, d_subject d = s) _ _ (transfer_deltas db)
                ltac:(simpl; tauto)).
  unfold d_magnitude in *. lia.
Qed.

(** X12. When sub-transactions reference stored transactions, a read
    right after a successful refresh that covers the subject finds nothing
    pending: for a subject whose volume is at most 2^53, [getBalance]
    returns the amount just cached, with the maximum ids as
    checkpoints. *)
Theorem read_after_refresh_is_cached params db db' u :
  sub_transactions_attached db → u ∈ user db →
  in_ids params u → has_ledger_entry db u →
  subject_volume db u ≤ safe_integer →
  updateBalances params db = Ok db' →
  getBalance u db' =
  Ok (Some (mkBalanceResponse u
    (Int (aggregate_upto db u (transactionMax db) (transferMax db)))
    (Some (transactionMax db)) (Some (transferMax db)))).
Proof.
  intros Hfk Hu Hin Hentry Hvol Hok.
  pose proof safe_integer_int64.
  pose proof (updateBalances_Ok_exact params db db' u Hok Hin
                (has_ledger_entry_within_maxima db u Hentry) ltac:(lia)) as Hrow.
  pose proof (refreshed_Ok _ _ _ Hok) as Hdb'.
  assert (pending_total db' u = 0) as Hpt.
  { unfold pending_total, lastProcessedTransaction, lastProcessedTransfer.
    rewrite Hrow. simpl. rewrite <- Hdb'. unfold pending_after.
    rewrite refreshed_transaction_deltas, refreshed_transfer_deltas.
    by apply (pending_after_maxima db u). }
  pose proof (pending_volume_le db' u) as Hpv.
  rewrite <- Hdb' in Hpv at 2. rewrite refreshed_subject_volume in Hpv.
  pose proof (aggregate_upto_volume db u (transactionMax db) (transferMax db)).
  rewrite (getBalance_exact db' u
             (aggregate_upto db u (transactionMax db) (transferMax db))).
  - unfold balance_of_user. rewrite Hpt, Hrow. simpl. do 4 f_equal. lia.
  - by rewrite <- Hdb', refreshed_user.
  - unfold cached_amount. by rewrite Hrow.
  - lia.
  - rewrite Hpt. lia.
Qed.

Lemma read_after_refresh_is_cached_witness :
  getBalance 2 (refreshed (Some [2]) demo_db) =
  Ok (Some (mkBalanceResponse 2
    (Int (aggregate_upto demo_db 2 (transactionMax demo_db) (transferMax demo_db)))
    (Some (transactionMax demo_db)) (Some (transferMax demo_db)))).
Proof.
  apply (read_after_refresh_is_cached (Some [2])).
  - unfold sub_transactions_attached. simpl. repeat constructor.
  - simpl. rewrite !elem_of_union, !elem_of_singleton. lia.
  - simpl. left.
  - left. exists (mkTransaction 1 1), (mkSubTransaction 1 1 2),
      (mkSubTransactionRow 1 3 1 7), (mkProductRevision 7 1 150).
    split; [|by right]. unfold transaction_row. simpl.
    repeat split; apply list_elem_of_In; simpl; auto.
  - vm_compute. discriminate.
  - vm_compute. reflexivity.
Defined.

(** X13. In every state of the service over append-only ledgers, a
    refresh, with or without ids, failed or not, changes no amount that
    [getBalance] returns for a subject whose volume is at most 2^53. *)
Theorem refresh_keeps_balances params db s :
  reachable db →
  subject_volume db s ≤ safe_integer →
  amount_of (getBalance s (refreshed params db))
  = amount_of (getBalance s db).
Proof.
  intros Hr Hvol. destruct (decide (s ∈ user db)) as [Hs|Hs].
  - rewrite (getBalance_reachable db s Hr Hs Hvol).
    rewrite (getBalance_reachable (refreshed params db) s).
    + by rewrite refreshed_ledger_total.
    + by apply history_refresh.
    + by rewrite refreshed_user.
    + by rewrite refreshed_subject_volume.
  - rewrite (getBalance_not_user db s Hs).
    rewrite (getBalance_not_user (refreshed params db) s); [done|].
    by rewrite refreshed_user.
Qed.

Lemma refresh_keeps_balances_witness :
  amount_of (getBalance 1 (refreshed (Some [1; 2]) demo_db_grown))
  = amount_of (getBalance 1 demo_db_grown).
Proof.
  apply refresh_keeps_balances; [apply demo_db_grown_reachable|].
  vm_compute. discriminate.
Defined.

(** Beyond that volume a refresh can change what a read returns: in
    [cancel_db] the read fails before the refresh, on the overflow of the
    pending deposits, and answers after it, the refresh having met the
    payment of 5 before the two deposits. *)
Example refresh_changes_read_beyond_range :
  reachable cancel_db
  ∧ amount_of (getBalance 1 cancel_db) = Err QueryFailedError
  ∧ amount_of (getBalance 1 (refreshed None cancel_db))
    = Ok (Some (Int 9223372036854775808)).
Proof.
  split; [apply cancel_db_reachable|]. vm_compute. split; reflexivity.
Qed.

(** X14. In every state of the service over append-only ledgers, whatever
    the snapshot table holds, [getBalance] returns for a user whose
    volume is at most 2^53 the signed sum of all its deltas. *)
Theorem live_read_is_ledger_total db s :
  reachable db → s ∈ user db →
  subject_volume db s ≤ safe_integer →
  amount_of (getBalance s db) = Ok (Some (Int (ledger_total db s))).
Proof. intros Hr Hs Hvol. by rewrite (getBalance_reachable db s Hr Hs Hvol). Qed.

Lemma live_read_is_ledger_total_witness :
  amount_of (getBalance 1 demo_db_grown)
  = Ok (Some (Int (ledger_total demo_db_grown 1))).
Proof.
  apply live_read_is_ledger_total; [apply demo_db_grown_reachable| |].
  - simpl. rewrite !elem_of_union, !elem_of_singleton. lia.
  - vm_compute. discriminate.
Defined.

(** ** getAllBalances *)

Lemma map_set_notin (rows : list (Z * Num)) (m : gmap Z Num) k :
  k ∉ rows.*1 →
  foldl (λ (map : gmap Z Num) obj, <[obj.1 := js_number obj.2]> map) m rows !! k
  = m !! k.
Proof.
  revert m. induction rows as [|r rows IH]; intros m Hk; [done|].
  rewrite fmap_cons, not_elem_of_cons in Hk. destruct Hk as [Hne Hk].
  simpl. rewrite IH by done. by rewrite lookup_insert_ne.
Qed.

Lemma map_set_in (rows : list (Z * Num)) (m : gmap Z Num) k v :
  NoDup (rows.*1) → (k, v) ∈ rows →
  foldl (λ (map : gmap Z Num) obj, <[obj.1 := js_number obj.2]> map) m rows !! k
  = Some (js_number v).
Proof.
  revert m. induction rows as [|r rows IH]; intros m Hnd Hin.
  - by apply elem_of_nil in Hin.
  - rewrite fmap_cons in Hnd. apply NoDup_cons in Hnd as [Hr Hnd].
    apply elem_of_cons in Hin as [<-|Hin]; simpl.
    + rewrite map_set_notin by done. apply lookup_insert_eq.
    + by apply IH.
Qed.

(** The sum of a group is always a value the table can hold. *)
Lemma foldl_sum_step_stored (l : list Num) (a z : Z) :
  in_int64 a → foldl sum_step (SumInt a) l = SumInt z → in_int64 z.
Proof.
  revert a. induction l as [|v l IH]; intros a Ha; simpl.
  - by intros [= <-].
  - destruct v as [x|].
    + case_decide as Hin; [by apply IH|]. by rewrite sum_step_overflow.
    + by rewrite sum_step_real.
Qed.

Lemma sum_values_stored (l : list Num) (v : Num) :
  sum_values l = Ok v → stored_amount v.
Proof.
  unfold sum_values.
  destruct (foldl sum_step (SumInt 0) l) as [z| |] eqn:E; intros [= <-]; [|done].
  by apply (foldl_sum_step_stored l 0 z).
Qed.

(** Distinct values that are all 0 or [a]: the sum is [a] when [a] is
    among them and 0 otherwise, and it exists when [a] can be stored. *)
Lemma sum_values_zero_or (L : list Num) (a : Num) :
  NoDup L → L ≠ [] → (∀ x, x ∈ L → x = Int 0 ∨ x = a) →
  (stored_amount a → ∃ v, sum_values L = Ok v)
  ∧ (∀ v, sum_values L = Ok v → v = if decide (a ∈ L) then a else Int 0).
Proof.
  intros Hnd Hne Hel.
  assert (∀ z, in_int64 z → in_int64 (0 + z) ∧ in_int64 (0 + 0 + z)
                             ∧ in_int64 (0 + z + 0)) as Hrange
    by (intros z; unfold in_int64; lia).
  destruct L as [|x [|y [|w L]]]; [done| | |].
  - destruct (Hel x ltac:(left)) as [-> | ->].
    + split; [by eexists|]. intros v [= <-].
      case_decide as Ha; [|done]. by apply list_elem_of_singleton in Ha.
    + rewrite decide_True by left. destruct a as [z|]; unfold sum_values; simpl.
      * split.
        -- intros Hz. rewrite decide_True by by apply Hrange. by eexists.
        -- intros v. case_decide; [|done]. by intros [= <-].
      * split; [by eexists|]. by intros v [= <-].
  - apply NoDup_cons in Hnd as [Hxy _]. rewrite list_elem_of_singleton in Hxy.
    destruct (Hel x ltac:(left)) as [-> | ->];
      destruct (Hel y ltac:(right; left)) as [-> | ->]; try done.
    + rewrite decide_True by (right; left).
      destruct a as [z|]; unfold sum_values; simpl.
      * split.
        -- intros Hz. rewrite decide_True by by apply Hrange. by eexists.
        -- intros v. case_decide; [|done]. by intros [= <-].
      * split; [by eexists|]. by intros v [= <-].
    + rewrite decide_True by left.
      destruct a as [z|]; unfold sum_values; simpl.
      * split.
        -- intros Hz. rewrite decide_True by by apply Hrange. simpl.
           rewrite decide_True by by apply Hrange. by eexists.
        -- intros v. case_decide; [|done]. simpl.
           case_decide; [|done]. intros [= <-]. f_equal. lia.
      * split; [by eexists|]. by intros v [= <-].
  - exfalso.
    apply NoDup_cons in Hnd as [Hx Hnd]. apply NoDup_cons in Hnd as [Hy _].
    assert (x ≠ y ∧ x ≠ w ∧ y ≠ w) as (Hxy & Hxw & Hyw).
    { repeat split; intros ->;
        [apply Hx; left | apply Hx; right; left | apply Hy; left]. }
    destruct (Hel x ltac:(left)) as [Ex|Ex];
      destruct (Hel y ltac:(right; left)) as [Ey|Ey];
      destruct (Hel w ltac:(right; right; left)) as [Ew|Ew];
      congruence.
Qed.

(** The rows under one key in the union of the users, with 0, and of the
    snapshot rows. *)
Lemma all_balances_group db k :
  let rows := remove_dups
       (((λ u, (u, Int 0)) <$> elements (user db))
        ++ ((λ kb : Z * Balance, (kb.1, amount kb.2))
              <$> map_to_list (balance db))) in
  let L := (filter (λ r, r.1 = k) rows).*2 in
  (k ∈ rows.*1 ↔ k ∈ user db ∨ is_Some (balance db !! k))
  ∧ NoDup L
  ∧ (k ∈ rows.*1 → L ≠ [])
  ∧ (∀ x, x ∈ L → x = Int 0 ∨ x = COALESCE (amount <$> balance db !! k) (Int 0))
  ∧ (k ∈ rows.*1 →
     (COALESCE (amount <$> balance db !! k) (Int 0) ∈ L
      ∨ (balance db !! k = None ∧ ∀ x, x ∈ L → x = Int 0))).
Proof.
  intros rows L.
  assert (∀ i w, (i, w) ∈ rows ↔
            (i ∈ user db ∧ w = Int 0)
            ∨ ∃ b, balance db !! i = Some b ∧ w = amount b) as Hrows.
  { intros i w. unfold rows.
    rewrite elem_of_remove_dups, elem_of_app, !list_elem_of_fmap. split.
    - intros [(u & [= -> ->] & Hu)|([j b] & [= -> ->] & Hb)].
      + left. by rewrite <- elem_of_elements.
      + right. exists b. split; [|done]. by apply elem_of_map_to_list.
    - intros [[Hu ->]|(b & Hb & ->)].
      + left. exists i. split; [done|]. by rewrite elem_of_elements.
      + right. exists (i, b). split; [done|]. by apply elem_of_map_to_list. }
  assert (∀ x, x ∈ L ↔ (k, x) ∈ rows) as HL.
  { intros x. unfold L. rewrite list_elem_of_fmap. split.
    - intros ([i w] & -> & Hin). apply list_elem_of_filter in Hin as [Hk Hin].
      simpl in *. by subst i.
    - intros Hin. exists (k, x). split; [done|]. by apply list_elem_of_filter. }
  assert (k ∈ rows.*1 ↔ k ∈ user db ∨ is_Some (balance db !! k)) as Hkey.
  { rewrite list_elem_of_fmap. split.
    - intros ([i w] & -> & Hin). apply Hrows in Hin. simpl.
      destruct Hin as [[? _]|(b & Hb & _)]; [by left | right; eauto].
    - intros [Hu|[b Hb]].
      + exists (k, Int 0). split; [done|]. apply Hrows. by left.
      + exists (k, amount b). split; [done|]. apply Hrows. right. eauto. }
  split; [done|]. split; [|split; [|split]].
  - unfold L. apply NoDup_fmap_2_strong.
    + intros [i w] [i' w'] Hr Hr' Heq.
      apply list_elem_of_filter in Hr as [Hk _].
      apply list_elem_of_filter in Hr' as [Hk' _]. simpl in *. congruence.
    + apply NoDup_filter. unfold rows. apply NoDup_remove_dups.
  - intros Hk HLnil. apply Hkey in Hk.
    assert (∃ x, x ∈ L) as [x Hx].
    { destruct Hk as [Hu|[b Hb]].
      - exists (Int 0). apply HL, Hrows. by left.
      - exists (amount b). apply HL, Hrows. right. eauto. }
    rewrite HLnil in Hx. by apply elem_of_nil in Hx.
  - intros x Hx. apply HL, Hrows in Hx.
    destruct Hx as [[_ ->]|(b & -> & ->)]; [by left | by right].
  - intros Hk. apply Hkey in Hk.
    destruct (balance db !! k) as [b|] eqn:E; simpl.
    + left. apply HL, Hrows. right. eauto.
    + right. split; [done|]. intros x Hx. apply HL, Hrows in Hx.
      destruct Hx as [[_ ->]|(b & Hb & _)]; [done | congruence].
Qed.

Lemma all_balances_query_rows db g k v :
  all_balances_query db = Ok g →
  (k, v) ∈ g ↔
  (k ∈ user db ∨ is_Some (balance db !! k))
  ∧ v = COALESCE (amount <$> balance db !! k) (Int 0).
Proof.
  unfold all_balances_query. intros Hg.
  destruct (all_balances_group db k) as (Hkey & Hnd & Hne & Hel & Hin).
  rewrite (elem_of_group_by_sum _ _ _ _ Hg), Hkey.
  assert (k ∈ user db ∨ is_Some (balance db !! k) →
          ∀ w, sum_values
                 (filter (λ r, r.1 = k)
                    (remove_dups
                       (((λ u, (u, Int 0)) <$> elements (user db))
                        ++ ((λ kb : Z * Balance, (kb.1, amount kb.2))
                              <$> map_to_list (balance db))))).*2 = Ok w →
               w = COALESCE (amount <$> balance db !! k) (Int 0)) as Hval.
  { intros Hk w Hw. apply Hkey in Hk.
    destruct (sum_values_zero_or _ _ Hnd (Hne Hk) Hel) as [_ Hv].
    rewrite (Hv w Hw).
    destruct (Hin Hk) as [Ha|[Hnone Hz]].
    - by case_decide.
    - rewrite Hnone. change (COALESCE (amount <$> None) (Int 0)) with (Int 0).
      by destruct (decide (Int 0 ∈ _)). }
  split.
  - intros [Hk Hv]. split; [done|]. by apply Hval.
  - intros [Hk ->]. split; [done|].
    pose proof Hg as Hg'. apply group_by_sum_Ok in Hg'.
    apply Hkey in Hk as Hk'. apply elem_of_group_keys in Hk'.
    apply list_elem_of_lookup in Hk' as [n Hn].
    destruct (Forall2_lookup_l _ _ _ _ _ Hg' Hn) as ([j w] & _ & _ & Hw).
    simpl in Hw. rewrite Hw. f_equal. by apply Hval.
Qed.

Lemma all_balances_query_succeeds db :
  (∀ k b, balance db !! k = Some b → stored_amount (amount b)) →
  ∃ g, all_balances_query db = Ok g.
Proof.
  intros Hst. unfold all_balances_query. apply group_by_sum_total.
  intros k Hk.
  destruct (all_balances_group db k) as (Hkey & Hnd & Hne & Hel & _).
  destruct (sum_values_zero_or _ _ Hnd (Hne Hk) Hel) as [Hex _].
  apply Hex. destruct (balance db !! k) as [b|] eqn:E; simpl; [|done].
  by apply (Hst k b).
Qed.

Lemma getAllBalances_Ok db db' m :
  getAllBalances db = Ok (db', m) ↔
  updateBalances None db = Ok db'
  ∧ ∃ g, all_balances_query db' = Ok g
         ∧ m = foldl (λ (map : gmap Z Num) obj, <[obj.1 := js_number obj.2]> map)
                     ∅ g.
Proof.
  unfold getAllBalances.
  destruct (updateBalances None db) as [db1|e]; [|split; [done|by intros [? _]]].
  destruct (all_balances_query db1) as [g|e] eqn:E; split.
  - intros [= <- <-]. split; [done|]. by exists g.
  - intros [[= <-] (g' & Hg' & ->)]. rewrite E in Hg'. by injection Hg' as <-.
  - discriminate.
  - intros [[= <-] (g' & Hg' & _)]. rewrite E in Hg'. discriminate.
Qed.

Lemma getAllBalances_lookup db db' m k :
  getAllBalances db = Ok (db', m) →
  m !! k =
  if decide (k ∈ user db ∨ is_Some (balance db' !! k))
  then Some (js_number (COALESCE (amount <$> balance db' !! k) (Int 0)))
  else None.
Proof.
  rewrite getAllBalances_Ok. intros (Hok & g & Hg & ->).
  pose proof (refreshed_Ok _ _ _ Hok) as Hdb'.
  assert (user db' = user db) as Hu by (by rewrite <- Hdb', refreshed_user).
  case_decide as Hk.
  - apply map_set_in.
    + unfold all_balances_query in Hg. rewrite (group_by_sum_keys _ _ Hg).
      apply NoDup_group_keys.
    + apply (all_balances_query_rows _ _ _ _ Hg). by rewrite Hu.
  - rewrite map_set_notin; [apply lookup_empty|].
    rewrite list_elem_of_fmap. intros ([i w] & -> & Hin).
    apply (all_balances_query_rows _ _ _ _ Hg) in Hin as [Hin _].
    rewrite Hu in Hin. by apply Hk.
Qed.

(** The entries of the map of a successful [getAllBalances()], by
    whether the subject has a delta up to the maximum ids. *)
Lemma getAllBalances_lookup_cases db db' m k :
  getAllBalances db = Ok (db', m) →
  updateBalances None db = Ok db'
  ∧ (is_Some (m !! k) ↔ k ∈ user db ∨ is_Some (balance db' !! k))
  ∧ (has_delta_upto db k (transactionMax db) (transferMax db) →
     subject_volume db k ≤ safe_integer →
     m !! k = Some (Int (aggregate_upto db k (transactionMax db)
                                        (transferMax db))))
  ∧ (¬ has_delta_upto db k (transactionMax db) (transferMax db) →
     m !! k = match balance db !! k with
              | Some b => Some (js_number (amount b))
              | None => if decide (k ∈ user db) then Some (Int 0) else None
              end).
Proof.
  intros Hall.
  pose proof (getAllBalances_lookup db db' m k Hall) as Hm.
  apply getAllBalances_Ok in Hall as (Hok & _).
  pose proof safe_integer_int64.
  split; [done|]. split; [|split].
  - rewrite Hm. case_decide; split; try done; by intros [? ?].
  - intros Hd Hvol. rewrite Hm.
    rewrite (updateBalances_Ok_exact None db db' k Hok) by (done || lia).
    rewrite decide_True by (right; eauto). simpl.
    rewrite round53_safe; [done|].
    pose proof (aggregate_upto_volume db k (transactionMax db) (transferMax db)).
    lia.
  - intros Hd. rewrite Hm.
    rewrite (updateBalances_Ok_lookup _ _ _ k Hok).
    rewrite (decide_False (P:=_ ∧ _)) by tauto.
    destruct (balance db !! k) as [b|] eqn:E; simpl.
    + rewrite decide_True; [done | right; eauto].
    + destruct (decide (k ∈ user db)) as [Hu|Hu].
      * rewrite decide_True; [done | by left].
      * rewrite decide_False; [done|]. intros [?|[? ?]]; done.
Qed.

(** X15. [getAllBalances()] succeeds when the volume of every subject is
    at most 2^63 - 1 and the snapshot table holds amounts it can hold.
    The map it returns has an entry for every user and for every key of
    the rebuilt snapshot table and for no other id: the exact aggregate up
    to the maximum ids for a subject with a delta whose volume is at most
    2^53, and, for a subject without a delta, the amount of the row the
    table already held, else 0. *)
Theorem getAllBalances_entries db :
  ((∀ u, subject_volume db u ≤ int64_max) →
   (∀ k b, balance db !! k = Some b → stored_amount (amount b)) →
   ∃ db' m, getAllBalances db = Ok (db', m))
  ∧ ∀ db' m k, getAllBalances db = Ok (db', m) →
      updateBalances None db = Ok db'
      ∧ (is_Some (m !! k) ↔ k ∈ user db ∨ is_Some (balance db' !! k))
      ∧ (has_delta_upto db k (transactionMax db) (transferMax db) →
         subject_volume db k ≤ safe_integer →
         m !! k = Some (Int (aggregate_upto db k (transactionMax db)
                                            (transferMax db))))
      ∧ (¬ has_delta_upto db k (transactionMax db) (transferMax db) →
         m !! k = match balance db !! k with
                  | Some b => Some (js_number (amount b))
                  | None => if decide (k ∈ user db) then Some (Int 0) else None
                  end).
Proof.
  split.
  - intros Hvol Hst.
    destruct (updateBalances_succeeds None db) as [db' Hok];
      [by intros s _|].
    destruct (all_balances_query_succeeds db') as [g Hg].
    { intros k b Hb.
      rewrite (updateBalances_Ok_lookup _ _ _ k Hok) in Hb.
      case_decide as Hw; [|by apply (Hst k b)].
      unfold written_row in Hb.
      destruct (sum_values _) as [v|e] eqn:E; [|done].
      injection Hb as <-. simpl. by apply sum_values_stored in E. }
    eexists db', _. apply getAllBalances_Ok. split; [done|]. by exists g.
  - intros db' m k. apply getAllBalances_lookup_cases.
Qed.

Lemma getAllBalances_entries_witness :
  ∃ db' m, getAllBalances demo_db_grown = Ok (db', m).
Proof.
  apply (proj1 (getAllBalances_entries demo_db_grown)).
  - intros u.
    assert (∀ P : Delta → Prop, ∀ H : ∀ d, Decision (P d), ∀ l,
              sum_where P d_magnitude l ≤ sum_where (λ _, True) d_magnitude l)
      as Hle.
    { intros P H l. apply sum_where_mono; [intros; apply Z.abs_nonneg | done]. }
    unfold subject_volume.
    pose proof (Hle (λ d, d_subject d = u) _ (transaction_deltas demo_db_grown)).
    pose proof (Hle (λ d, d_subject d = u) _ (transfer_deltas demo_db_grown)).
    assert (sum_where (λ _, True) d_magnitude (transaction_deltas demo_db_grown)
            + sum_where (λ _, True) d_magnitude (transfer_deltas demo_db_grown)
            ≤ int64_max) by (vm_compute; discriminate).
    lia.
  - intros k b Hb.
    assert (b ∈ (map_to_list (balance demo_db_grown)).*2) as Hin.
    { apply list_elem_of_fmap. exists (k, b). split; [done|].
      by apply elem_of_map_to_list. }
    vm_compute in Hin.
    repeat (apply elem_of_cons in Hin as [->|Hin]; [vm_compute; split; discriminate|]).
    by apply elem_of_nil in Hin.
Defined.

Lemma aggregate_upto_no_delta db s tmax fmax c1 c2 :
  ¬ has_delta_upto db s tmax fmax → c1 ≤ tmax → c2 ≤ fmax →
  aggregate_upto db s c1 c2 = 0.
Proof.
  unfold has_delta_upto. rewrite !Exists_exists. intros Hno H1 H2.
  unfold aggregate_upto.
  rewrite !sum_where_none; [done| |]; apply Forall_forall;
    intros d Hd [Hs Hle]; apply Hno; [right|left]; exists d;
    (split; [done|]); (split; [done | lia]).
Qed.

(** X16. In a state of the service over append-only ledgers whose
    sub-transactions reference stored transactions, the entry of a user
    whose volume is at most 2^53 in the map of a successful
    [getAllBalances()] is the amount [getBalance] returns for it. *)
Theorem getAllBalances_agrees_with_getBalance db db' m u :
  reachable db → sub_transactions_attached db → u ∈ user db →
  subject_volume db u ≤ safe_integer →
  getAllBalances db = Ok (db', m) →
  Ok (m !! u) = amount_of (getBalance u db).
Proof.
  intros Hr Hfk Hu Hvol Hall.
  rewrite (getBalance_reachable db u Hr Hu Hvol). simpl. f_equal.
  destruct (getAllBalances_lookup_cases db db' m u Hall)
    as (_ & _ & Hwith & Hwithout).
  apply reachable_invariants in Hr as (_ & Hb & He).
  pose proof safe_integer_int64.
  rewrite <- (aggregate_at_maxima db u Hfk).
  destruct (decide (has_delta_upto db u (transactionMax db) (transferMax db)))
    as [Hd|Hd]; [by apply Hwith|].
  rewrite (Hwithout Hd).
  rewrite (aggregate_upto_no_delta db u _ _ _ _ Hd) by lia.
  destruct (balance db !! u) as [b|] eqn:E.
  - rewrite (He u b E) by lia. destruct (Hb u b E) as [Ht Hf].
    by rewrite (aggregate_upto_no_delta db u _ _ _ _ Hd) by lia.
  - by rewrite decide_True.
Qed.

Lemma demo_db_grown_attached : sub_transactions_attached demo_db_grown.
Proof.
  unfold sub_transactions_attached. simpl.
  constructor; [apply Exists_cons_hd; reflexivity|].
  constructor; [apply Exists_cons_tl, Exists_cons_hd; reflexivity|].
  constructor.
Defined.

Lemma getAllBalances_agrees_with_getBalance_witness :
  Ok (({[1 := Int (-275); 2 := Int 275; 3 := Int (-1000); 4 := Int 1000;
         5 := Int 500; 6 := Int 0]} : gmap Z Num) !! 1)
  = amount_of (getBalance 1 demo_db_grown).
Proof.
  apply (getAllBalances_agrees_with_getBalance demo_db_grown
           (refreshed None demo_db_grown)
           {[1 := Int (-275); 2 := Int 275; 3 := Int (-1000); 4 := Int 1000;
             5 := Int 500; 6 := Int 0]} 1).
  - apply demo_db_grown_reachable.
  - apply demo_db_grown_attached.
  - simpl. rewrite !elem_of_union, !elem_of_singleton. lia.
  - vm_compute. discriminate.
  - vm_compute. reflexivity.
Defined.

Example getAllBalances_demo :
  match getAllBalances demo_db_grown with
  | Ok (_, m) => (λ k, m !! k) <$> [1; 2; 3; 4; 5; 6; 7]
  | Err _ => []
  end
  = [Some (Int (-275)); Some (Int 275); Some (Int (-1000)); Some (Int 1000);
     Some (Int 500); Some (Int 0); None].
Proof. vm_compute. reflexivity. Qed.

(** The rebuild inside [getAllBalances()] fails as a whole when the sum of
    one subject overflows. *)
Example getAllBalances_overflow :
  getAllBalances overflow_db = Err QueryFailedError.
Proof. vm_compute. reflexivity. Qed.

(** ** Conservation of money *)

Lemma sum_Z_fmap_add {A : Type} (f g : A → Z) (l : list A) :
  sum_Z ((λ a, f a + g a) <$> l) = sum_Z (f <$> l) + sum_Z (g <$> l).
Proof.
  induction l as [|a l IH]; [done|].
  rewrite !fmap_cons, !sum_Z_cons, IH. lia.
Qed.

Lemma sum_Z_fmap_zero {A : Type} (l : list A) : sum_Z ((λ _, 0) <$> l) = 0.
Proof.
  induction l as [|a l IH]; [done|]. by rewrite fmap_cons, sum_Z_cons, IH.
Qed.

Lemma sum_no_match {A : Type} (key : A → Z) (l : list A) k v :
  k ∉ key <$> l →
  sum_Z ((λ a, if decide (key a = k) then v else 0) <$> l) = 0.
Proof.
  induction l as [|a l IH]; intros Hk; [done|].
  rewrite fmap_cons, not_elem_of_cons in Hk. destruct Hk as [Hne Hk].
  rewrite fmap_cons, sum_Z_cons.
  rewrite decide_False by congruence. rewrite IH by done. lia.
Qed.

(** Exactly one row of a keyed list matches a key that occurs in it. *)
Lemma sum_one_match {A : Type} (key : A → Z) (l : list A) k v :
  NoDup (key <$> l) → k ∈ key <$> l →
  sum_Z ((λ a, if decide (key a = k) then v else 0) <$> l) = v.
Proof.
  induction l as [|a l IH]; intros Hnd Hk; [by apply elem_of_nil in Hk|].
  rewrite fmap_cons in Hnd, Hk. apply NoDup_cons in Hnd as [Ha Hnd].
  rewrite fmap_cons. rewrite sum_Z_cons.
  destruct (decide (key a = k)) as [<-|Hne].
  - rewrite sum_no_match by done. lia.
  - apply elem_of_cons in Hk as [Hk|Hk]; [congruence|].
    rewrite IH by done. lia.
Qed.

(** Summing per left row over its matches on the right counts every right
    row once when the left keys are distinct and every right row has a
    match. *)
Lemma sum_matches_unique {A B : Type} (keyA : A → Z) (keyB : B → Z)
    (G : B → Z) (la : list A) (lb : list B) :
  NoDup (keyA <$> la) → (∀ b, b ∈ lb → keyB b ∈ keyA <$> la) →
  sum_Z ((λ a, sum_where (λ b, keyA a = keyB b) G lb) <$> la) = sum_Z (G <$> lb).
Proof.
  intros Hnd. induction lb as [|b lb IH]; intros Hfk.
  - apply sum_Z_fmap_zero.
  - rewrite fmap_cons. rewrite sum_Z_cons.
    rewrite <- IH by (intros c Hc; apply Hfk; by right).
    rewrite <- (sum_one_match keyA la (keyB b) (G b) Hnd)
      by (apply Hfk; left).
    rewrite <- sum_Z_fmap_add. f_equal. apply list_fmap_ext.
    intros i a _. by rewrite sum_where_cons.
Qed.

Lemma sum_inner_join {A B : Type} (on : A → B → Prop)
    `{∀ a b, Decision (on a b)} (g : A * B → Z) (l : list A) (r : list B) :
  sum_Z (g <$> inner_join on l r)
  = sum_Z ((λ a, sum_where (on a) (λ b, g (a, b)) r) <$> l).
Proof.
  unfold inner_join. induction l as [|a l IH]; [done|].
  rewrite bind_cons, !fmap_cons, fmap_app, sum_Z_app, IH, sum_Z_cons. f_equal.
  unfold sum_where. generalize (filter (on a) r). intros k.
  induction k as [|b k IHk]; [done|].
  rewrite bind_cons, fmap_app, sum_Z_app, IHk.
  change (sum_Z (g <$> [(a, b)])) with (g (a, b) + 0).
  change ((λ b0, g (a, b0)) <$> b :: k)
    with (g (a, b) :: ((λ b0, g (a, b0)) <$> k)).
  rewrite sum_Z_cons. lia.
Qed.

Lemma recipient_join_total db :
  sum_Z ((λ x, str_amount x.1.2 * pr_priceInclVat x.2) <$> recipient_join db)
  = sum_Z (st_total db <$> sub_transaction db).
Proof.
  unfold recipient_join. rewrite !sum_inner_join. reflexivity.
Qed.

Lemma payer_join_total db :
  sum_Z ((λ x, str_amount x.1.2 * pr_priceInclVat x.2) <$> payer_join db)
  = sum_Z ((λ t, sum_where (λ st, t_id t = st_transactionId st) (st_total db)
                           (sub_transaction db)) <$> transaction db).
Proof.
  unfold payer_join. rewrite !sum_inner_join. reflexivity.
Qed.

(** With distinct transaction ids and the foreign key in place, the two
    joins see the same rows. *)
Lemma payer_total_is_recipient_total db :
  transaction_ids_unique db → sub_transactions_attached db →
  sum_Z ((λ x, str_amount x.1.2 * pr_priceInclVat x.2) <$> payer_join db)
  = sum_Z ((λ x, str_amount x.1.2 * pr_priceInclVat x.2) <$> recipient_join db).
Proof.
  intros Hnd Hfk. rewrite payer_join_total, recipient_join_total.
  apply (sum_matches_unique t_id st_transactionId); [done|].
  intros st Hst. unfold sub_transactions_attached in Hfk.
  rewrite Forall_forall in Hfk.
  destruct (proj1 (Exists_exists _ _) (Hfk st Hst)) as (t & Ht & <-).
  by apply list_elem_of_fmap_2.
Qed.

Lemma transaction_deltas_total db :
  sum_Z (d_amount <$> transaction_deltas db)
  = - sum_Z ((λ x, str_amount x.1.2 * pr_priceInclVat x.2) <$> payer_join db)
    + sum_Z ((λ x, str_amount x.1.2 * pr_priceInclVat x.2) <$> recipient_join db).
Proof.
  unfold transaction_deltas. rewrite fmap_app, sum_Z_app, <- !list_fmap_compose.
  f_equal.
  generalize (payer_join db). intros l.
  induction l as [|x l IH]; [done|].
  rewrite !fmap_cons, !sum_Z_cons, IH. simpl. lia.
Qed.

Lemma transfer_deltas_closed db :
  closed_ledger db → sum_Z (d_amount <$> transfer_deltas db) = 0.
Proof.
  unfold closed_ledger, transfer_deltas. rewrite fmap_app, sum_Z_app.
  generalize (transfer db). intros l.
  induction 1 as [|t l [[i Hi] [j Hj]] _ IH]; [done|].
  rewrite !bind_cons, !fmap_app, !sum_Z_app, Hi, Hj.
  rewrite !fmap_cons, !sum_Z_cons. simpl. change (sum_Z []) with 0. lia.
Qed.

(** With the foreign key in place a refresh without ids scans every
    delta. *)
Lemma scanned_deltas_all db :
  sub_transactions_attached db →
  scanned_deltas None db = transaction_deltas db ++ transfer_deltas db.
Proof.
  intros Hfk. unfold scanned_deltas. f_equal; apply filter_all; intros d Hd.
  - split; [by apply transaction_deltas_within | done].
  - split; [by apply transfer_deltas_within | done].
Qed.

(** X17. In a closed ledger (every transfer has both sides) with distinct
    transaction ids and sub-transactions that reference stored
    transactions, and while the volume of every subject is at most
    2^63 - 1, the amounts selected by [updateBalances()] for the rows it
    writes are integers that add up to zero. *)
Theorem full_refresh_conserves_money db :
  closed_ledger db → transaction_ids_unique db → sub_transactions_attached db →
  (∀ u, subject_volume db u ≤ int64_max) →
  ∃ g zs, group_by_sum (update_moneys None db) = Ok g
          ∧ g.*2 = Int <$> zs ∧ sum_Z zs = 0.
Proof.
  intros Hclosed Hnd Hfk Hvol.
  destruct (group_by_sum_total (update_moneys None db)) as [g Hg].
  { intros s _. eexists. by apply update_group_sum. }
  exists g,
    ((λ s, aggregate_upto db s (transactionMax db) (transferMax db))
       <$> group_keys (update_moneys None db)).
  split; [done|]. split.
  - apply group_by_sum_Ok in Hg. rewrite <- list_fmap_compose. symmetry.
    eapply Forall2_fmap_eq; [|exact Hg].
    intros i r [_ Hv]. simpl in *.
    rewrite update_group_sum in Hv by done. by injection Hv as <-.
  - rewrite (list_fmap_ext _
               (λ s, sum_where (λ d, id s = d_subject d) d_amount
                       (scanned_deltas None db))); last first.
    { intros i s _. rewrite <- (scanned_sum None) by done.
      apply (sum_where_ext (λ d, d_subject d = s) (λ d, s = d_subject d)).
      intros d _. split; [split; congruence | done]. }
    rewrite (sum_matches_unique id d_subject).
    + rewrite scanned_deltas_all, fmap_app, sum_Z_app by done.
      rewrite transaction_deltas_total, transfer_deltas_closed by done.
      rewrite payer_total_is_recipient_total by done. lia.
    + rewrite list_fmap_id. apply NoDup_group_keys.
    + intros d Hd. rewrite list_fmap_id, elem_of_group_keys, update_moneys_keys.
      by apply list_elem_of_fmap_2.
Qed.

Lemma full_refresh_conserves_money_witness :
  ∃ g zs, group_by_sum (update_moneys None closed_db) = Ok g
          ∧ g.*2 = Int <$> zs ∧ sum_Z zs = 0.
Proof.
  apply full_refresh_conserves_money.
  - unfold closed_ledger. simpl.
    repeat (constructor; [split; eexists; reflexivity|]). constructor.
  - unfold transaction_ids_unique. simpl.
    apply NoDup_cons. split; [rewrite list_elem_of_singleton; lia|].
    apply NoDup_singleton.
  - unfold sub_transactions_attached. simpl.
    constructor; [apply Exists_cons_hd; reflexivity|].
    constructor; [apply Exists_cons_tl, Exists_cons_hd; reflexivity|].
    constructor; [apply Exists_cons_tl, Exists_cons_hd; reflexivity|].
    constructor.
  - intros u.
    assert (∀ P : Delta → Prop, ∀ H : ∀ d, Decision (P d), ∀ l,
              sum_where P d_magnitude l ≤ sum_where (λ _, True) d_magnitude l)
      as Hle.
    { intros P H l. apply sum_where_mono; [intros; apply Z.abs_nonneg | done]. }
    unfold subject_volume.
    pose proof (Hle (λ d, d_subject d = u) _ (transaction_deltas closed_db)).
    pose proof (Hle (λ d, d_subject d = u) _ (transfer_deltas closed_db)).
    assert (sum_where (λ _, True) d_magnitude (transaction_deltas closed_db)
            + sum_where (λ _, True) d_magnitude (transfer_deltas closed_db)
            ≤ int64_max) by (vm_compute; discriminate).
    lia.
Defined.

Example closed_db_rows :
  group_by_sum (update_moneys None closed_db)
  = Ok [(1, Int (-675)); (2, Int 675)].
Proof. vm_compute. reflexivity. Qed.

(** Beyond the range the amounts written need not be integers: in
    [real_db], a ledger without transfers, both rows hold a
    floating-point amount. *)
Example real_db_rows :
  group_by_sum (update_moneys None real_db) = Ok [(1, Real); (2, Real)].
Proof. vm_compute. reflexivity. Qed.

(** ** The ids read at the start of a refresh *)

(** X18. The ids [updateBalances] reads before it aggregates are never
    negative, bound every id of their ledger, and are either 0 (always so
    on an empty ledger) or the id of a stored row. *)
Theorem max_ids_spec db :
  (0 ≤ transactionMax db
   ∧ (∀ t, t ∈ transaction db → t_id t ≤ transactionMax db)
   ∧ (transactionMax db = 0
      ∨ ∃ t, t ∈ transaction db ∧ t_id t = transactionMax db))
  ∧ (0 ≤ transferMax db
     ∧ (∀ t, t ∈ transfer db → tr_id t ≤ transferMax db)
     ∧ (transferMax db = 0
        ∨ ∃ t, t ∈ transfer db ∧ tr_id t = transferMax db)).
Proof.
  split; (split; [|split]).
  - apply transactionMax_nonneg.
  - apply transactionMax_ub.
  - unfold transactionMax.
    pose proof (sql_max_spec (t_id <$> transaction db)) as Hs.
    destruct (sql_max _) as [k|]; [|by left].
    destruct Hs as [Hk _]. apply list_elem_of_fmap in Hk as (t & -> & Ht).
    destruct (Z.max_spec (t_id t) 0) as [[_ ->]|[_ ->]]; [by left|].
    right. by exists t.
  - apply transferMax_nonneg.
  - apply transferMax_ub.
  - unfold transferMax.
    pose proof (sql_max_spec (tr_id <$> transfer db)) as Hs.
    destruct (sql_max _) as [k|]; [|by left].
    destruct Hs as [Hk _]. apply list_elem_of_fmap in Hk as (t & -> & Ht).
    destruct (Z.max_spec 0 (tr_id t)) as [[_ ->]|[_ ->]]; [|by left].
    right. by exists t.
Qed.

Lemma demo_db_grown_reachable_mono : reachable_mono demo_db_grown.
Proof.
  apply (history_grow _ _ demo_db_refreshed).
  - apply history_refresh. apply history_init; [exact I | reflexivity].
  - split; [reflexivity|]. vm_compute. split; discriminate.
Defined.

Lemma refresh_never_lowers_checkpoints_witness :
  1 ≤ 2 ∧ 2 ≤ 2.
Proof.
  apply (refresh_never_lowers_checkpoints demo_db_grown None 1
           (mkBalance (Int (-450)) 1 2) (mkBalance (Int (-275)) 2 2)).
  - apply demo_db_grown_reachable_mono.
  - vm_compute. reflexivity.
  - vm_compute. reflexivity.
Defined.
